(** * The iterative subspace solver of molpro::linalg, embedded in Rocq

  A shallow embedding of the subspace engine of
  [src/molpro/linalg/IterativeSolver.h] (class [IterativeSolver] and its
  variants [LinearEigensystem], [LinearEquations], [Optimize], [DIIS]) and of
  the reference helpers of [src/molpro/linalg/itsolv/wrap.h].

  Scalars are IEEE binary64 numbers (C++ [double]), embedded as Rocq's
  primitive floats.  Sizes and indices are natural numbers.  The dense
  kernels of the Eigen library (singular value decomposition, eigensolvers,
  linear solves) are external to the repository and enter as parameters. *)

From Stdlib Require Import String.
From Stdlib Require Import List Bool Arith ZArith Lia Floats Sorted Permutation.
Import ListNotations.

Set Warnings "-inexact-float".

(* ===================================================================== *)
(** * Part I: definitions *)
(* ===================================================================== *)

(** ** wrap.h: vectors of references *)

Module Wrap.

(** A [std::vector<R>] owns contiguous storage: element [i] lives at address
    [data + i], counted in units of [sizeof(R)]. *)
Record vector (R : Type) : Type := mkVector { data : nat; elems : list R }.
Arguments mkVector {R} _ _.
Arguments data {R} _.
Arguments elems {R} _.

(** A [std::reference_wrapper<R>] is the address of the object it refers to;
    [std::addressof(w.get())] reads that address back. *)
Definition reference := nat.

(** Iterators of a [std::vector] are pointers into its storage. *)
Definition begin {R} (v : vector R) : nat := data v.
Definition end_ {R} (v : vector R) : nat := data v + length (elems v).

(** The object a reference points to, when it lies in [v]. *)
Definition get {R} (v : vector R) (r : reference) : option R :=
  if r <? data v then None else nth_error (elems v) (r - data v).

(** [wrap(vec)]: [std::copy(begin(vec), end(vec), std::back_inserter(w))],
    every element being converted to a reference to itself. *)
Fixpoint wrap_from {R} (addr : nat) (l : list R) : list reference :=
  match l with
  | [] => []
  | _ :: t => addr :: wrap_from (S addr) t
  end.

Definition wrap {R} (v : vector R) : list reference :=
  wrap_from (data v) (elems v).

(** [std::find_if(first, last, pred) != last]. *)
Definition found (pred : reference -> bool) (wparams : list reference) : bool :=
  match find pred wparams with
  | Some _ => true
  | None => false
  end.

(** The loop of [find_ref]: [it] runs over the [n] positions that remain
    before [end]; [std::distance(begin, it)] is [it - first]. *)
Fixpoint find_ref_loop (wparams : list reference) (first it n : nat) : list nat :=
  match n with
  | O => []
  | S n' =>
      if found (fun w => w =? it) wparams
      then (it - first) :: find_ref_loop wparams first (S it) n'
      else find_ref_loop wparams first (S it) n'
  end.

(** [find_ref(wparams, begin, end)].  A range with [end] before [begin] is
    undefined behaviour in C++; the model reads it as empty. *)
Definition find_ref (wparams : list reference) (first last : nat) : list nat :=
  find_ref_loop wparams first first (last - first).

(** [std::vector::erase(begin() + i)]. *)
Fixpoint erase {A} (i : nat) (l : list A) : list A :=
  match l, i with
  | [], _ => []
  | _ :: t, O => t
  | x :: t, S i' => x :: erase i' t
  end.

End Wrap.

(** ** Scalars: C++ [double] and [std::complex<double>] *)

Module Num.
Local Open Scope float_scope.

(** C++ comparison operators on [double]; every comparison with a NaN is
    false, as IEEE 754 prescribes. *)
Definition lt (a b : float) : bool := (a <? b).
Definition le (a b : float) : bool := (a <=? b).
Definition gt (a b : float) : bool := (b <? a).
Definition ge (a b : float) : bool := (b <=? a).
Definition eq (a b : float) : bool := (a =? b).
Definition isnan (a : float) : bool := PrimFloat.is_nan a.
Definition fabs (a : float) : float := PrimFloat.abs a.
Definition sqrt (a : float) : float := PrimFloat.sqrt a.
(** [std::pow(x, 2)], which the C library evaluates as the rounded square. *)
Definition pow2 (a : float) : float := a * a.
(** [std::min(a, b)] is [(b < a) ? b : a]. *)
Definition min (a b : float) : float := if (b <? a) then b else a.
(** Conversion of an integer to [double]. *)
Definition of_nat (n : nat) : float := PrimFloat.of_uint63 (Uint63.of_Z (Z.of_nat n)).
(** [std::numeric_limits<double>::epsilon()]. *)
Definition epsilon : float := 0x1p-52.

Record complex : Type := mkC { re : float; im : float }.
Definition c_of_real (x : float) : complex := mkC x 0.
Definition c0 : complex := mkC 0 0.
Definition cadd (a b : complex) := mkC (re a + re b) (im a + im b).
Definition csub (a b : complex) := mkC (re a - re b) (im a - im b).
Definition cmul (a b : complex) :=
  mkC (re a * re b - im a * im b) (re a * im b + im a * re b).
Definition cneg (a : complex) := mkC (- re a) (- im a).
Definition conj (a : complex) := mkC (re a) (- im a).
Definition cscale (x : float) (a : complex) := mkC (x * re a) (x * im a).
Definition cdiv_real (a : complex) (x : float) := mkC (re a / x) (im a / x).
(** [std::abs] of a complex number. *)
Definition cabs (a : complex) : float := sqrt (re a * re a + im a * im a).
End Num.

(** ** Dense matrices and vectors in the style of Eigen

  A matrix is stored by columns, as Eigen does by default.  Elementary
  products and norms are summed in index order.  Reading a coefficient
  outside the stored block gives 0 (Eigen leaves it undefined when its
  assertions are compiled out); coefficients that [resize] and
  [conservativeResize] leave uninitialised are 0. *)

Module Mat.
Local Open Scope float_scope.

Section Generic.
Context {A : Type} (zero : A).

Record t : Type := mk { rows : nat; cols : nat; columns : list (list A) }.

Definition coeff (m : t) (i j : nat) : A := nth i (nth j (columns m) []) zero.
Definition col (m : t) (j : nat) : list A :=
    map (fun i => coeff m i j) (seq 0 (rows m)).
Definition build (r c : nat) (f : nat -> nat -> A) : t :=
    mk r c (map (fun j => map (fun i => f i j) (seq 0 r)) (seq 0 c)).
Definition empty : t := mk 0 0 [].
  (** [m.block(0, 0, r, c)]. *)
Definition topleft (m : t) (r c : nat) : t := build r c (coeff m).
  (** [m.block(i0, j0, r, c)]. *)
Definition block (m : t) (i0 j0 r c : nat) : t :=
    build r c (fun i j => coeff m (i0 + i) (j0 + j)).
  (** [m.leftCols(c)]. *)
Definition leftCols (m : t) (c : nat) : t := topleft m (rows m) c.
  (** [m.conservativeResize(r, c)]: the common block is kept. *)
Definition conservativeResize (m : t) (r c : nat) : t :=
    build r c (fun i j => if (i <? rows m)%nat && (j <? cols m)%nat
                          then coeff m i j else zero).
  (** [m.resize(r, c)]: nothing happens when the size is unchanged. *)
Definition resize (m : t) (r c : nat) : t :=
    if (rows m =? r)%nat && (cols m =? c)%nat then m
    else build r c (fun _ _ => zero).
  (** [m(i, j) = x]. *)
Definition set (m : t) (i j : nat) (x : A) : t :=
    build (rows m) (cols m)
          (fun i' j' => if (i' =? i)%nat && (j' =? j)%nat then x else coeff m i' j').
  (** [m.col(j) = c]. *)
Definition set_col (m : t) (j : nat) (c : list A) : t :=
    build (rows m) (cols m)
          (fun i' j' => if (j' =? j)%nat then nth i' c zero else coeff m i' j').
Definition of_columns (r : nat) (cs : list (list A)) : t :=
    build r (length cs) (fun i j => nth i (nth j cs []) zero).
Definition transpose (m : t) : t := build (cols m) (rows m) (fun i j => coeff m j i).
End Generic.

Arguments t : clear implicits.

Definition real := t float.
Definition cplx := t Num.complex.

Definition rcoeff : real -> nat -> nat -> float := coeff 0.
Definition ccoeff : cplx -> nat -> nat -> Num.complex := coeff Num.c0.

Definition sum (l : list float) : float := fold_left PrimFloat.add l 0.
Definition csum (l : list Num.complex) : Num.complex := fold_left Num.cadd l Num.c0.

Definition identity (n : nat) : real :=
  build n n (fun i j => if (i =? j)%nat then 1 else 0).
Definition diagonal (d : list float) : real :=
  build (length d) (length d) (fun i j => if (i =? j)%nat then nth i d 0 else 0).
Definition mul (a b : real) : real :=
  build (rows a) (cols b)
        (fun i j => sum (map (fun k => rcoeff a i k * rcoeff b k j) (seq 0 (cols a)))).
Definition mul_rc (a : real) (b : cplx) : cplx :=
  build (rows a) (cols b)
        (fun i j => csum (map (fun k => Num.cscale (rcoeff a i k) (ccoeff b k j))
                              (seq 0 (cols a)))).
Definition to_cplx (a : real) : cplx :=
  build (rows a) (cols a) (fun i j => Num.c_of_real (rcoeff a i j)).
(** [.real()] and [.imag()] *)
Definition real_part (a : cplx) : real :=
  build (rows a) (cols a) (fun i j => Num.re (ccoeff a i j)).
Definition imag_part (a : cplx) : real :=
  build (rows a) (cols a) (fun i j => Num.im (ccoeff a i j)).
(** [.norm()]: the square root of the sum of the squared coefficients. *)
Definition norm (a : real) : float :=
  Num.sqrt (sum (map (fun x => x * x) (concat (columns a)))).
Definition vnorm (v : list float) : float := Num.sqrt (sum (map (fun x => x * x) v)).
Definition neg (a : real) : real :=
  build (rows a) (cols a) (fun i j => - rcoeff a i j).
Definition column_vector (v : list float) : real := mk (length v) 1 [v].
(** [&m(0, 0)]: the coefficients as they lie in memory, column after column. *)
Definition raw (a : real) : list float := concat (columns (topleft 0 a (rows a) (cols a))).
(** [Eigen::Map<const Matrix>(p, r, c)]: the memory at [p] read as an r-by-c
    matrix stored by columns. *)
Definition Map (p : list float) (r c : nat) : real :=
  build r c (fun i j => nth (i + j * r) p 0).
End Mat.

(** ** The vector interface

  The solver is a template over the class [T] of the caller's large
  vectors and touches them through [dot], [axpy] and [scal] only: in
  C++, [x.dot(y)], [x.axpy(a, y)] (x <- x + a y) and [x.scal(a)]; with
  [a = 0], [scal] fills with zeros whatever [x] held.  P-space vectors are
  sparse maps from an index of the full space to a coefficient. *)

Definition Pvector := list (nat * float).

Class VectorOps (T : Type) : Type := {
dot : T -> T -> float;
axpy : T -> float -> T -> T;
scal : T -> float -> T;
dotP : T -> Pvector -> float;
axpyP : T -> float -> Pvector -> T
}.

(** A reference implementation: a vector held in memory as an array of
  doubles. *)
Module DenseVector.
Local Open Scope float_scope.
Definition t := list float.
Definition dot (x y : t) : float :=
  fold_left (fun acc ab => acc + fst ab * snd ab) (combine x y) 0.
Definition axpy (x : t) (a : float) (y : t) : t :=
  map (fun xy => fst xy + a * snd xy) (combine x y).
Definition scal (x : t) (a : float) : t :=
  if Num.eq a 0 then map (fun _ => 0) x else map (fun xi => a * xi) x.
Definition dotP (x : t) (p : Pvector) : float :=
  fold_left (fun acc ic => acc + nth (fst ic) x 0 * snd ic) p 0.
Fixpoint add_at (x : t) (i : nat) (d : float) : t :=
  match x, i with
  | [], _ => []
  | xi :: r, O => (xi + d) :: r
  | xi :: r, S i' => xi :: add_at r i' d
  end.
Definition axpyP (x : t) (a : float) (p : Pvector) : t :=
  fold_left (fun acc ic => add_at acc (fst ic) (a * snd ic)) p x.
End DenseVector.

#[export] Instance DenseVector_ops : VectorOps DenseVector.t := {
dot := DenseVector.dot;
axpy := DenseVector.axpy;
scal := DenseVector.scal;
dotP := DenseVector.dotP;
axpyP := DenseVector.axpyP
}.

(** ** Small list utilities *)

Module Util.
Fixpoint remove_nth {A} (i : nat) (l : list A) : list A :=
  match l, i with
  | [], _ => []
  | _ :: t, O => t
  | x :: t, S i' => x :: remove_nth i' t
  end.

(** [l[i] = x] on a [std::vector]; out of range is undefined in C++ and
    leaves the list as it is here. *)
Fixpoint update_nth {A} (i : nat) (x : A) (l : list A) : list A :=
  match l, i with
  | [], _ => []
  | _ :: t, O => x :: t
  | y :: t, S i' => y :: update_nth i' x t
  end.

(** [m[i] = x] on a [std::map<int, V>] whose keys are [0 .. length - 1]:
    assignment at the first absent key inserts it. *)
Definition assign_nth {A} (i : nat) (x : A) (l : list A) : list A :=
  if (i =? length l)%nat then l ++ [x] else update_nth i x l.

(** [v.resize(n)] on a [std::vector<double>]: new elements are zero. *)
Definition resize_floats (n : nat) (l : list float) : list float :=
  firstn n l ++ repeat 0%float (n - length l).

(** [std::min_element(first, last) - first]: the position of the first
    element that no later element is smaller than. *)
Fixpoint min_element_from (best : nat) (bestv : float) (i : nat) (l : list float) : nat :=
  match l with
  | [] => best
  | x :: t =>
      if Num.lt x bestv then min_element_from i x (S i) t
      else min_element_from best bestv (S i) t
  end.
Definition min_element (l : list float) : nat :=
  match l with
  | [] => 0
  | x :: t => min_element_from 0 x 1 t
  end.

(** [std::max_element], likewise. *)
Fixpoint max_element_from (best : nat) (bestv : float) (i : nat) (l : list float) : nat :=
  match l with
  | [] => best
  | x :: t =>
      if Num.lt bestv x then max_element_from i x (S i) t
      else max_element_from best bestv (S i) t
  end.
Definition max_element (l : list float) : nat :=
  match l with
  | [] => 0
  | x :: t => max_element_from 0 x 1 t
  end.

(** A [std::map<int, int>], kept as its list of entries in key order. *)
Definition intmap := list (nat * nat).
Definition map_count (k : nat) (m : intmap) : nat :=
  if existsb (fun kv => (fst kv =? k)%nat) m then 1 else 0.
Definition map_find (k : nat) (m : intmap) : option nat :=
  option_map snd (find (fun kv => (fst kv =? k)%nat) m).
Fixpoint map_assign (k v : nat) (m : intmap) : intmap :=
  match m with
  | [] => [(k, v)]
  | (k', v') :: t =>
      if (k =? k')%nat then (k, v) :: t
      else if (k <? k')%nat then (k, v) :: (k', v') :: t
      else (k', v') :: map_assign k v t
  end.
End Util.

(** ** Errors raised to the caller *)

Inductive exn : Type :=
| runtime_error (what : string)
| logic_error (what : string)
| overflow_error (what : string)
| assertion_failed (what : string)
| out_of_range (what : string)
| bad_alloc.

Inductive result (A : Type) : Type :=
| Ok (a : A)
| Throw (e : exn).
Arguments Ok {A} _.
Arguments Throw {A} _.

Definition bind {A B} (r : result A) (k : A -> result B) : result B :=
match r with
| Ok a => k a
| Throw e => Throw e
end.

Notation "x <- r ;; k" := (bind r (fun x => k))
(at level 61, r at next level, right associativity).
Notation "' p <- r ;; k" := (bind r (fun p => k))
(at level 61, p pattern, r at next level, right associativity).

Definition assert (b : bool) (what : string) : result unit :=
if b then Ok tt else Throw (assertion_failed what).

Definition is_ok {A} (r : result A) : bool :=
match r with Ok _ => true | Throw _ => false end.

(** ** The dense kernels of Eigen

  [JacobiSVD] with thin U and V, its [rank()] and [solve()] under a
  threshold set by [setThreshold], [EigenSolver], [GeneralizedEigenSolver]
  and the Householder QR solve. *)

Record SVD : Type := mkSVD {
singularValues : list float;
matrixU : Mat.real;
matrixV : Mat.real
}.

Record Platform : Type := mkPlatform {
  INTEL_COMPILER : bool;
JacobiSVD : Mat.real -> SVD;
svd_rank : float -> SVD -> nat;
svd_solve : float -> SVD -> list float -> list float;
EigenSolver : Mat.real -> list Num.complex * Mat.cplx;
GeneralizedEigenSolver : Mat.real -> Mat.real -> list Num.complex * Mat.cplx;
householderQr_solve : Mat.real -> Mat.real -> Mat.real
}.

(** ** The Q space *)

Module QSpace.
Section Q.
Context {T : Type} {ops : VectorOps T}.
Local Open Scope float_scope.

  (** Modelled from the spec: the class [Q] of
      [molpro/linalg/iterativesolver/Q.h], which [IterativeSolver.h] includes
      and which is not among the sources.  It keeps an ordered list of entries
      (parameter [q], action [hq], scale factor), each under a key of its own
      that later removals do not change, together with the cached metric and
      action blocks against Q itself, against the P space and against the
      right-hand sides: metric(i,j) = <q_i, q_j>, and action(i,j) = <q_i, A q_j>,
      or <A q_i, A q_j> in the residual-residual metric. *)
Record entry : Type := mkEntry {
    key : nat;
    vector : T;
    action : T;
    scale_factor : float;
    metric_pspace : list float;
    action_pspace : list float;
    rhs : list float
  }.

Record t : Type := mk {
    entries : list entry;
    metric_block : list (list float);
    action_block : list (list float);
    next_key : nat
  }.

Definition empty : t := mk [] [] [] 0.
Definition size (q : t) : nat := length (entries q).
Definition keys (q : t) : list nat := map key (entries q).
Definition metric (q : t) (i j : nat) : float := nth j (nth i (metric_block q) []) 0.
Definition action2 (q : t) (i j : nat) : float := nth j (nth i (action_block q) []) 0.

Definition append_column (m : list (list float)) (c : list float) : list (list float) :=
    map (fun rc => fst rc ++ [snd rc]) (combine m c).

  (** The common part of both [add] overloads: store the pair [(v, hv)]
      under a fresh key and extend the cached blocks. *)
Definition push (q : t) (v hv : T) (scale : float)
             (pspace : list Pvector) (rhsv : list T) (resres : bool) : t :=
    let es := entries q in
    let lhs (x hx : T) := if resres then hx else x in
    let metric_row := map (fun e => dot v (vector e)) es in
    let metric_col := map (fun e => dot (vector e) v) es in
    let action_row := map (fun e => dot (lhs v hv) (action e)) es in
    let action_col := map (fun e => dot (lhs (vector e) (action e)) hv) es in
    let e := mkEntry (next_key q) v hv scale
                     (map (fun p => dotP v p) pspace)
                     (map (fun p => dotP hv p) pspace)
                     (map (fun b => dot v b) rhsv) in
    mk (es ++ [e])
       (append_column (metric_block q) metric_col ++ [metric_row ++ [dot v v]])
       (append_column (action_block q) action_col ++ [action_row ++ [dot (lhs v hv) hv]])
       (S (next_key q)).

  (** Modelled from the spec: [add(r_new, action_new, r_prev, action_prev, rhs,
      res_res_flag, orthogonalise_flag)] enqueues the difference
      [r_prev - r_new] and its action, scaled to unit norm, and records the
      scale factor; with [orthogonalise_flag] the difference is first made
      orthogonal to [r_new]. *)
Definition add_difference (q : t) (r_new a_new r_prev a_prev : T)
             (pspace : list Pvector) (rhsv : list T)
             (resres orthogonalise : bool) : t :=
    let d := axpy r_prev (-1) r_new in
    let hd := axpy a_prev (-1) a_new in
    let c := if orthogonalise then dot d r_new / dot r_new r_new else 0 in
    let d := if orthogonalise then axpy d (- c) r_new else d in
    let hd := if orthogonalise then axpy hd (- c) a_new else hd in
    let s := 1 / Num.sqrt (dot d d) in
    push q (scal d s) (scal hd s) s pspace rhsv resres.

  (** Modelled from the spec: [add(r_new, action_new, rhs, res_res_flag)]
      promotes a converged solution; it stores [r_new] directly, normalised. *)
Definition add_solution (q : t) (r_new a_new : T)
             (pspace : list Pvector) (rhsv : list T) (resres : bool) : t :=
    let s := 1 / Num.sqrt (dot r_new r_new) in
    push q (scal r_new s) (scal a_new s) s pspace rhsv resres.

  (** Modelled from the spec: [remove(i)] drops entry [i] and the
      corresponding rows and columns of every cached block; the entries
      after it move down by one. *)
Definition remove (q : t) (i : nat) : t :=
    mk (Util.remove_nth i (entries q))
       (map (Util.remove_nth i) (Util.remove_nth i (metric_block q)))
       (map (Util.remove_nth i) (Util.remove_nth i (action_block q)))
       (next_key q).
End Q.
Arguments entry : clear implicits.
Arguments t : clear implicits.
End QSpace.

(** ** The solver object

  The data members of [IterativeSolver<T>] and of its derived classes that
  the engine reads or writes; members used for printing only are left out.
  The dynamic type of the object, which selects the override of the virtual
  [solveReducedProblem], is the field [m_variant]. *)

Inductive variant : Type := LinearEigensystem | LinearEquations | Optimize | DIIS.

Section SolverState.
Context {T : Type}.

Record Solver : Type := mkSolver {
  m_variant : variant;
  m_thresh : float;
  m_linear : bool;
  m_hermitian : bool;
  m_roots : nat;
  m_rspt : bool;
  m_subspaceMatrixResRes : bool;
  m_residual_eigen : bool;
  m_residual_rhs : bool;
  m_rhs : list T;
  m_updateShift : list float;
  m_interpolation : Mat.real;
  m_subspaceMatrix : Mat.real;
  m_subspaceOverlap : Mat.real;
  m_subspaceRHS : Mat.real;
  m_subspaceEigenvectors : Mat.cplx;
  m_subspaceEigenvalues : list Num.complex;
  m_values : list float;
  m_iterations : nat;
  m_singularity_threshold : float;
  m_augmented_hessian : float;
  m_svdThreshold : float;
  m_maxQ : nat;
  m_pspace : list Pvector;
  m_qspace : QSpace.t T;
  m_last_d : list T;
  m_last_hd : list T;
  m_current_r : list T;
  m_current_v : list T;
  m_s_rr : list (list float);
  m_h_rr : list (list float);
  m_hh_rr : list (list float);
  m_rhs_r : list (list float);
  m_s_qr : list (list float);
  m_h_qr : list (list float);
  m_h_rq : list (list float);
  m_hh_qr : list (list float);
  m_s_pr : list (list float);
  m_h_pr : list (list float);
  m_h_rp : list (list float);
  m_working_set : list nat;
  m_q_solutions : Util.intmap;
  m_errors : list float;
  m_exclude_r_from_redundancy_test : bool;
  m_orthogonalise_Q : bool;
  m_nullify_solution_before_update : bool;
  (* class Optimize *)
  m_algorithm : string;
  m_minimize : bool;
  m_strong_Wolfe : bool;
  m_Wolfe_1 : float;
  m_Wolfe_2 : float;
  m_linesearch_tolerance : float;
  m_linesearch_grow_factor : float;
  m_linesearch_steplength : float;
  m_best_r : option T;
  m_best_v : option T;
  m_best_f : float
}.

Definition eta_Solver (s : Solver) : Solver :=
  mkSolver (m_variant s) (m_thresh s) (m_linear s) (m_hermitian s) (m_roots s)
    (m_rspt s) (m_subspaceMatrixResRes s) (m_residual_eigen s) (m_residual_rhs s)
    (m_rhs s) (m_updateShift s) (m_interpolation s) (m_subspaceMatrix s)
    (m_subspaceOverlap s) (m_subspaceRHS s) (m_subspaceEigenvectors s)
    (m_subspaceEigenvalues s) (m_values s) (m_iterations s)
    (m_singularity_threshold s) (m_augmented_hessian s) (m_svdThreshold s)
    (m_maxQ s) (m_pspace s) (m_qspace s) (m_last_d s) (m_last_hd s)
    (m_current_r s) (m_current_v s) (m_s_rr s) (m_h_rr s) (m_hh_rr s) (m_rhs_r s)
    (m_s_qr s) (m_h_qr s) (m_h_rq s) (m_hh_qr s) (m_s_pr s) (m_h_pr s) (m_h_rp s)
    (m_working_set s) (m_q_solutions s) (m_errors s)
    (m_exclude_r_from_redundancy_test s) (m_orthogonalise_Q s)
    (m_nullify_solution_before_update s) (m_algorithm s) (m_minimize s)
    (m_strong_Wolfe s) (m_Wolfe_1 s) (m_Wolfe_2 s) (m_linesearch_tolerance s)
    (m_linesearch_grow_factor s) (m_linesearch_steplength s) (m_best_r s)
    (m_best_v s) (m_best_f s).

(** Assignment to one data member: the record rebuilt with that field
    replaced. *)
Ltac assign_field proj :=
  let e := eval cbv delta [eta_Solver] in eta_Solver in
  match eval pattern proj in e with
  | ?ctx _ => let r := eval cbv beta in (fun v s => ctx (fun _ => v) s) in exact r
  end.

Definition set_thresh : float -> Solver -> Solver := ltac:(assign_field m_thresh).
Definition set_linear : bool -> Solver -> Solver := ltac:(assign_field m_linear).
Definition set_hermitian : bool -> Solver -> Solver := ltac:(assign_field m_hermitian).
Definition set_roots : nat -> Solver -> Solver := ltac:(assign_field m_roots).
Definition set_rspt : bool -> Solver -> Solver := ltac:(assign_field m_rspt).
Definition set_updateShift : list float -> Solver -> Solver :=
  ltac:(assign_field m_updateShift).
Definition set_interpolation : Mat.real -> Solver -> Solver :=
  ltac:(assign_field m_interpolation).
Definition set_subspaceMatrix : Mat.real -> Solver -> Solver :=
  ltac:(assign_field m_subspaceMatrix).
Definition set_subspaceOverlap : Mat.real -> Solver -> Solver :=
  ltac:(assign_field m_subspaceOverlap).
Definition set_subspaceRHS : Mat.real -> Solver -> Solver :=
  ltac:(assign_field m_subspaceRHS).
Definition set_subspaceEigenvectors : Mat.cplx -> Solver -> Solver :=
  ltac:(assign_field m_subspaceEigenvectors).
Definition set_subspaceEigenvalues : list Num.complex -> Solver -> Solver :=
  ltac:(assign_field m_subspaceEigenvalues).
Definition set_values : list float -> Solver -> Solver := ltac:(assign_field m_values).
Definition set_iterations : nat -> Solver -> Solver := ltac:(assign_field m_iterations).
Definition set_maxQ : nat -> Solver -> Solver := ltac:(assign_field m_maxQ).
Definition set_qspace : QSpace.t T -> Solver -> Solver := ltac:(assign_field m_qspace).
Definition set_last_d : list T -> Solver -> Solver := ltac:(assign_field m_last_d).
Definition set_last_hd : list T -> Solver -> Solver := ltac:(assign_field m_last_hd).
Definition set_current_r : list T -> Solver -> Solver := ltac:(assign_field m_current_r).
Definition set_current_v : list T -> Solver -> Solver := ltac:(assign_field m_current_v).
Definition set_s_rr : list (list float) -> Solver -> Solver := ltac:(assign_field m_s_rr).
Definition set_h_rr : list (list float) -> Solver -> Solver := ltac:(assign_field m_h_rr).
Definition set_hh_rr : list (list float) -> Solver -> Solver := ltac:(assign_field m_hh_rr).
Definition set_rhs_r : list (list float) -> Solver -> Solver := ltac:(assign_field m_rhs_r).
Definition set_s_qr : list (list float) -> Solver -> Solver := ltac:(assign_field m_s_qr).
Definition set_h_qr : list (list float) -> Solver -> Solver := ltac:(assign_field m_h_qr).
Definition set_h_rq : list (list float) -> Solver -> Solver := ltac:(assign_field m_h_rq).
Definition set_hh_qr : list (list float) -> Solver -> Solver := ltac:(assign_field m_hh_qr).
Definition set_s_pr : list (list float) -> Solver -> Solver := ltac:(assign_field m_s_pr).
Definition set_h_pr : list (list float) -> Solver -> Solver := ltac:(assign_field m_h_pr).
Definition set_h_rp : list (list float) -> Solver -> Solver := ltac:(assign_field m_h_rp).
Definition set_working_set : list nat -> Solver -> Solver :=
  ltac:(assign_field m_working_set).
Definition set_q_solutions : Util.intmap -> Solver -> Solver :=
  ltac:(assign_field m_q_solutions).
Definition set_errors : list float -> Solver -> Solver := ltac:(assign_field m_errors).
Definition set_nullify_solution_before_update : bool -> Solver -> Solver :=
  ltac:(assign_field m_nullify_solution_before_update).
Definition set_strong_Wolfe : bool -> Solver -> Solver :=
  ltac:(assign_field m_strong_Wolfe).
Definition set_Wolfe_1 : float -> Solver -> Solver := ltac:(assign_field m_Wolfe_1).
Definition set_Wolfe_2 : float -> Solver -> Solver := ltac:(assign_field m_Wolfe_2).
Definition set_linesearch_tolerance : float -> Solver -> Solver :=
  ltac:(assign_field m_linesearch_tolerance).
Definition set_linesearch_steplength : float -> Solver -> Solver :=
  ltac:(assign_field m_linesearch_steplength).
Definition set_best_r : option T -> Solver -> Solver := ltac:(assign_field m_best_r).
Definition set_best_v : option T -> Solver -> Solver := ltac:(assign_field m_best_v).
Definition set_best_f : float -> Solver -> Solver := ltac:(assign_field m_best_f).

(** *** Constructors *)

(** [IterativeSolver::IterativeSolver]: the member initialisers, with the
    members that a derived class sets passed in.  [m_maxQ] is
    [std::max(m_roots, size_t(16))] evaluated when [m_roots] is still 0. *)
Definition construct (v : variant) (linear residual_eigen residual_rhs resres : bool)
           (roots : nat) (singularity_threshold augmented_hessian : float)
           (exclude_r orthogonalise_Q : bool) (rhs : list T) : Solver :=
  {| m_variant := v;
     m_thresh := 1e-8;
     m_linear := linear;
     m_hermitian := false;
     m_roots := roots;
     m_rspt := false;
     m_subspaceMatrixResRes := resres;
     m_residual_eigen := residual_eigen;
     m_residual_rhs := residual_rhs;
     m_rhs := rhs;
     m_updateShift := [];
     m_interpolation := Mat.empty;
     m_subspaceMatrix := Mat.empty;
     m_subspaceOverlap := Mat.empty;
     m_subspaceRHS := Mat.empty;
     m_subspaceEigenvectors := Mat.empty;
     m_subspaceEigenvalues := [];
     m_values := [];
     m_iterations := 0;
     m_singularity_threshold := singularity_threshold;
     m_augmented_hessian := augmented_hessian;
     m_svdThreshold := 1e-15;
     m_maxQ := Nat.max 0 16;
     m_pspace := [];
     m_qspace := QSpace.empty;
     m_last_d := [];
     m_last_hd := [];
     m_current_r := [];
     m_current_v := [];
     m_s_rr := [];
     m_h_rr := [];
     m_hh_rr := [];
     m_rhs_r := [];
     m_s_qr := [];
     m_h_qr := [];
     m_h_rq := [];
     m_hh_qr := [];
     m_s_pr := [];
     m_h_pr := [];
     m_h_rp := [];
     m_working_set := [];
     m_q_solutions := [];
     m_errors := [];
     m_exclude_r_from_redundancy_test := exclude_r;
     m_orthogonalise_Q := orthogonalise_Q;
     m_nullify_solution_before_update := false;
     m_algorithm := "L-BFGS";
     m_minimize := true;
     m_strong_Wolfe := true;
     m_Wolfe_1 := 0.0001;
     m_Wolfe_2 := 0.9;
     m_linesearch_tolerance := 0.2;
     m_linesearch_grow_factor := 3;
     m_linesearch_steplength := 0;
     m_best_r := None;
     m_best_v := None;
     m_best_f := 0 |}.

(** [LinearEigensystem::LinearEigensystem()]. *)
Definition new_LinearEigensystem : Solver :=
  construct LinearEigensystem true true false false 0 1e-5 0 false true [].

(** [LinearEquations::LinearEquations(constVectorRefSet rhs, augmented_hessian)]. *)
Definition new_LinearEquations (rhs : list T) (augmented_hessian : float) : Solver :=
  construct LinearEquations true true true false 0 1e-5 augmented_hessian false true rhs.

(** [Optimize::Optimize(algorithm, minimize)] with its default arguments. *)
Definition new_Optimize : Solver :=
  construct Optimize false false false false 1 0 0 true false [].

(** [DIIS::DIIS()], in [DIISmode]. *)
Definition new_DIIS : Solver :=
  construct DIIS false false false true 1 1e-15 0 true false [].

(** Agreement of two solver objects on the members that only [addVector] and
    [buildSubspace] write. *)
Definition same_bookkeeping (s s' : Solver) : Prop :=
  m_qspace s' = m_qspace s /\ m_q_solutions s' = m_q_solutions s
  /\ m_maxQ s' = m_maxQ s /\ m_pspace s' = m_pspace s
  /\ m_roots s' = m_roots s /\ m_linear s' = m_linear s
  /\ m_thresh s' = m_thresh s /\ m_errors s' = m_errors s
  /\ m_working_set s' = m_working_set s.

End SolverState.
Arguments Solver : clear implicits.

(** ** Sorting by selection, as [diagonalizeSubspaceMatrix] does

    [map] lists the positions already placed.  Each round takes the first
    position not yet in [map], replaces it by every later unplaced position
    whose key is smaller, and appends the result to [map]. *)

Section SelectionSort.
Context {A : Type} (ltb : A -> A -> bool) (key : nat -> A).

Definition placed (l : nat) (map : list nat) : bool := existsb (Nat.eqb l) map.

(** [for (ll = 0; std::count(map.begin(), map.end(), ll) != 0; ll++);] *)
Definition first_unplaced (map : list nat) : nat :=
  match find (fun ll => negb (placed ll map)) (seq 0 (S (length map))) with
  | Some ll => ll
  | None => 0
  end.

Definition select_next (n : nat) (map : list nat) : nat :=
  fold_left (fun ll l => if negb (placed l map) && ltb (key l) (key ll) then l else ll)
            (seq 0 n) (first_unplaced map).

Fixpoint sort_rounds (n rounds : nat) (map : list nat) : list nat :=
  match rounds with
  | O => map
  | S r => sort_rounds n r (map ++ [select_next n map])
  end.

Definition sort_map (n : nat) : list nat := sort_rounds n n [].

(** "[b] does not come before [a]". *)
Definition not_after (a b : nat) : Prop := ltb (key b) (key a) = false.

(** What holds of the map after every round. *)
Definition sort_invariant (n : nat) (map : list nat) : Prop :=
  NoDup map /\ (forall l, In l map -> l < n) /\ StronglySorted not_after map /\
  (forall a l, In a map -> l < n -> placed l map = false -> not_after a l).

End SelectionSort.

(** ** The engine: [IterativeSolver<T>] *)

(** The block of the subspace X = P + Q + R an index falls in, with its
    position inside the block (offsets oP = 0, oQ = nP, oR = nP + nQ). *)
Inductive block_index : Type := inP (i : nat) | inQ (a : nat) | inR (m : nat).

Definition locate (nP nQ i : nat) : block_index :=
  if (i <? nP)%nat then inP i
  else if (i <? nP + nQ)%nat then inQ (i - nP)
  else inR (i - nP - nQ).

Section Engine.
Context {T : Type} {ops : VectorOps T}.
Variable K : Platform.

Local Notation "l [[ i ]]" := (nth i l 0%float) (at level 1, format "l [[ i ]]").
Local Notation "l [[ i , j ]]" := (nth j (nth i l []) 0%float)
  (at level 1, format "l [[ i ,  j ]]").

(** [propose_singularity_deletion(n, ndim, m, candidates, threshold)]; the
    return value -1 is [None]. *)
Definition propose_singularity_deletion (n ndim : nat) (m : list float)
           (candidates : list nat) (threshold : float) : option nat :=
  let singularTester_ := Mat.Map m ndim ndim in
  let singularTester := Mat.block 0%float singularTester_ 0 0 n n in
  let svd := JacobiSVD K singularTester in
  let sv := singularValues svd in
  let svv := map (fun k => sv[[k]]) (seq 0 n) in
  let most_singular := Util.min_element svv in
  if Num.gt svv[[most_singular]] threshold then None
  else find (fun k => Num.gt (Num.fabs (Mat.rcoeff (matrixV svd) k most_singular)) 1e-3%float)
            candidates.

(** The quantities [propose_singularity_deletion] looks at, by name. *)
Definition tested_svd (n ndim : nat) (m : list float) : SVD :=
  JacobiSVD K (Mat.block 0%float (Mat.Map m ndim ndim) 0 0 n n).

Definition tested_values (n ndim : nat) (m : list float) : list float :=
  map (fun k => nth k (singularValues (tested_svd n ndim m)) 0%float) (seq 0 n).

Definition most_singular (n ndim : nat) (m : list float) : nat :=
  Util.min_element (tested_values n ndim m).

Definition smallest_singular_value (n ndim : nat) (m : list float) : float :=
  nth (most_singular n ndim m) (tested_values n ndim m) 0%float.

(** The magnitude of the coefficient of X-space index [k] in the right
    singular vector of the smallest singular value. *)
Definition coefficient (n ndim : nat) (m : list float) (k : nat) : float :=
  Num.fabs (Mat.rcoeff (matrixV (tested_svd n ndim m)) k (most_singular n ndim m)).

Definition q_entry_field (f : QSpace.entry T -> list float) (s : Solver T) (a i : nat) : float :=
  match nth_error (QSpace.entries (m_qspace s)) a with
  | Some e => (f e)[[i]]
  | None => 0%float
  end.

(** The first part of [buildSubspace]: the subspace matrix, overlap and
    right-hand side are resized and filled block by block.  No statement of the
    function writes the P-P block. *)
Definition assemble (s : Solver T) : Solver T :=
  let nP := length (m_pspace s) in
  let nQ := QSpace.size (m_qspace s) in
  let nR := length (m_s_rr s) in
  let nX := nP + nQ + nR in
  let H0 := Mat.conservativeResize 0%float (m_subspaceMatrix s) nX nX in
  let S0 := Mat.conservativeResize 0%float (m_subspaceOverlap s) nX nX in
  let B0 := Mat.resize 0%float (m_subspaceRHS s) nX (length (m_rhs s)) in
  let H := Mat.build nX nX (fun i j =>
    match locate nP nQ i, locate nP nQ j with
    | inQ b, inQ a => QSpace.action2 (m_qspace s) b a
    | inP p, inQ a => q_entry_field QSpace.action_pspace s a p
    | inQ a, inP p => q_entry_field QSpace.action_pspace s a p
    | inR m, inQ a => (m_h_rq s)[[a, m]]
    | inQ a, inR m => (m_h_qr s)[[a, m]]
    | inR m, inP p => (m_h_rp s)[[p, m]]
    | inP p, inR m => (m_h_pr s)[[p, m]]
    | inR m, inR n => (m_h_rr s)[[m, n]]
    | inP _, inP _ => Mat.rcoeff H0 i j
    end) in
  let S := Mat.build nX nX (fun i j =>
    match locate nP nQ i, locate nP nQ j with
    | inQ b, inQ a => QSpace.metric (m_qspace s) b a
    | inP p, inQ a => q_entry_field QSpace.metric_pspace s a p
    | inQ a, inP p => q_entry_field QSpace.metric_pspace s a p
    | inR m, inQ a => (m_s_qr s)[[a, m]]
    | inQ a, inR m => (m_s_qr s)[[a, m]]
    | inR m, inP p => (m_s_pr s)[[p, m]]
    | inP p, inR m => (m_s_pr s)[[p, m]]
    | inR m, inR n => (m_s_rr s)[[m, n]]
    | inP _, inP _ => Mat.rcoeff S0 i j
    end) in
  let B := Mat.build nX (length (m_rhs s)) (fun i r =>
    match locate nP nQ i with
    | inQ a => q_entry_field QSpace.rhs s a r
    | inR n => (m_rhs_r s)[[n, r]]
    | inP _ => Mat.rcoeff B0 i r
    end) in
  let S := if m_subspaceMatrixResRes s then H else S in
  set_subspaceRHS B (set_subspaceOverlap S (set_subspaceMatrix H s)).

(** [solutions_q]: the map from a current Q index to the root whose converged
    solution that Q vector is. *)
Definition solutions_q (s : Solver T) : Util.intmap :=
  let keys := QSpace.keys (m_qspace s) in
  fold_left (fun acc x =>
               fold_left (fun acc k =>
                            if (nth k keys 0 =? snd x)
                            then Util.map_assign k (fst x) acc else acc)
                         (seq 0 (length keys)) acc)
            (m_q_solutions s) [].

(** [candidates]: the X-space indices of the Q vectors that are not a
    converged solution. *)
Definition candidates (s : Solver T) : list nat :=
  let nP := length (m_pspace s) in
  let nQ := QSpace.size (m_qspace s) in
  let sq := solutions_q s in
  map (fun a => nP + a)
      (filter (fun a => (Util.map_count a sq =? 0)) (seq 0 nQ)).

(** The threshold handed to [propose_singularity_deletion]. *)
Definition deletion_threshold (s : Solver T) : float :=
  if (m_maxQ s <? QSpace.size (m_qspace s)) then 1e6%float else m_singularity_threshold s.

(** [del]: the proposal made on the assembled matrices. *)
Definition proposed_deletion (s : Solver T) : option nat :=
  let nP := length (m_pspace s) in
  let nQ := QSpace.size (m_qspace s) in
  let nR := length (m_s_rr s) in
  let nX := nP + nQ + nR in
  let singularTester := if m_residual_eigen s then m_subspaceOverlap s else m_subspaceMatrix s in
  propose_singularity_deletion
    (if m_exclude_r_from_redundancy_test s then nX - nR else nX) nX
    (Mat.raw singularTester) (candidates s) (deletion_threshold s).

(** [m[a][k] = m[a + 1][k]] for [k < nR] and [a] from [first] to [nQ - 2]. *)
Definition shift_rows (first nQ nR : nat) (m : list (list float)) : list (list float) :=
  map (fun a =>
         if ((first <=? a) && (S a <? nQ))
         then firstn nR (nth (S a) m []) ++ skipn nR (nth a m [])
         else nth a m [])
      (seq 0 (length m)).

(** The branch [del >= 0] up to the recursive call. *)
Definition evict (s : Solver T) (del : nat) : Solver T :=
  let nP := length (m_pspace s) in
  let nQ := QSpace.size (m_qspace s) in
  let nR := length (m_s_rr s) in
  let a := (del - nP) in
  set_hh_qr (shift_rows a nQ nR (m_hh_qr s))
    (set_s_qr (shift_rows a nQ nR (m_s_qr s))
       (set_h_qr (shift_rows a nQ nR (m_h_qr s))
          (set_h_rq (shift_rows a nQ nR (m_h_rq s))
             (set_errors (repeat 1e20%float (m_roots s))
                (set_qspace (QSpace.remove (m_qspace s) a) s))))).

(** [buildSubspace()].  It calls itself after every eviction; [fuel] bounds the
    depth of that recursion, and the number of Q vectors is enough fuel. *)
Fixpoint buildSubspace_rec (fuel : nat) (s : Solver T) : Solver T :=
  let s1 := assemble s in
  if (0 <? QSpace.size (m_qspace s1)) then
    match proposed_deletion s1, fuel with
    | Some del, S fuel' => buildSubspace_rec fuel' (evict s1 del)
    | _, _ => s1
    end
  else s1.

Definition buildSubspace (s : Solver T) : Solver T :=
  buildSubspace_rec (QSpace.size (m_qspace s)) s.

(** *** [diagonalizeSubspaceMatrix] *)

(** [a.dot(b)] of Eigen on complex vectors: the first argument is conjugated. *)
Definition cdot (a b : list Num.complex) : Num.complex :=
  Mat.csum (map (fun ab => Num.cmul (Num.conj (fst ab)) (snd ab)) (combine a b)).

(** [S * v] and [v * S] for a real matrix [S], a complex column and a complex row. *)
Definition mat_vec (S : Mat.real) (v : list Num.complex) : list Num.complex :=
  map (fun i => Mat.csum (map (fun j => Num.cscale (Mat.rcoeff S i j) (nth j v Num.c0))
                              (seq 0 (Mat.cols S))))
      (seq 0 (Mat.rows S)).
Definition vec_mat (v : list Num.complex) (S : Mat.real) : list Num.complex :=
  map (fun j => Mat.csum (map (fun i => Num.cscale (Mat.rcoeff S i j) (nth i v Num.c0))
                              (seq 0 (Mat.rows S))))
      (seq 0 (Mat.cols S)).

(** The overlap handed to the SVD: diagonal entries within 1e-15 of one are set
    to one. *)
Definition cleaned_overlap (s : Solver T) : Mat.real :=
  let kept := Mat.rows (m_subspaceMatrix s) in
  let S := Mat.block 0%float (m_subspaceOverlap s) 0 0 kept kept in
  Mat.build kept kept (fun i j =>
    if (i =? j) && Num.lt (Num.fabs (Mat.rcoeff S i i - 1)%float) 1e-15%float
    then 1%float else Mat.rcoeff S i j).

Record reduced_eigensystem : Type := mkReduced {
  red_rank : nat;                       (* svd.rank() = Hbar.cols() *)
  red_backtransform : Mat.real;         (* V.leftCols(rank) * svmh.asDiagonal() *)
  red_eigenvalues : list Num.complex;   (* s.eigenvalues() *)
  red_eigenvectors : Mat.cplx           (* s.eigenvectors() *)
}.

(** From the SVD of the overlap to the eigendecomposition of [Hbar]. *)
Definition reduce (s : Solver T) : reduced_eigensystem :=
  let kept := Mat.rows (m_subspaceMatrix s) in
  let H := Mat.block 0%float (m_subspaceMatrix s) 0 0 kept kept in
  let svd := JacobiSVD K (cleaned_overlap s) in
  let rank := svd_rank K (m_svdThreshold s) svd in
  let svmh := map (fun x => (1 / Num.sqrt x)%float) (firstn rank (singularValues svd)) in
  let Ur := Mat.leftCols 0%float (matrixU svd) rank in
  let Vr := Mat.leftCols 0%float (matrixV svd) rank in
  let D := Mat.diagonal svmh in
  let Hbar := Mat.mul (Mat.mul (Mat.mul (Mat.mul D (Mat.transpose 0%float Ur)) H) Vr) D in
  let e := EigenSolver K Hbar in
  mkReduced rank (Mat.mul Vr D) (fst e) (snd e).

(** The test that decides between real and complex eigenvectors. *)
Definition eigen_is_real (r : reduced_eigensystem) : bool :=
  Num.lt (Mat.vnorm (map Num.im (red_eigenvalues r))) 1e-10%float
  && Num.lt (Mat.norm (Mat.imag_part (red_eigenvectors r))) 1e-10%float.

(** The eigenvectors in the original subspace basis, before sorting. *)
Definition unsorted_eigenvectors (r : reduced_eigensystem) : result Mat.cplx :=
  if eigen_is_real r then
    Ok (Mat.to_cplx (Mat.mul (red_backtransform r) (Mat.real_part (red_eigenvectors r))))
  else if INTEL_COMPILER K then
    Throw (runtime_error
             "Intel compiler does not support working with complex eigen3 entities properly")
  else
    Ok (Mat.mul_rc (red_backtransform r) (red_eigenvectors r)).

(** The block marked [// sort]. *)
Definition eigen_sort_map (n : nat) (eigval : list Num.complex) : list nat :=
  sort_map Num.lt (fun l => Num.re (nth l eigval Num.c0)) n.

Definition sorted_eigenvalues (n : nat) (eigval : list Num.complex) : list Num.complex :=
  fold_left (fun ev kl => Util.update_nth (fst kl) (nth (snd kl) eigval Num.c0) ev)
            (combine (seq 0 n) (eigen_sort_map n eigval)) eigval.

Definition sorted_eigenvectors (n : nat) (eigval : list Num.complex) (eigvec : Mat.cplx)
  : Mat.cplx :=
  fold_left (fun ev kl => Mat.set_col Num.c0 ev (fst kl) (Mat.col Num.c0 eigvec (snd kl)))
            (combine (seq 0 n) (eigen_sort_map n eigval)) eigvec.

(** One pass of the body of the normalisation loop over column [k]. *)
Definition normalise_column (s : Solver T) (eigval : list Num.complex)
           (st : Mat.cplx * list (list Num.complex)) (k : nat)
  : Mat.cplx * list (list Num.complex) :=
  let '(V, ovlTimesVec) := st in
  let c := Mat.col Num.c0 V k in
  let c := if Num.lt (Num.cabs (nth k eigval Num.c0)) 1e-12%float
           then map (fun z => Num.mkC (Num.re z + 0.3256897 * Num.im z)%float 0%float) c
           else c in
  let c := if m_hermitian s
           then fold_left (fun c l =>
                  let d := cdot (nth l ovlTimesVec []) c in
                  map (fun zc => Num.csub (snd zc) (Num.cmul (fst zc) d))
                      (combine (Mat.col Num.c0 V l) c))
                (seq 0 k) c
           else c in
  let ovl := cdot (map Num.conj c) (mat_vec (m_subspaceOverlap s) c) in
  let c := map (fun z => Num.cdiv_real z (Num.sqrt (Num.re ovl))) c in
  let ovlTimesVec := Util.update_nth k (vec_mat (map Num.conj c) (m_subspaceOverlap s))
                                     ovlTimesVec in
  let lmax := fold_left (fun lmax l =>
                if Num.gt (Num.cabs (nth l c Num.c0)) (Num.cabs (nth lmax c Num.c0))
                then l else lmax) (seq 0 (Mat.rows V)) 0 in
  let c := if Num.lt (Num.re (nth lmax c Num.c0)) 0%float then map Num.cneg c else c in
  (Mat.set_col Num.c0 V k c, ovlTimesVec).

(** The three passes over all columns. *)
Definition orthonormalise (s : Solver T) (eigval : list Num.complex) (V : Mat.cplx)
  : Mat.cplx :=
  let ovlTimesVec := repeat (repeat Num.c0 (Mat.rows V)) (Mat.cols V) in
  let pass st := fold_left (normalise_column s eigval) (seq 0 (Mat.cols V)) st in
  fst (pass (pass (pass (V, ovlTimesVec)))).

Definition diagonalizeSubspaceMatrix (s : Solver T) : result (Solver T) :=
  let r := reduce s in
  eigvec <- unsorted_eigenvectors r ;;
  let eigval := red_eigenvalues r in
  let n := red_rank r in
  let ev := sorted_eigenvalues n eigval in
  let V := sorted_eigenvectors n eigval eigvec in
  Ok (set_subspaceEigenvectors (orthonormalise s ev V) (set_subspaceEigenvalues ev s)).

(** *** [LinearEigensystem::solveReducedProblem] *)

Definition eigen_updateShift (s : Solver T) : list float :=
  map (fun root =>
         let ev := if root <? Mat.rows (m_subspaceEigenvectors s)
                   then Num.re (nth root (m_subspaceEigenvalues s) Num.c0)
                   else 0%float in
         (- (1 + Num.epsilon) * ev)%float)
      (seq 0 (m_roots s)).

Definition LinearEigensystem_solveReducedProblem (s : Solver T) : result (bool * Solver T) :=
  if m_rspt s then Throw (logic_error "RSPT not yet implemented")
  else
    s <- diagonalizeSubspaceMatrix s ;;
    let V := m_subspaceEigenvectors s in
    let s := set_interpolation
               (Mat.real_part
                  (Mat.block Num.c0 V 0 0 (Mat.rows V) (Nat.min (m_roots s) (Mat.rows V)))) s in
    Ok (true, set_updateShift (eigen_updateShift s) s).

(** *** [LinearEquations::solveReducedProblem] *)

(** The body of the loop over right-hand sides for a positive
    [m_augmented_hessian]. *)
Definition augmented_hessian_root (nX : nat) (s : Solver T) (root : nat) : Solver T :=
  let aug := m_augmented_hessian s in
  let H0 := Mat.conservativeResize 0%float (m_subspaceMatrix s) (nX + 1) (nX + 1) in
  let S0 := Mat.conservativeResize 0%float (m_subspaceOverlap s) (nX + 1) (nX + 1) in
  let H := Mat.build (nX + 1) (nX + 1) (fun i j =>
    if (i =? nX) && (j =? nX) then 0%float
    else if (j =? nX) then (- aug * Mat.rcoeff (m_subspaceRHS s) i root)%float
    else if (i =? nX) then (- aug * Mat.rcoeff (m_subspaceRHS s) j root)%float
    else Mat.rcoeff H0 i j) in
  let S := Mat.build (nX + 1) (nX + 1) (fun i j =>
    if (i =? nX) && (j =? nX) then 1%float
    else if (j =? nX) || (i =? nX) then 0%float
    else Mat.rcoeff S0 i j) in
  let e := GeneralizedEigenSolver K H S in
  let eval := fst e in
  let evec := snd e in
  let imax := fold_left (fun imax i =>
                if Num.lt (Num.re (nth i eval Num.c0)) (Num.re (nth imax eval Num.c0))
                then i else imax) (seq 0 (nX + 1)) 0 in
  let denominator := (aug * Num.re (Mat.ccoeff evec nX imax))%float in
  let column := map (fun i => (Num.re (Mat.ccoeff evec i imax) / denominator)%float)
                    (seq 0 nX) in
  let evs := firstn (root + 1) (m_subspaceEigenvalues s)
             ++ repeat Num.c0 (root + 1 - length (m_subspaceEigenvalues s)) in
  set_interpolation (Mat.set_col 0%float (m_interpolation s) root column)
    (set_subspaceEigenvalues (Util.update_nth root (nth imax eval Num.c0) evs)
       (set_subspaceOverlap S (set_subspaceMatrix H s))).

Definition LinearEquations_solveReducedProblem (s : Solver T) : result (bool * Solver T) :=
  let nP := length (m_pspace s) in
  let nQ := QSpace.size (m_qspace s) in
  let nR := length (m_s_rr s) in
  let nX := nP + nQ + nR in
  let s := set_interpolation
             (Mat.conservativeResize 0%float (m_interpolation s) nX (length (m_rhs s))) s in
  let s := fold_left (fun s root =>
             if Num.gt (m_augmented_hessian s) 0%float
             then augmented_hessian_root nX s root
             else set_interpolation
                    (householderQr_solve K (m_subspaceMatrix s) (m_subspaceRHS s)) s)
           (seq 0 (length (m_rhs s))) s in
  Ok (true,
      set_subspaceOverlap (Mat.conservativeResize 0%float (m_subspaceOverlap s) nX nX)
        (set_subspaceMatrix (Mat.conservativeResize 0%float (m_subspaceMatrix s) nX nX) s)).

(** *** [Optimize] *)

(** [interpolatedMinimum(x, f, x0, x1, f0, f1, g0, g1)]: [Some (x, f)] when it
    returns true. *)
Definition interpolatedMinimum (x0 x1 f0 f1 g0 g1 : float) : option (float * float) :=
  (if Num.lt (Num.fabs (2 * f1 - g1 - 2 * f0 - g0)) 1e-10 then
     let c2 := (g1 - g0) / 2 in
     if Num.lt c2 0 then None
     else
       let x := x0 + (-0.5 * g0 / c2) * (x1 - x0) in
       let f := f0 + g0 * x + c2 * x * x in
       Some (x, f)
   else
     let discriminant :=
       Num.pow2 (3 * f0 - 3 * f1 + g0) + (6 * f0 - 6 * f1 + g0) * g1 + Num.pow2 g1 in
     if Num.lt discriminant 0 then None
     else
       let alpham :=
         if Num.eq (2 * f0 - 2 * f1 + g0 + g1) 0
         then g0 / (2 * f1 - 2 * f0 - 2 * g1)
         else (3 * f0 - 3 * f1 + 2 * g0 + g1 - Num.sqrt discriminant)
              / (3 * (2 * f0 - 2 * f1 + g0 + g1)) in
       let alphap :=
         if Num.eq (2 * f0 - 2 * f1 + g0 + g1) 0
         then g0 / (2 * f1 - 2 * f0 - 2 * g1)
         else (3 * f0 - 3 * f1 + 2 * g0 + g1 + Num.sqrt discriminant)
              / (3 * (2 * f0 - 2 * f1 + g0 + g1)) in
       let fm := f0 + alpham * (g0 + alpham * (-3 * f0 + 3 * f1 - 2 * g0 - g1
                                               + alpham * (2 * f0 - 2 * f1 + g0 + g1))) in
       let fp := f0 + alphap * (g0 + alphap * (-3 * f0 + 3 * f1 - 2 * g0 - g1
                                               + alphap * (2 * f0 - 2 * f1 + g0 + g1))) in
       let f := Num.min fm fp in
       let x := x0 + (if Num.lt fm fp then alpham else alphap) * (x1 - x0) in
       Some (x, f))%float.

(** The quantities of the line-search test, read off the solver. *)
Record linesearch_point : Type := mkPoint {
  ls_step : float; ls_f0 : float; ls_f1 : float; ls_g0 : float; ls_g1 : float
}.

Definition last_float (l : list float) : float := last l 0%float.

Definition linesearch_quantities (s : Solver T) : result linesearch_point :=
  let n := QSpace.size (m_qspace s) in
  match nth_error (QSpace.entries (m_qspace s)) (n - 1), m_best_v s with
  | Some q_last, Some best_v =>
      let step := (1 / QSpace.scale_factor q_last)%float in
      Ok (mkPoint step (m_best_f s) (last_float (m_values s))
                  (step * dot best_v (QSpace.vector q_last))%float
                  (step * (m_h_qr s)[[n - 1, 0]])%float)
  | _, _ => Throw (out_of_range "null pointer or empty Q space")
  end.

Definition Wolfe_1 (s : Solver T) (p : linesearch_point) : bool :=
  Num.le (ls_f1 p) (ls_f0 p + m_Wolfe_1 s * ls_g0 p)%float.

Definition Wolfe_2 (s : Solver T) (p : linesearch_point) : bool :=
  if m_strong_Wolfe s
  then Num.ge (ls_g1 p) (m_Wolfe_2 s * ls_g0 p)%float
  else Num.le (Num.fabs (ls_g1 p)) (m_Wolfe_2 s * Num.fabs (ls_g0 p))%float.

(** What the first half of [Optimize::solveReducedProblem] decides: the jump
    to [accept], or a new line-search step of relative length [alpha]. *)
Inductive linesearch_decision : Type :=
| Accept
| LineSearch (alpha : float).

Definition linesearch_decide (s : Solver T) (p : linesearch_point) : linesearch_decision :=
  if Num.lt (ls_g1 p) (m_thresh s) || (Wolfe_1 s p && Wolfe_2 s p) then Accept
  else
    let im := interpolatedMinimum 0 1 (ls_f0 p) (ls_f1 p) (ls_g0 p) (ls_g1 p) in
    let alpha := match im with Some (x, _) => x | None => 0%float end in
    let interpolated := match im with Some _ => true | None => false end in
    let g0 := ls_g0 p in
    let g1 := ls_g1 p in
    let interpolated :=
      if interpolated
         && ((Num.gt g0 0 && Num.gt g1 0 && Num.gt alpha 0)
             || (Num.lt g0 0 && Num.lt g1 0 && Num.lt alpha 1))
      then false else interpolated in
    if negb interpolated || Num.gt alpha (m_linesearch_grow_factor s)
    then LineSearch (m_linesearch_grow_factor s)
    else if Num.lt (Num.fabs (alpha - 1)%float) (m_linesearch_tolerance s) then Accept
    else LineSearch alpha.

(** [m_interpolation.conservativeResize(n + 1, 1); setZero(); m_interpolation(n, 0) = 1]. *)
Definition unit_interpolation (n : nat) : Mat.real :=
  Mat.build (n + 1) 1 (fun i _ => if i =? n then 1%float else 0%float).

(** The backward pass of the L-BFGS two-loop recursion, [a] running from
    [qsize - 1] down to 0. *)
Definition lbfgs_backward (s : Solver T) (minusAlpha : Mat.real) : Mat.real :=
  let qsize := QSpace.size (m_qspace s) in
  fold_left (fun mA a =>
               let x := (- (m_h_qr s)[[a, 0]])%float in
               let x := fold_left (fun x b =>
                          (x - Mat.rcoeff mA b 0 * QSpace.action2 (m_qspace s) a b)%float)
                        (seq (a + 1) (qsize - (a + 1))) x in
               Mat.set 0%float mA a 0 (x / QSpace.action2 (m_qspace s) a a)%float)
            (rev (seq 0 qsize)) minusAlpha.

Definition set_best_to_current (s : Solver T) : Solver T :=
  set_best_f (last_float (m_values s))
    (set_best_v (hd_error (m_current_v s)) (set_best_r (hd_error (m_current_r s)) s)).

(** The code from the label [accept]. *)
Definition Optimize_accept (s : Solver T) : bool * Solver T :=
  let n := QSpace.size (m_qspace s) in
  let s := set_linesearch_steplength 0%float s in
  let s := set_interpolation (unit_interpolation n) s in
  let s := set_nullify_solution_before_update true s in
  let s := if String.eqb (m_algorithm s) "L-BFGS"
           then set_interpolation (lbfgs_backward s (m_interpolation s)) s else s in
  (true, set_best_to_current s).

(** The code that prepares a new line-search step. *)
Definition Optimize_linesearch (s : Solver T) (p : linesearch_point) (alpha : float)
  : bool * Solver T :=
  let s := set_interpolation (unit_interpolation (QSpace.size (m_qspace s))) s in
  let s := set_linesearch_steplength ((alpha - 1) * ls_step p)%float s in
  let s := if Num.le (ls_f1 p) (ls_f0 p) then set_best_to_current s else s in
  (false, set_nullify_solution_before_update false s).

Definition Optimize_solveReducedProblem (s : Solver T) : result (bool * Solver T) :=
  if 0 <? QSpace.size (m_qspace s) then
    p <- linesearch_quantities s ;;
    match linesearch_decide s p with
    | Accept => Ok (Optimize_accept s)
    | LineSearch alpha => Ok (Optimize_linesearch s p alpha)
    end
  else Ok (Optimize_accept s).

(** *** [DIIS::solveReducedProblem] *)

Definition DIIS_solveReducedProblem (s : Solver T) : result (bool * Solver T) :=
  let H := m_subspaceMatrix s in
  let s := set_updateShift [(- (1 + Num.epsilon) * Mat.rcoeff H 0 0)%float] s in
  if 1 <? m_roots s then Throw (logic_error "DIIS does not handle multiple solutions")
  else
    match Mat.rows H with
    | O => Throw bad_alloc
    | S nDim =>
        let s := set_interpolation (Mat.resize 0%float (m_interpolation s) (nDim + 1) 1) s in
        s <- (if 0 <? nDim then
                let B := Mat.block 0%float H 0 0 nDim nDim in
                let Rhs := Mat.col 0%float (Mat.neg (Mat.block 0%float H 0 nDim nDim 1)) 0 in
                let svd := JacobiSVD K B in
                let Coeffs := firstn nDim (svd_solve K (m_svdThreshold s) svd Rhs) in
                if existsb Num.isnan Coeffs
                then Throw (overflow_error "NaN detected in DIIS submatrix solution")
                else Ok (set_interpolation
                           (Mat.build (nDim + 1) 1 (fun i _ =>
                              if i <? nDim then Coeffs[[i]]
                              else Mat.rcoeff (m_interpolation s) i 0)) s)
              else Ok s) ;;
        Ok (true, set_interpolation (Mat.set 0%float (m_interpolation s) nDim 0 1%float) s)
    end.

(** The virtual call [solveReducedProblem()]. *)
Definition solveReducedProblem (s : Solver T) : result (bool * Solver T) :=
  match m_variant s with
  | LinearEigensystem => LinearEigensystem_solveReducedProblem s
  | LinearEquations => LinearEquations_solveReducedProblem s
  | Optimize => Optimize_solveReducedProblem s
  | DIIS => DIIS_solveReducedProblem s
  end.

(** *** [doInterpolation] *)

(** The caller's vectors, which [addVector] and [doInterpolation] reach through
    [std::reference_wrapper]s and update in place.  The caller passes
    distinct objects. *)
Record caller_vectors : Type := mkCaller {
  parameters : list T;
  action : list T;
  parametersP : list (list float);
  other : list T
}.

(** The accumulation of the P, Q and R contributions for one root. *)
Definition accumulate_root (s : Solver T) (nQ : nat) (actionOnly : bool) (root : nat)
           (st : T * T * list float) : T * T * list float :=
  let '(sol, res, solP) := st in
  let nP := length (m_pspace s) in
  let oQ := nP in
  let oR := oQ + nQ in
  let C l := Mat.rcoeff (m_interpolation s) l root in
  let solP := if 0 <? nP then Util.resize_floats nP solP else solP in
  let '(sol, solP) :=
    if actionOnly then (sol, solP)
    else fold_left (fun acc lp =>
                      (axpyP (fst acc) (C (fst lp)) (snd lp),
                       Util.update_nth (fst lp) (C (fst lp)) (snd acc)))
                   (combine (seq 0 nP) (m_pspace s)) (sol, solP) in
  let '(sol, res) :=
    fold_left (fun acc qe =>
                 (axpy (fst acc) (C (oQ + fst qe)) (QSpace.vector (snd qe)),
                  axpy (snd acc) (C (oQ + fst qe)) (QSpace.action (snd qe))))
              (combine (seq 0 nQ) (QSpace.entries (m_qspace s))) (sol, res) in
  let '(sol, res) :=
    fold_left (fun acc crv =>
                 (axpy (fst acc) (C (oR + fst crv)) (fst (snd crv)),
                  axpy (snd acc) (C (oR + fst crv)) (snd (snd crv))))
              (combine (seq 0 (length (m_current_r s)))
                       (combine (m_current_r s) (m_current_v s))) (sol, res) in
  (sol, res, solP).

(** The renormalisation of the eigen-residual convention. *)
Definition renormalise_root (s : Solver T) (sr : T * T) : result (T * T) :=
  let '(sol, res) := sr in
  if m_residual_eigen s then
    let norm := dot sol sol in
    if Num.eq norm 0%float then Throw (runtime_error "new solution has zero norm")
    else Ok (scal sol (1 / Num.sqrt norm)%float, scal res (1 / Num.sqrt norm)%float)
  else Ok (sol, res).

(** The two closing statements of the loop body: the eigenvalue and the
    right-hand side are taken off the residual. *)
Definition subtract_root (s : Solver T) (actionOnly : bool) (root : nat) (sr : T * T)
  : result (T * T) :=
  let '(sol, res) := sr in
  let res :=
    if negb actionOnly
       && (m_residual_eigen s
           || (m_residual_rhs s && Num.gt (m_augmented_hessian s) 0%float))
    then axpy res (- Num.re (nth root (m_subspaceEigenvalues s) Num.c0))%float sol
    else res in
  if negb actionOnly && m_residual_rhs s then
    match nth_error (m_rhs s) root with
    | Some b => Ok (sol, axpy res (-1)%float b)
    | None => Throw (out_of_range "m_rhs[root]")
    end
  else Ok (sol, res).

(** The body of the loop over the working set, for position [kkk]. *)
Definition interpolate_root (s : Solver T) (nQ : nat) (actionOnly : bool) (root : nat)
           (st : T * T * list float) : result (T * T * list float) :=
  let '(sol, res, solP) := accumulate_root s nQ actionOnly root st in
  sr <- renormalise_root s (sol, res) ;;
  sr <- subtract_root s actionOnly root sr ;;
  Ok (fst sr, snd sr, solP).

(** One turn of the loop over the working set: position [kkk], root [root]. *)
Definition interpolation_step (s : Solver T) (nQ : nat) (actionOnly : bool)
           (acc : result (list T * list T * list (list float))) (kr : nat * nat)
  : result (list T * list T * list (list float)) :=
  '(solution, residual, solutionP) <- acc ;;
  let kkk := fst kr in
  match nth_error solution kkk, nth_error residual kkk with
  | Some sol, Some res =>
      '(sol, res, solP) <-
        interpolate_root s nQ actionOnly (snd kr) (sol, res, nth kkk solutionP []) ;;
      Ok (Util.update_nth kkk sol solution,
          Util.update_nth kkk res residual,
          Util.update_nth kkk solP solutionP)
  | _, _ => Throw (out_of_range "residual[kkk]")
  end.

Definition doInterpolation (s : Solver T) (cv : caller_vectors) (actionOnly : bool)
  : result caller_vectors :=
  let solution := map (fun x => scal x 0%float) (parameters cv) in
  let residual := map (fun x => scal x 0%float) (action cv) in
  let others := map (fun x => scal x 0%float) (other cv) in
  let nP := length (m_pspace s) in
  let nR := length (m_current_r s) in
  let rows := Mat.rows (m_interpolation s) in
  _ <- assert ((nP + nR <=? rows) && (rows - nP - nR <=? QSpace.size (m_qspace s)))
              "nQ <= m_qspace.size()" ;;
  let nQ := rows - nP - nR in
  _ <- assert (length (m_working_set s) <=? length solution)
              "m_working_set.size() <= solution.size()" ;;
  _ <- assert ((nP =? 0) || (length (parametersP cv) =? length residual))
              "nP == 0 || solutionP.size() == residual.size()" ;;
  '(solution, residual, solutionP) <-
    fold_left (interpolation_step s nQ actionOnly)
              (combine (seq 0 (length (m_working_set s))) (m_working_set s))
              (Ok (solution, residual, parametersP cv)) ;;
  Ok (mkCaller solution residual solutionP others).

(** *** [addVector] *)

(** The scaling to roughly unit length of the first loop of [addVector]. *)
Definition prescale (s : Solver T) (pa : T * T) : T * T :=
  if m_residual_eigen s then
    let n := dot (fst pa) (fst pa) in
    if Num.gt (Num.fabs (n - 1)%float) 1e-3%float
    then (scal (fst pa) (1 / Num.sqrt n)%float, scal (snd pa) (1 / Num.sqrt n)%float)
    else pa
  else pa.

(** [l] with its first [n] elements replaced by [front]. *)
Definition overwrite_front {A} (front l : list A) : list A :=
  front ++ skipn (length front) l.

(** The dot products of the working vectors with the Q, P and R spaces. *)
Definition interactions (s : Solver T) (params acts : list T) : Solver T :=
  let resres := m_subspaceMatrixResRes s in
  let es := QSpace.entries (m_qspace s) in
  let s_qr := map (fun e => map (fun p => dot p (QSpace.vector e)) params) es in
  let h_qr := map (fun e => map (fun a => dot a (if resres then QSpace.action e
                                                  else QSpace.vector e)) acts) es in
  let hh_qr := map (fun e => map (fun a => dot a (QSpace.action e)) acts) es in
  let h_rq := if m_hermitian s then h_qr
              else map (fun e => map (fun x => dot x (QSpace.action e))
                                     (if resres then acts else params)) es in
  let s_pr := map (fun p => map (fun x => dotP x p) params) (m_pspace s) in
  let h_pr := map (fun p => map (fun a => dotP a p) acts) (m_pspace s) in
  let pa := combine params acts in
  let rhs_r := map (fun p => map (fun b => dot p b) (m_rhs s)) params in
  let s_rr := map (fun pm => map (fun pn => dot pn pm) params) params in
  let h_rr := map (fun m => map (fun an => dot an (if resres then snd m else fst m)) acts) pa in
  let hh_rr := map (fun am => map (fun an => dot an am) acts) acts in
  set_hh_rr hh_rr (set_h_rr h_rr (set_s_rr s_rr (set_rhs_r rhs_r
    (set_h_rp h_pr (set_h_pr h_pr (set_s_pr s_pr
      (set_h_rq (overwrite_front h_rq (m_h_rq s))
        (set_hh_qr (overwrite_front hh_qr (m_hh_qr s))
          (set_h_qr (overwrite_front h_qr (m_h_qr s))
            (set_s_qr (overwrite_front s_qr (m_s_qr s)) s)))))))))).

(** The state of the loop that retires converged roots. *)
Record retiring : Type := mkRetiring {
  rt_solver : Solver T;       (* m_working_set, m_qspace, m_q_solutions, m_last_d, m_last_hd *)
  rt_parameters : list T;
  rt_action : list T
}.

(** [l[kp - 1] = l[kp]] for [kp] from [k + 1] to [n - 1]. *)
Definition shift_down {A} (k n : nat) (l : list A) : list A :=
  firstn k l ++ skipn (k + 1) (firstn n l) ++ skipn (n - 1) l.

Definition converged (s : Solver T) (root : nat) : bool :=
  m_linear s && Num.lt (m_errors s)[[root]] (m_thresh s).

(** One iteration at position [k] of the working set, where [root] stands. *)
Definition retire_step (st : retiring) (k root : nat) : retiring * nat :=
  let s := rt_solver st in
  let s :=
    if converged s root && (Util.map_count root (m_q_solutions s) =? 0) then
      match nth_error (rt_parameters st) k, nth_error (rt_action st) k with
      | Some p, Some a =>
          let q := QSpace.add_solution (m_qspace s) p a (m_pspace s) (m_rhs s)
                                       (m_subspaceMatrixResRes s) in
          set_q_solutions (Util.map_assign root (last (QSpace.keys q) 0) (m_q_solutions s))
                          (set_qspace q s)
      | _, _ => s
      end
    else s in
  if converged s root then
    let n := length (m_working_set s) in
    (mkRetiring (set_working_set (Util.remove_nth k (m_working_set s)) s)
                (shift_down k n (rt_parameters st))
                (shift_down k n (rt_action st)), k)
  else
    match nth_error (rt_parameters st) k, nth_error (rt_action st) k with
    | Some p, Some a =>
        (mkRetiring (set_last_hd (m_last_hd s ++ [a]) (set_last_d (m_last_d s ++ [p]) s))
                    (rt_parameters st) (rt_action st), S k)
    | _, _ => (mkRetiring s (rt_parameters st) (rt_action st), S k)
    end.

(** The loop: [todo] is the part of the working set from position [k] on. *)
Fixpoint retire_loop (todo : list nat) (k : nat) (st : retiring) : retiring :=
  match todo with
  | [] => st
  | root :: todo' =>
      let '(st', k') := retire_step st k root in
      retire_loop todo' k' st'
  end.

(** The closing block under [m_nullify_solution_before_update]. *)
Definition nullify (s : Solver T) (cv : caller_vectors) : Solver T * caller_vectors :=
  if m_nullify_solution_before_update s then
    let n := length (m_working_set s) in
    (set_last_hd (firstn n (m_current_v s)) (set_last_d (firstn n (m_current_r s)) s),
     mkCaller (overwrite_front (map (fun x => scal x 0%float) (firstn n (parameters cv)))
                               (parameters cv))
              (action cv) (parametersP cv) (other cv))
  else (s, cv).

(** [addVector], up to the calls of [buildSubspace] and [solveReducedProblem]. *)
Definition addVector_enter (s : Solver T) (cv : caller_vectors)
  : result (Solver T * caller_vectors) :=
  let nw := length (m_working_set s) in
  _ <- assert (nw <=? length (parameters cv))
              "parameters.size() >= m_working_set.size()" ;;
  _ <- assert (length (parameters cv) =? length (action cv))
              "parameters.size() == action.size()" ;;
  let s := set_iterations (S (m_iterations s)) s in
  let scaled := map (prescale s)
                    (combine (firstn nw (parameters cv)) (firstn nw (action cv))) in
  let params := overwrite_front (map fst scaled) (parameters cv) in
  let acts := overwrite_front (map snd scaled) (action cv) in
  let s := set_current_v (map snd scaled) (set_current_r (map fst scaled) s) in
  s <- (if 0 <? length (m_last_d s) then
          _ <- assert (length (m_last_d s) =? nw)
                      "m_last_d.size() == m_working_set.size()" ;;
          _ <- assert (length (m_last_hd s) =? nw)
                      "m_last_hd.size() == m_working_set.size()" ;;
          let q := fold_left (fun q x =>
                      let '(pa, dhd) := x in
                      QSpace.add_difference q (fst pa) (snd pa) (fst dhd) (snd dhd)
                                            (m_pspace s) (m_rhs s)
                                            (m_subspaceMatrixResRes s) (m_orthogonalise_Q s))
                    (combine scaled (combine (m_last_d s) (m_last_hd s))) (m_qspace s) in
          Ok (set_last_hd [] (set_last_d [] (set_qspace q s)))
        else Ok s) ;;
  let s := interactions s (map fst scaled) (map snd scaled) in
  Ok (s, mkCaller params acts (parametersP cv) (other cv)).

(** [addVector], from the evaluation of the residuals to the return. *)
Definition addVector_leave (s : Solver T) (cv : caller_vectors)
  : result (nat * Solver T * caller_vectors) :=
  if length (parameters cv) <? m_roots s
  then Throw (runtime_error "Cannot yet work with buffer smaller than number of roots")
  else
    let s := set_errors (Util.resize_floats (m_roots s) (m_errors s)) s in
    let s := set_working_set (seq 0 (m_roots s)) s in
    cv <- (if m_linear s then doInterpolation s cv false else Ok cv) ;;
    let s := set_errors
               (fold_left (fun errs kr =>
                             match nth_error (action cv) (fst kr) with
                             | Some a => Util.update_nth (snd kr) (Num.sqrt (dot a a)) errs
                             | None => errs
                             end)
                          (combine (seq 0 (length (m_working_set s))) (m_working_set s))
                          (m_errors s)) s in
    cv <- doInterpolation s cv true ;;
    let s := set_last_hd [] (set_last_d [] s) in
    let st := retire_loop (m_working_set s) 0
                          (mkRetiring s (parameters cv) (action cv)) in
    let s := rt_solver st in
    _ <- assert (length (m_last_d s) =? length (m_working_set s))
                "m_last_d.size() == m_working_set.size()" ;;
    cv <- doInterpolation s (mkCaller (rt_parameters st) (rt_action st)
                                      (parametersP cv) (other cv)) false ;;
    let '(s, cv) := nullify s cv in
    let s := set_current_v [] (set_current_r [] s) in
    Ok (length (m_working_set s), s, cv).

(** The opening statements of [addVector]: the number of roots defaults to the
    number of parameter vectors, and the first call starts with every root in
    the working set. *)
Definition initialise (s : Solver T) (cv : caller_vectors) : Solver T :=
  let s := if m_roots s <? 1 then set_roots (length (parameters cv)) s else s in
  if (QSpace.size (m_qspace s) =? 0) && (length (m_working_set s) =? 0)
  then set_working_set (seq 0 (length (parameters cv))) s else s.

Definition addVector (s : Solver T) (cv : caller_vectors)
  : result (nat * Solver T * caller_vectors) :=
  let s := initialise s cv in
  if length (m_working_set s) =? 0 then Ok (0, s, cv)
  else
    '(s, cv) <- addVector_enter s cv ;;
    let s := buildSubspace s in
    '(_, s) <- solveReducedProblem s ;;
    addVector_leave s cv.

(** [addValue(parameters, value, action)]. *)
Definition addValue (s : Solver T) (params : T) (value : float) (act : T)
  : result (nat * Solver T * caller_vectors) :=
  addVector (set_values (m_values s ++ [value]) s) (mkCaller [params] [act] [] []).

End Engine.

Arguments caller_vectors : clear implicits.
Arguments retiring : clear implicits.

(** ** A reference platform for diagonal problems

    The values the kernels of Eigen take on diagonal matrices: a diagonal
    matrix whose entries do not increase in magnitude has the magnitudes as
    singular values, with V = 1 and the signs in U, and a diagonal matrix has
    its diagonal as eigenvalues and the unit vectors as eigenvectors.  The
    examples below run the engine on this platform, on inputs whose reduced
    matrices are diagonal. *)

Module DiagonalPlatform.
Local Open Scope float_scope.

Definition diag (m : Mat.real) : list float :=
  map (fun i => Mat.rcoeff m i i) (seq 0 (Mat.rows m)).

Definition JacobiSVD (m : Mat.real) : SVD :=
  mkSVD (map Num.fabs (diag m))
        (Mat.diagonal (map (fun d => if Num.lt d 0 then -1 else 1) (diag m)))
        (Mat.identity (Mat.rows m)).

(** [rank()]: the singular values below [threshold * singularValues(0)] at
    the end of the list are not counted. *)
Fixpoint drop_small (pt : float) (rev_sv : list float) : list float :=
  match rev_sv with
  | [] => []
  | x :: t => if Num.lt x pt then drop_small pt t else rev_sv
  end.

Definition svd_rank (threshold : float) (d : SVD) : nat :=
  match singularValues d with
  | [] => 0%nat
  | s0 :: _ => length (drop_small (s0 * threshold) (rev (singularValues d)))
  end.

Definition svd_solve (threshold : float) (d : SVD) (rhs : list float) : list float :=
  let r := svd_rank threshold d in
  map (fun i => if (i <? r)%nat
                then Mat.rcoeff (matrixU d) i i * nth i rhs 0 / nth i (singularValues d) 0
                else 0)
      (seq 0 (length (singularValues d))).

Definition complex_identity (n : nat) : Mat.cplx :=
  Mat.build n n (fun i j => if (i =? j)%nat then Num.mkC 1 0 else Num.c0).

Definition EigenSolver (m : Mat.real) : list Num.complex * Mat.cplx :=
  (map Num.c_of_real (diag m), complex_identity (Mat.rows m)).

Definition GeneralizedEigenSolver (a b : Mat.real) : list Num.complex * Mat.cplx :=
  (map (fun i => Num.c_of_real (Mat.rcoeff a i i / Mat.rcoeff b i i)) (seq 0 (Mat.rows a)),
   complex_identity (Mat.rows a)).

Definition householderQr_solve (a b : Mat.real) : Mat.real :=
  Mat.build (Mat.rows a) (Mat.cols b) (fun i j => Mat.rcoeff b i j / Mat.rcoeff a i i).

(** The platform, for a build with or without the Intel compiler. *)
Definition platform (intel : bool) : Platform :=
  mkPlatform intel JacobiSVD svd_rank svd_solve EigenSolver GeneralizedEigenSolver
             householderQr_solve.

End DiagonalPlatform.

(** ** Scenarios

    Concrete callers, run on the reference platform with vectors held in
    memory. *)

Module Scenario.
Local Open Scope float_scope.

Definition K : Platform := DiagonalPlatform.platform false.

Definition force {A} (d : A) (r : result A) : A :=
  match r with
  | Ok a => a
  | Throw _ => d
  end.

(** The i-th unit vector of dimension n, scaled by x. *)
Definition axis (n i : nat) (x : float) : DenseVector.t :=
  map (fun j => if (j =? i)%nat then x else 0) (seq 0 n).

(** A caller of the eigensolver for the matrix diag(1, 2, ..., n), with the
    unit vectors as trial vectors and their images as action vectors. *)
Definition eigen_caller (n : nat) : caller_vectors DenseVector.t :=
  mkCaller (map (fun i => axis n i 1) (seq 0 n))
           (map (fun i => axis n i (Num.of_nat (S i))) (seq 0 n)) [] [].

Definition nothing : nat * Solver DenseVector.t * caller_vectors DenseVector.t :=
  (0%nat, new_LinearEigensystem, mkCaller [] [] [] []).

(** The first call of [addVector] for three and for seventeen roots. *)
Definition eigen3 : nat * Solver DenseVector.t * caller_vectors DenseVector.t :=
  Eval vm_compute in force nothing (addVector K new_LinearEigensystem (eigen_caller 3)).

Definition eigen17 : nat * Solver DenseVector.t * caller_vectors DenseVector.t :=
  Eval vm_compute in force nothing (addVector K new_LinearEigensystem (eigen_caller 17)).

(** A caller of [Optimize] at a stationary point: the gradient is zero. *)
Definition stationary : nat * Solver DenseVector.t * caller_vectors DenseVector.t :=
  Eval vm_compute in force nothing (addValue K new_Optimize [1; 1] 0 [0; 0]).

(** Two calls of [Optimize], configured with [m_Wolfe_1 = 0.8], on a function
    of one variable: the first point is 1 with value 0 and gradient -1, the
    second point is 0 with value -0.4375 and gradient 0.125.  [wolfe_first] is
    the solver after the first call, [wolfe_second] the solver of the second
    call at the moment [solveReducedProblem] is called. *)
Definition wolfe_first : Solver DenseVector.t :=
  Eval vm_compute in
    snd (fst (force nothing (addValue K (set_Wolfe_1 0.8 new_Optimize) [1] 0 [-1]))).

Definition wolfe_second : Solver DenseVector.t :=
  Eval vm_compute in
    let s := set_values (m_values wolfe_first ++ [-0.4375]) wolfe_first in
    let cv := mkCaller [[0]] [[0.125]] [] [] in
    buildSubspace K (fst (force (s, cv) (addVector_enter (initialise s cv) cv))).

(** Two calls of [Optimize], built with its defaults, on the linear function
    f(x) = x: the points 0 and -1, with gradient 1 at both.  [linear_second]
    is the solver of the second call at the moment [buildSubspace] is
    called. *)
Definition linear_first : Solver DenseVector.t :=
  Eval vm_compute in snd (fst (force nothing (addValue K new_Optimize [0] 0 [1]))).

Definition linear_second : Solver DenseVector.t :=
  Eval vm_compute in
    let s := set_values (m_values linear_first ++ [-1]) linear_first in
    let cv := mkCaller [[-1]] [[1]] [] [] in
    fst (force (s, cv) (addVector_enter (initialise s cv) cv)).


(** The platform of a caller whose reduced matrix is the rotation by a right
    angle, [[0, -1], [1, 0]]: its eigenvalues are i and -i, with the
    eigenvectors (1, -i) / sqrt 2 and (1, i) / sqrt 2. *)
Definition rotation_platform (intel : bool) : Platform :=
  mkPlatform intel
    DiagonalPlatform.JacobiSVD DiagonalPlatform.svd_rank DiagonalPlatform.svd_solve
    (fun _ => ([Num.mkC 0 1; Num.mkC 0 (-1)],
               Mat.mk 2 2 [[Num.mkC 0.70710678118654757 0; Num.mkC 0 (-0.70710678118654757)];
                           [Num.mkC 0.70710678118654757 0; Num.mkC 0 0.70710678118654757]]))
    DiagonalPlatform.GeneralizedEigenSolver DiagonalPlatform.householderQr_solve.

(** The caller: the unit vectors of the plane, and their images under the
    rotation. *)
Definition rotation_caller : caller_vectors DenseVector.t :=
  mkCaller [[1; 0]; [0; 1]] [[0; 1]; [-1; 0]] [] [].

(** The eigensolver of the first call at the moment [solveReducedProblem] is
    called. *)
Definition rotation_state : Solver DenseVector.t :=
  Eval vm_compute in
    buildSubspace (rotation_platform false)
      (fst (force (new_LinearEigensystem, rotation_caller)
                  (addVector_enter (initialise new_LinearEigensystem rotation_caller)
                                   rotation_caller))).

(** A caller of the eigensolver for the matrix diag(3, 1, 2), with the unit
    vectors as trial vectors, and the eigensolver of the first call at the
    moment [solveReducedProblem] is called. *)
Definition unsorted_caller : caller_vectors DenseVector.t :=
  mkCaller [[1; 0; 0]; [0; 1; 0]; [0; 0; 1]] [[3; 0; 0]; [0; 1; 0]; [0; 0; 2]] [] [].

Definition unsorted_state : Solver DenseVector.t :=
  Eval vm_compute in
    buildSubspace K
      (fst (force (new_LinearEigensystem, unsorted_caller)
                  (addVector_enter (initialise new_LinearEigensystem unsorted_caller)
                                   unsorted_caller))).

(** A [DIIS] solver whose subspace matrix is [[2, 1], [1, 3]]. *)
Definition diis_state : Solver DenseVector.t :=
  set_subspaceMatrix (Mat.mk 2 2 [[2; 1]; [1; 3]]) new_DIIS.

End Scenario.

(* ===================================================================== *)
(** * Part I, continued: the rest of the interface *)
(* ===================================================================== *)

(** ** [IterativeSolver<T>]: the members that report on the solver *)

Section Reports.
Context {T : Type} {ops : VectorOps T}.

(** [endIteration(solution, residual)] of the base class: after [report()],
    which only prints,
    [m_errors.empty() ? 0 : *std::max_element(m_errors.cbegin(), m_errors.cend()) < m_thresh]. *)
Definition endIteration (s : Solver T) : bool :=
  match m_errors s with
  | [] => false
  | _ => Num.lt (nth (Util.max_element (m_errors s)) (m_errors s) 0%float) (m_thresh s)
  end.

(** [eigenvalues()]: the real parts of the first eigenvalues, one for every
    root below both [m_roots] and [m_subspaceEigenvalues.rows()]. *)
Definition eigenvalues (s : Solver T) : list float :=
  map (fun root => Num.re (nth root (m_subspaceEigenvalues s) Num.c0))
      (seq 0 (Nat.min (m_roots s) (length (m_subspaceEigenvalues s)))).

End Reports.

(** ** More scenarios *)

Module Cases.
Local Open Scope float_scope.

(** The eigensolver for diag(3, 1, 2) after its first reduced solve. *)
Definition sorted_state : Solver DenseVector.t :=
  Eval vm_compute in
    snd (Scenario.force (false, Scenario.unsorted_state)
           (LinearEigensystem_solveReducedProblem Scenario.K Scenario.unsorted_state)).

End Cases.

(** ** [IterativeSolver<T>::solution] *)

Section Solution.
Context {T : Type} {ops : VectorOps T}.
Variable K : Platform.

(** [solution(roots, parameters, residual, parametersP)]: the working set is
    put aside and replaced by [roots], [m_s_rr] is cleared, the subspace is
    built and solved again, the solutions and residuals of [roots] are
    interpolated into the caller's vectors (with no other vectors, and not in
    action-only mode), and the working set is put back. *)
Definition solution (s : Solver T) (roots : list nat)
           (params residual : list T) (paramsP : list (list float))
  : result (Solver T * caller_vectors T) :=
  let working_set_save := m_working_set s in
  let s := set_working_set roots s in
  let s := set_s_rr [] s in
  let s := buildSubspace K s in
  '(_, s) <- solveReducedProblem K s ;;
  cv <- doInterpolation s (mkCaller params residual paramsP []) false ;;
  Ok (set_working_set working_set_save s, cv).

End Solution.

(** ** wrap.h: the iterator overloads *)

Module WrapRange.

(** [wrap<R>(begin, end)] and [cwrap<R>(begin, end)]:
    [std::copy(begin, end, std::back_inserter(w))], every element of the range
    being converted to a reference to itself.  The iterators are pointers into
    the storage of a vector; a range with [end] before [begin] is undefined
    behaviour in C++ and read as empty here. *)
Definition wrap (first last : nat) : list Wrap.reference := seq first (last - first).
Definition cwrap (first last : nat) : list Wrap.reference := wrap first last.

End WrapRange.

(** ** Outcomes

    What a call comes to: it returns, it throws, or its behaviour is undefined
    in C++. *)
Inductive outcome (A : Type) : Type :=
| Returns (a : A)
| Raises (e : exn)
| Undefined.
Arguments Returns {A} _.
Arguments Raises {A} _.
Arguments Undefined {A}.

(** ** subspace/util.h

    [Matrix<double>], of subspace/Matrix.h, is used here through its
    constructor from a pair of dimensions, [rows()], [cols()] and
    [operator()(i, j)]; it is the dense matrix [Mat.real], and a new matrix
    holds zeros.  An array handler is used through its [dot] only. *)

Module SubspaceUtil.
Local Open Scope float_scope.

(** [Matrix<double>({r, c})]. *)
Definition new_matrix (r c : nat) : Mat.real := Mat.build r c (fun _ _ => 0).

Section Overlap.
Context {R Q : Type}.

(** [detail::Overlap<R, Q, Z, W>::_(left, right, handler)], primary template:
    [m(i, j) = handler.dot(left[i], right[j])]. *)
Definition overlap_between (handler_dot : R -> Q -> float) (left : list R) (right : list Q)
  : Mat.real :=
  let m0 := new_matrix (length left) (length right) in
  fold_left (fun m i =>
     fold_left (fun m j =>
        match nth_error left i, nth_error right j with
        | Some l, Some r => Mat.set 0 m i j (handler_dot l r)
        | _, _ => m
        end) (seq 0 (Mat.cols m0)) m)
    (seq 0 (Mat.rows m0)) m0.

(** The specialisation [Overlap<R, Q, Z, W, false, false>], for a handler
    that takes its arguments the other way round:
    [m(i, j) = handler.dot(right[j], left[i])]. *)
Definition overlap_between_swapped (handler_dot : Q -> R -> float)
           (left : list R) (right : list Q) : Mat.real :=
  overlap_between (fun l r => handler_dot r l) left right.

(** [overlap(params, handler)]:
    [m(i, j) = m(j, i) = handler.dot(params[i], params[j])] for [j <= i]. *)
Definition overlap (handler_dot : R -> R -> float) (params : list R) : Mat.real :=
  let m0 := new_matrix (length params) (length params) in
  fold_left (fun m i =>
     fold_left (fun m j =>
        match nth_error params i, nth_error params j with
        | Some pi, Some pj =>
            let x := handler_dot pi pj in
            Mat.set 0 (Mat.set 0 m j i x) i j x
        | _, _ => m
        end) (seq 0 (S i)) m)
    (seq 0 (Mat.rows m0)) m0.

End Overlap.

(** [matrix_symmetrize(mat)]:
    [mat(i, j) = mat(j, i) = 0.5 * (mat(i, j) + mat(j, i))] for [j < i], after
    the assertion that the matrix is square. *)
Definition matrix_symmetrize (mat : Mat.real) : result Mat.real :=
  _ <- assert (Mat.rows mat =? Mat.cols mat)%nat "must be a square matrix" ;;
  Ok (fold_left (fun m i =>
        fold_left (fun m j =>
           let x := 0.5 * (Mat.rcoeff m i j + Mat.rcoeff m j i) in
           Mat.set 0 (Mat.set 0 m j i x) i j x) (seq 0 i) m)
       (seq 0 (Mat.rows mat)) mat).

(** [std::numeric_limits<double>::lowest()]. *)
Definition lowest : float := (-0x1.fffffffffffffp+1023)%float.

(** [max_element_index(rows, cols, mat)]: the first place, rows before
    columns, of an element of the given rows and columns that no other of them
    exceeds; {0, 0} when no element exceeds [lowest()]. *)
Definition max_element_index (rows cols : list nat) (mat : Mat.real) : nat * nat :=
  snd (fold_left (fun st i =>
         fold_left (fun st j =>
            if Num.gt (Mat.rcoeff mat i j) (fst st)
            then (Mat.rcoeff mat i j, (i, j)) else st) cols st)
       rows (lowest, (0%nat, 0%nat))).

(** [l.erase(std::find(begin(l), end(l), x))] on a [std::list]; erasing the
    end iterator, when [x] is not found, is undefined. *)
Fixpoint erase_found (x : nat) (l : list nat) : option (list nat) :=
  match l with
  | [] => None
  | y :: t => if (x =? y)%nat then Some t else option_map (cons y) (erase_found x t)
  end.

(** The loop of [eye_order].  Every turn removes an element of [rows]; [fuel]
    bounds the number of turns, and more fuel than [rows] is long is enough. *)
Fixpoint eye_order_loop (fuel : nat) (mat : Mat.real) (rows cols order : list nat)
  : outcome (list nat) :=
  match rows, cols with
  | [], _ => Returns order
  | _, [] => Returns order
  | _, _ =>
      match fuel with
      | O => Undefined
      | S fuel' =>
          let '(i, j) := max_element_index rows cols mat in
          if (j <? length order)%nat then
            let order := Util.update_nth j i order in
            match erase_found i rows, erase_found j cols with
            | Some rows', Some cols' => eye_order_loop fuel' mat rows' cols' order
            | _, _ => Undefined
            end
          else Raises (out_of_range "vector::at")
      end
  end.

(** [eye_order(mat)]; [mat.dimensions().first] is the number of rows. *)
Definition eye_order (mat : Mat.real) : outcome (list nat) :=
  let n := Mat.rows mat in
  eye_order_loop (S n) mat (seq 0 n) (seq 0 n) (repeat 0%nat n).

End SubspaceUtil.

(** ** [IterativeSolver<T>::suggestP] *)

Module SuggestP.
Local Open Scope float_scope.

(** A [std::map<size_t, double>], kept as its list of entries in key order. *)
Definition scalar_map := list (nat * float).

Definition find (k : nat) (m : scalar_map) : option float :=
  option_map snd (List.find (fun kv => (fst kv =? k)%nat) m).

(** [m[k] = v]. *)
Fixpoint assign (k : nat) (v : float) (m : scalar_map) : scalar_map :=
  match m with
  | [] => [(k, v)]
  | (k', v') :: t =>
      if (k =? k')%nat then (k, v) :: t
      else if (k <? k')%nat then (k, v) :: (k', v') :: t
      else (k', v') :: assign k v t
  end.

(** [std::max(a, b)]: [b] when [a < b], otherwise [a]. *)
Definition std_max (a b : float) : float := if Num.lt a b then b else a.

(** The body of the loop over [indices]:
    [result[idx] = result.count(idx) ? std::max(result[idx], v) : v]. *)
Definition merge_one (result : scalar_map) (idx : nat) (v : float) : scalar_map :=
  match find idx result with
  | Some old => assign idx (std_max old v) result
  | None => assign idx v result
  end.

(** The loop over [indices]; reading [values] beyond its end is undefined
    ([None]). *)
Fixpoint merge_selection (indices : list nat) (values : list float) (result : scalar_map)
  : option scalar_map :=
  match indices, values with
  | [], _ => Some result
  | idx :: indices', v :: values' => merge_selection indices' values' (merge_one result idx v)
  | _ :: _, [] => None
  end.

(** [inverseResult.insert({v, k})] on a
    [std::multimap<double, size_t, std::greater<double>>], kept as its list of
    entries in iteration order: the new entry goes before the first entry whose
    key it exceeds, after the entries with an equivalent key. *)
Fixpoint multimap_insert (v : float) (k : nat) (l : list (float * nat)) : list (float * nat) :=
  match l with
  | [] => [(v, k)]
  | e :: t => if Num.gt v (fst e) then (v, k) :: e :: t else e :: multimap_insert v k t
  end.

Section WithVectors.
Context {T : Type}.
(** [x.select(y, maximumNumber, threshold)] of the vector class: indices and
    values. *)
Variable select : T -> T -> nat -> float -> list nat * list float.

(** The first loop of [suggestP].  [m_active], [solution] and [residual] are
    indexed by [kkk]; reading [m_active] or [residual] beyond the end is
    undefined ([None]). *)
Definition collect (m_active : list bool) (solution residual : list T)
           (maximumNumber : nat) (threshold : float) : option scalar_map :=
  fold_left (fun acc kkk =>
               match acc with
               | None => None
               | Some result =>
                   match nth_error m_active kkk with
                   | None => None
                   | Some false => Some result
                   | Some true =>
                       match nth_error solution kkk, nth_error residual kkk with
                       | Some s, Some r =>
                           let '(indices, values) := select s r maximumNumber threshold in
                           merge_selection indices values result
                       | _, _ => None
                       end
                   end
               end)
            (seq 0 (length solution)) (Some []).

(** [suggestP(solution, residual, maximumNumber, threshold)]. *)
Definition suggestP (m_active : list bool) (solution residual : list T)
           (maximumNumber : nat) (threshold : float) : option (list nat) :=
  match collect m_active solution residual maximumNumber threshold with
  | None => None
  | Some result =>
      let inverseResult :=
        fold_left (fun inv kv => multimap_insert (snd kv) (fst kv) inv) result [] in
      Some (map snd (firstn maximumNumber inverseResult))
  end.

(** The pairs of an index and a value that [select] proposes for the active
    roots, in the order in which [suggestP] meets them. *)
Definition selections (m_active : list bool) (solution residual : list T)
           (maximumNumber : nat) (threshold : float) : list (nat * float) :=
  flat_map (fun kkk =>
              match nth_error m_active kkk, nth_error solution kkk, nth_error residual kkk with
              | Some true, Some s, Some r =>
                  combine (fst (select s r maximumNumber threshold))
                          (snd (select s r maximumNumber threshold))
              | _, _, _ => []
              end)
           (seq 0 (length solution)).

End WithVectors.
End SuggestP.

(** ** subspace/check_conditioning.h

    The classes [XSpace], [RSpace], [QSpace] and [PSpace] are template
    arguments of [check_conditioning]; the state they hold together is [St]
    here and the member functions that the code calls are the fields of
    [Spaces]. *)

Module CheckConditioning.
Local Open Scope float_scope.

(** A [std::map<size_t, std::vector<size_t>>], kept as its list of entries in
    key order. *)
Definition candidate_map := list (nat * list nat).

(** [m[k] = v]. *)
Fixpoint assign (k : nat) (v : list nat) (m : candidate_map) : candidate_map :=
  match m with
  | [] => [(k, v)]
  | (k', v') :: t =>
      if (k =? k')%nat then (k, v) :: t
      else if (k <? k')%nat then (k, v) :: (k', v') :: t
      else (k', v') :: assign k v t
  end.

(** [detail::generate_pairs]; the branch under [if (false)] never runs. *)
Definition generate_pairs (candidates : candidate_map) : list (nat * nat) :=
  fold_left (fun pairs root_candidates =>
               fold_left (fun pairs c => pairs ++ [(c, c)]) (snd root_candidates) pairs)
            candidates [].

(** The lambda [empty_candidates]. *)
Definition empty_candidates (candidates : candidate_map) : bool :=
  fold_left (fun empty c => andb empty (match snd c with [] => true | _ => false end))
            candidates true.

(** [v.at(i)] on a [std::vector<double>]. *)
Definition at_ (v : list float) (i : nat) : outcome float :=
  match nth_error v i with
  | Some x => Returns x
  | None => Raises (out_of_range "vector::at")
  end.

(** The loop that fills [norms]. *)
Fixpoint pair_norms (v : list float) (oQ : nat) (pairs : list (nat * nat)) (norms : list float)
  : outcome (list float) :=
  match pairs with
  | [] => Returns norms
  | p :: pairs' =>
      match at_ v (oQ + fst p), at_ v (oQ + snd p) with
      | Returns a, Returns b => pair_norms v oQ pairs' (norms ++ [a * a + b * b])
      | Raises e, _ => Raises e
      | _, Raises e => Raises e
      | _, _ => Undefined
      end
  end.

Section Spaces.
Variable St : Type.

Record Spaces : Type := mkSpaces {
  (** [rs.working_set()] *)
  working_set : St -> list nat;
  (** [qs.modification_candidates(root)] *)
  modification_candidates : St -> nat -> list nat;
  (** [svd_system(xs.size(), xs.data[EqnData::S], threshold)]: the value and
      the vector of each singular value it reports *)
  svd_system : St -> float -> list (float * list float);
  (** [xs.dimensions().oQ] *)
  oQ : St -> nat;
  (** [qs.merge(pair)] *)
  merge : St -> nat * nat -> St;
  (** [xs.build_subspace(rs, qs, ps)] *)
  build_subspace : St -> St
}.

Variable sp : Spaces.
Variables svd_threshold norm_threshold : float.

(** [detail::generate_candidates]. *)
Definition generate_candidates (st : St) : candidate_map :=
  fold_left (fun candidates root => assign root (modification_candidates sp st root) candidates)
            (working_set sp st) [].

(** The [while] loop of [check_conditioning], run for at most [fuel] passes;
    [None] when the loop is still running after them.  Dereferencing
    [std::max_element] of an empty [norms] is undefined. *)
Fixpoint check_conditioning_loop (fuel : nat) (stable : bool) (st : St)
         (candidates : candidate_map) : option (outcome St) :=
  if andb (negb stable) (negb (empty_candidates candidates)) then
    match fuel with
    | O => None
    | S fuel' =>
        match svd_system sp st svd_threshold with
        | [] => check_conditioning_loop fuel' true st candidates
        | front :: _ =>
            let pairs := generate_pairs candidates in
            match pair_norms (snd front) (oQ sp st) pairs [] with
            | Returns [] => Some Undefined
            | Returns norms =>
                let i_max := Util.max_element norms in
                let it_max := nth i_max norms 0 in
                let stable := Num.lt it_max norm_threshold in
                if Num.gt it_max norm_threshold then
                  match nth_error pairs i_max with
                  | Some merged =>
                      let st := build_subspace sp (merge sp st merged) in
                      check_conditioning_loop fuel' stable st (generate_candidates st)
                  | None => Some (Raises (out_of_range "vector::at"))
                  end
                else check_conditioning_loop fuel' stable st candidates
            | Raises e => Some (Raises e)
            | Undefined => Some Undefined
            end
        end
    end
  else Some (Returns st).

Definition check_conditioning (fuel : nat) (st : St) : option (outcome St) :=
  check_conditioning_loop fuel false st (generate_candidates st).

End Spaces.

(** A subspace of one root with one candidate, whose singular vector gives the
    candidate the norm [0.5]. *)
Definition one_candidate : Spaces unit :=
  mkSpaces unit (fun _ => [0%nat]) (fun _ _ => [0%nat])
           (fun _ _ => [(0, [0.5; 0.5])]) (fun _ => 0%nat)
           (fun st _ => st) (fun st => st).

End CheckConditioning.

(** ** XSpace::erase

    [size_t] is a 64-bit unsigned integer; sums and differences wrap around.
    [erase] reads six fields of [m_dim] and hands the index on to [erasep],
    [eraseq] or [erased], or to none of them. *)

Module XSpaceImpl.
Local Open Scope N_scope.

Definition size_t_range : N := 2 ^ 64.
Definition size_add (a b : N) : N := (a + b) mod size_t_range.
Definition size_sub (a b : N) : N := (a + size_t_range - b mod size_t_range) mod size_t_range.

Record Dimensions : Type := mkDimensions {
  nP : N; nQ : N; nD : N;
  oP : N; oQ : N; oD : N
}.

(** The member function that [erase] calls, and its argument. *)
Inductive erase_call : Type :=
| erasep (i : N)
| eraseq (i : N)
| erased (i : N).

Definition erase (m_dim : Dimensions) (i : N) : option erase_call :=
  if andb (i <=? oP m_dim) (i <? size_add (oP m_dim) (nP m_dim)) then
    Some (erasep (size_sub i (oP m_dim)))
  else if andb (i <=? oQ m_dim) (i <? size_add (oQ m_dim) (nQ m_dim)) then
    Some (eraseq (size_sub i (oQ m_dim)))
  else if andb (i <=? oD m_dim) (i <? size_add (oD m_dim) (nD m_dim)) then
    Some (erased (size_sub i (oD m_dim)))
  else None.

(** The block that a call names, its offset and the index it receives. *)
Definition call_offset (m_dim : Dimensions) (c : erase_call) : N :=
  match c with
  | erasep _ => oP m_dim
  | eraseq _ => oQ m_dim
  | erased _ => oD m_dim
  end.
Definition call_index (c : erase_call) : N :=
  match c with
  | erasep i => i
  | eraseq i => i
  | erased i => i
  end.

End XSpaceImpl.

(** ** The C interface: P vectors from compressed rows

    [IterativeSolverAddP] receives the P-space vectors as three arrays:
    vector [p] has the entries [indices[k]], [coefficients[k]] for
    [offsets[p] <= k < offsets[p + 1]].  Reading an array beyond its end is
    undefined ([None]). *)

Module CInterface.

(** [ppp.insert(std::pair(k, v))] on a [std::map]: an entry that is already
    there stays. *)
Definition insert (k : nat) (v : float) (ppp : SuggestP.scalar_map) : SuggestP.scalar_map :=
  match SuggestP.find k ppp with
  | Some _ => ppp
  | None => SuggestP.assign k v ppp
  end.

Section Arrays.
Variables (offsets indices : list nat) (coefficients : list float).

(** The body of the loop over [k]. *)
Definition insert_pass (acc : option SuggestP.scalar_map) (k : nat)
  : option SuggestP.scalar_map :=
  match acc with
  | None => None
  | Some ppp =>
      match nth_error indices k, nth_error coefficients k with
      | Some i, Some c => Some (insert i c ppp)
      | _, _ => None
      end
  end.

(** [for (k = first; k < last; k++) ppp.insert(...)]. *)
Definition insert_range (first last : nat) (ppp : SuggestP.scalar_map)
  : option SuggestP.scalar_map :=
  fold_left insert_pass (seq first (last - first)) (Some ppp).

(** The loop over [p] with one body or another. *)
Definition each_vector (body : nat -> nat -> option SuggestP.scalar_map) (nP : nat)
  : option (list SuggestP.scalar_map) :=
  fold_left (fun acc p =>
               match acc with
               | None => None
               | Some Pvectors =>
                   match nth_error offsets p, nth_error offsets (p + 1) with
                   | Some first, Some last =>
                       match body first last with
                       | Some ppp => Some (Pvectors ++ [ppp])
                       | None => None
                       end
                   | _, _ => None
                   end
               end)
            (seq 0 nP) (Some []).

(** The loop of [IterativeSolverCMPI.cpp]. *)
Definition Pvectors_CMPI (nP : nat) : option (list SuggestP.scalar_map) :=
  each_vector (fun first last => insert_range first last []) nP.

(** The loop of [lib/IterativeSolver.cpp], in which the loop over [k] stands
    inside another loop over the same range. *)
Definition Pvectors_lib (nP : nat) : option (list SuggestP.scalar_map) :=
  each_vector (fun first last =>
                 fold_left (fun acc _ =>
                              match acc with
                              | None => None
                              | Some ppp => insert_range first last ppp
                              end)
                           (seq first (last - first)) (Some []))
              nP.

End Arrays.
End CInterface.

(* ===================================================================== *)
(** * Part II: theorems *)
(* ===================================================================== *)

(** ** wrap.h *)

Section WrapFacts.
Import Wrap.

Lemma wrap_from_seq {R} (l : list R) (a : nat) :
  wrap_from a l = seq a (length l).
Proof.
  revert a; induction l as [|x l IH]; intro a; simpl; [reflexivity|].
  now rewrite IH.
Qed.

Lemma found_true_iff (it : nat) (ws : list reference) :
  found (fun w => w =? it) ws = true <-> In it ws.
Proof.
  unfold found. split.
  - destruct (find _ ws) as [w|] eqn:E; [|discriminate].
    intros _. apply find_some in E. destruct E as [Hin Heq].
    apply Nat.eqb_eq in Heq. now subst.
  - intro Hin. destruct (find _ ws) as [w|] eqn:E; [reflexivity|].
    apply (find_none _ _ E) in Hin. now rewrite Nat.eqb_refl in Hin.
Qed.

Lemma find_ref_loop_spec (ws : list reference) (first : nat) :
  forall n it, first <= it ->
    find_ref_loop ws first it n =
    filter (fun i => found (fun w => w =? first + i) ws) (seq (it - first) n).
Proof.
  induction n as [|n IH]; intros it Hle; simpl; [reflexivity|].
  replace (first + (it - first)) with it by lia.
  rewrite (IH (S it)) by lia.
  replace (S it - first) with (S (it - first)) by lia.
  reflexivity.
Qed.

Lemma find_ref_filter {R} (v : vector R) (ws : list reference) :
  find_ref ws (begin v) (end_ v) =
  filter (fun i => found (fun w => w =? data v + i) ws)
         (seq 0 (length (elems v))).
Proof.
  unfold find_ref, begin, end_.
  rewrite find_ref_loop_spec by lia.
  now replace (data v - data v) with 0 by lia;
      replace (data v + length (elems v) - data v) with (length (elems v)) by lia.
Qed.

Lemma filter_seq_sorted (p : nat -> bool) (n a : nat) :
  StronglySorted lt (filter p (seq a n)).
Proof.
  revert a; induction n as [|n IH]; intro a; simpl; [constructor|].
  destruct (p a); [|apply IH].
  constructor; [apply IH|].
  apply Forall_forall. intros x Hx.
  apply filter_In in Hx. destruct Hx as [Hx _].
  apply in_seq in Hx. lia.
Qed.

End WrapFacts.

(** C9. For every vector [v], [find_ref (wrap v) begin end] is [0 .. len-1];
  and for every collection [sub] of references taken from [wrap v],
  [find_ref sub begin end] lists, in strictly ascending order, exactly the
  positions in [v] of the referenced elements. *)
Theorem C9_find_ref_wrap_roundtrip :
forall (R : Type) (v : Wrap.vector R),
  Wrap.find_ref (Wrap.wrap v) (Wrap.begin v) (Wrap.end_ v)
    = seq 0 (length (Wrap.elems v))
  /\
  forall sub : list Wrap.reference,
    incl sub (Wrap.wrap v) ->
    let indices := Wrap.find_ref sub (Wrap.begin v) (Wrap.end_ v) in
    StronglySorted lt indices
    /\ (forall i, In i indices <-> In (Wrap.data v + i) sub)
    /\ map (fun i => Wrap.data v + i) indices
       = filter (fun r => existsb (Nat.eqb r) sub) (Wrap.wrap v).
Proof.
intros R v. split.
- rewrite find_ref_filter.
  apply forallb_filter_id. apply forallb_forall. intros i Hi.
  apply found_true_iff. unfold Wrap.wrap. rewrite wrap_from_seq.
  apply in_seq in Hi. apply in_seq. lia.
- intros sub Hsub indices. subst indices. rewrite find_ref_filter.
  split; [apply filter_seq_sorted|]. split.
  + intro i. rewrite filter_In, found_true_iff, in_seq. split; [tauto|].
    intro Hin. split; [|assumption].
    apply Hsub in Hin. unfold Wrap.wrap in Hin.
    rewrite wrap_from_seq in Hin. apply in_seq in Hin. lia.
  + unfold Wrap.wrap. rewrite wrap_from_seq.
    generalize (length (Wrap.elems v)) as n. generalize (Wrap.data v) as d.
    intros d n.
    assert (Hgen : forall k,
      map (fun i => d + i)
          (filter (fun i => Wrap.found (fun w => w =? d + i) sub) (seq k n))
      = filter (fun r => existsb (Nat.eqb r) sub) (seq (d + k) n)).
    { revert sub Hsub. intros sub _. induction n as [|n IH]; intro k; simpl; [reflexivity|].
      assert (Hb : Wrap.found (fun w => w =? d + k) sub
                   = existsb (Nat.eqb (d + k)) sub).
      { apply eq_true_iff_eq. rewrite found_true_iff, existsb_exists. split.
        - intro H. exists (d + k). split; [assumption|apply Nat.eqb_refl].
        - intros [x [Hx Hxe]]. apply Nat.eqb_eq in Hxe. now subst. }
      rewrite Hb. replace (S (d + k)) with (d + S k) by lia.
      destruct (existsb (Nat.eqb (d + k)) sub); simpl; now rewrite IH. }
    specialize (Hgen 0). now rewrite Nat.add_0_r in Hgen.
Qed.

(** The scenario of the unit test [find_ref_some]: erasing positions 0, 1, 2 in
  turn from the wrapped references of a vector of five leaves references
  to the original positions 1 and 3. *)
Example find_ref_some :
let params := Wrap.mkVector 1000 [1; 2; 3; 4; 5] in
let wparams := Wrap.erase 2 (Wrap.erase 1 (Wrap.erase 0 (Wrap.wrap params))) in
Wrap.find_ref wparams (Wrap.begin params) (Wrap.end_ params) = [1; 3].
Proof. reflexivity. Qed.

(** C9 on a vector of five elements stored from address 1000: the references
    to the fourth and the second element, given in that order, are found at the
    positions 1 and 3. *)
Lemma C9_find_ref_wrap_roundtrip_witness :
  incl [1003; 1001] (Wrap.wrap (Wrap.mkVector 1000 [1; 2; 3; 4; 5]))
  /\ StronglySorted lt
       (Wrap.find_ref [1003; 1001] (Wrap.begin (Wrap.mkVector 1000 [1; 2; 3; 4; 5]))
                      (Wrap.end_ (Wrap.mkVector 1000 [1; 2; 3; 4; 5])))
  /\ Wrap.find_ref [1003; 1001] (Wrap.begin (Wrap.mkVector 1000 [1; 2; 3; 4; 5]))
                   (Wrap.end_ (Wrap.mkVector 1000 [1; 2; 3; 4; 5])) = [1; 3].
Proof.
  assert (Hincl : incl [1003; 1001] (Wrap.wrap (Wrap.mkVector 1000 [1; 2; 3; 4; 5]))).
  { intros x [<- | [<- | []]]; vm_compute; auto 10. }
  split; [exact Hincl|]. split; [|reflexivity].
  exact (proj1 (proj2 (C9_find_ref_wrap_roundtrip nat (Wrap.mkVector 1000 [1; 2; 3; 4; 5]))
                      [1003; 1001] Hincl)).
Defined.

(** Reduction of the reads of a data member after assignments. *)
Ltac solver_simpl :=
  cbn [m_variant m_thresh m_linear m_hermitian m_roots m_rspt m_subspaceMatrixResRes
    m_residual_eigen m_residual_rhs m_rhs m_updateShift m_interpolation m_subspaceMatrix
    m_subspaceOverlap m_subspaceRHS m_subspaceEigenvectors m_subspaceEigenvalues
    m_values m_iterations m_singularity_threshold m_augmented_hessian m_svdThreshold
    m_maxQ m_pspace m_qspace m_last_d m_last_hd m_current_r m_current_v m_s_rr m_h_rr
    m_hh_rr m_rhs_r m_s_qr m_h_qr m_h_rq m_hh_qr m_s_pr m_h_pr m_h_rp m_working_set
    m_q_solutions m_errors m_exclude_r_from_redundancy_test m_orthogonalise_Q
    m_nullify_solution_before_update m_algorithm m_minimize m_strong_Wolfe m_Wolfe_1
    m_Wolfe_2 m_linesearch_tolerance m_linesearch_grow_factor m_linesearch_steplength
    m_best_r m_best_v m_best_f set_thresh set_linear set_hermitian set_roots set_rspt
    set_updateShift set_interpolation set_subspaceMatrix set_subspaceOverlap
    set_subspaceRHS set_subspaceEigenvectors set_subspaceEigenvalues set_values
    set_iterations set_maxQ set_qspace set_last_d set_last_hd set_current_r
    set_current_v set_s_rr set_h_rr set_hh_rr set_rhs_r set_s_qr set_h_qr set_h_rq
    set_hh_qr set_s_pr set_h_pr set_h_rp set_working_set set_q_solutions set_errors
    set_nullify_solution_before_update set_strong_Wolfe set_Wolfe_1 set_Wolfe_2
    set_linesearch_tolerance set_linesearch_steplength set_best_r set_best_v set_best_f
    rt_solver rt_parameters rt_action parameters action parametersP other fst snd].
Ltac solver_simpl_in H :=
  cbn [m_variant m_thresh m_linear m_hermitian m_roots m_rspt m_subspaceMatrixResRes
    m_residual_eigen m_residual_rhs m_rhs m_updateShift m_interpolation m_subspaceMatrix
    m_subspaceOverlap m_subspaceRHS m_subspaceEigenvectors m_subspaceEigenvalues
    m_values m_iterations m_singularity_threshold m_augmented_hessian m_svdThreshold
    m_maxQ m_pspace m_qspace m_last_d m_last_hd m_current_r m_current_v m_s_rr m_h_rr
    m_hh_rr m_rhs_r m_s_qr m_h_qr m_h_rq m_hh_qr m_s_pr m_h_pr m_h_rp m_working_set
    m_q_solutions m_errors m_exclude_r_from_redundancy_test m_orthogonalise_Q
    m_nullify_solution_before_update m_algorithm m_minimize m_strong_Wolfe m_Wolfe_1
    m_Wolfe_2 m_linesearch_tolerance m_linesearch_grow_factor m_linesearch_steplength
    m_best_r m_best_v m_best_f set_thresh set_linear set_hermitian set_roots set_rspt
    set_updateShift set_interpolation set_subspaceMatrix set_subspaceOverlap
    set_subspaceRHS set_subspaceEigenvectors set_subspaceEigenvalues set_values
    set_iterations set_maxQ set_qspace set_last_d set_last_hd set_current_r
    set_current_v set_s_rr set_h_rr set_hh_rr set_rhs_r set_s_qr set_h_qr set_h_rq
    set_hh_qr set_s_pr set_h_pr set_h_rp set_working_set set_q_solutions set_errors
    set_nullify_solution_before_update set_strong_Wolfe set_Wolfe_1 set_Wolfe_2
    set_linesearch_tolerance set_linesearch_steplength set_best_r set_best_v set_best_f
    rt_solver rt_parameters rt_action parameters action parametersP other fst snd] in H.

(** ** Matrices *)

Section MatFacts.
Context {A : Type} (zero : A).

Lemma nth_map_seq {B} (f : nat -> B) (d : B) (n i : nat) :
  i < n -> nth i (map f (seq 0 n)) d = f i.
Proof.
  intro Hi.
  rewrite (nth_indep _ d (f 0)) by (rewrite length_map, length_seq; exact Hi).
  rewrite (map_nth f (seq 0 n) 0 i), seq_nth by exact Hi. reflexivity.
Qed.

Lemma coeff_build (r c : nat) (f : nat -> nat -> A) (i j : nat) :
  i < r -> j < c -> Mat.coeff zero (Mat.build r c f) i j = f i j.
Proof.
  intros Hi Hj. unfold Mat.coeff, Mat.build. cbn [Mat.columns].
  rewrite (nth_map_seq (fun j => map (fun i => f i j) (seq 0 r)) [] c j Hj).
  apply (nth_map_seq (fun i => f i j) zero r i Hi).
Qed.

Lemma rows_build (r c : nat) (f : nat -> nat -> A) : Mat.rows (Mat.build r c f) = r.
Proof. reflexivity. Qed.


Lemma col_build (r c : nat) (f : nat -> nat -> A) (j : nat) :
  j < c -> Mat.col zero (Mat.build r c f) j = map (fun i => f i j) (seq 0 r).
Proof.
  intro Hj. unfold Mat.col. rewrite rows_build.
  apply map_ext_in. intros i Hi. apply in_seq in Hi.
  apply coeff_build; [lia | exact Hj].
Qed.

End MatFacts.

(** ** The Q space *)

Section QSpaceFacts.
Context {T : Type} {ops : VectorOps T}.

Lemma length_remove_nth {A} (l : list A) (i : nat) :
  i < length l -> length (Util.remove_nth i l) = length l - 1.
Proof.
  revert i; induction l as [|x l IH]; intros i Hi; simpl in *; [lia|].
  destruct i; simpl; [lia|]. rewrite IH by lia. lia.
Qed.

Lemma size_remove (q : QSpace.t T) (i : nat) :
  i < QSpace.size q -> QSpace.size (QSpace.remove q i) = QSpace.size q - 1.
Proof. intro Hi. unfold QSpace.size, QSpace.remove; simpl. now apply length_remove_nth. Qed.

Lemma keys_remove (q : QSpace.t T) (i : nat) :
  QSpace.keys (QSpace.remove q i) = Util.remove_nth i (QSpace.keys q).
Proof.
  unfold QSpace.keys, QSpace.remove; simpl.
  generalize (QSpace.entries q) as l. intro l. revert i.
  induction l as [|e l IH]; intro i; destruct i; simpl; try reflexivity.
  now rewrite IH.
Qed.

Lemma size_push (q : QSpace.t T) v hv sc ps rhsv rr :
  QSpace.size (QSpace.push q v hv sc ps rhsv rr) = S (QSpace.size q).
Proof. unfold QSpace.size, QSpace.push; simpl. rewrite length_app; simpl; lia. Qed.

Lemma size_add_solution (q : QSpace.t T) p a ps rhsv rr :
  QSpace.size (QSpace.add_solution q p a ps rhsv rr) = S (QSpace.size q).
Proof. apply size_push. Qed.

Lemma size_add_difference (q : QSpace.t T) p a d hd ps rhsv rr o :
  QSpace.size (QSpace.add_difference q p a d hd ps rhsv rr o) = S (QSpace.size q).
Proof. apply size_push. Qed.

Lemma keys_push (q : QSpace.t T) v hv sc ps rhsv rr :
  QSpace.keys (QSpace.push q v hv sc ps rhsv rr) = QSpace.keys q ++ [QSpace.next_key q].
Proof. unfold QSpace.keys, QSpace.push; simpl. now rewrite map_app. Qed.

End QSpaceFacts.

(** ** Conditioning of the subspace: [propose_singularity_deletion] and
    [buildSubspace] *)

Section ConditioningFacts.
Context {T : Type} {ops : VectorOps T}.
Variable K : Platform.

Lemma find_some_first {A} (p : A -> bool) (l : list A) (x : A) :
  find p l = Some x <->
  exists before after,
    l = before ++ x :: after /\ p x = true /\ Forall (fun y => p y = false) before.
Proof.
  split.
  - revert x. induction l as [|a l IH]; intros x H; simpl in H; [discriminate|].
    destruct (p a) eqn:Ea.
    + injection H as <-. exists [], l. repeat split; auto.
    + destruct (IH x H) as (b & af & -> & Hx & Hb).
      exists (a :: b), af. repeat split; auto.
  - intros (b & af & -> & Hx & Hb). induction Hb as [|y b Hy Hb IH]; simpl.
    + now rewrite Hx.
    + now rewrite Hy.
Qed.

Lemma find_none_iff {A} (p : A -> bool) (l : list A) :
  find p l = None <-> Forall (fun y => p y = false) l.
Proof.
  induction l as [|a l IH]; simpl.
  - split; auto.
  - destruct (p a) eqn:Ea.
    + split; [discriminate|]. intro H. inversion H; congruence.
    + rewrite IH. split; [now constructor|]. intro H. now inversion H.
Qed.

Lemma propose_unfold n ndim m cands thr :
  propose_singularity_deletion K n ndim m cands thr =
  if Num.gt (smallest_singular_value K n ndim m) thr then None
  else find (fun k => Num.gt (coefficient K n ndim m k) 1e-3%float) cands.
Proof. reflexivity. Qed.

Lemma qspace_assemble (s : Solver T) : m_qspace (assemble s) = m_qspace s.
Proof. reflexivity. Qed.

Lemma size_evict (s : Solver T) (del : nat) :
  del - length (m_pspace s) < QSpace.size (m_qspace s) ->
  QSpace.size (m_qspace (evict s del)) = QSpace.size (m_qspace s) - 1.
Proof. intro H. unfold evict; cbn. now apply size_remove. Qed.

Lemma candidates_spec (s : Solver T) (k : nat) :
  In k (candidates s) <->
  exists a, k = length (m_pspace s) + a /\ a < QSpace.size (m_qspace s)
            /\ Util.map_count a (solutions_q s) = 0.
Proof.
  unfold candidates. rewrite in_map_iff. split.
  - intros (a & <- & Ha). apply filter_In in Ha. destruct Ha as [Ha Hc].
    apply in_seq in Ha. apply Nat.eqb_eq in Hc. exists a. repeat split; auto; lia.
  - intros (a & -> & Ha & Hc). exists a. split; [reflexivity|].
    apply filter_In. split; [apply in_seq; lia | now apply Nat.eqb_eq].
Qed.

Lemma proposed_deletion_candidate (s : Solver T) (del : nat) :
  proposed_deletion K s = Some del -> In del (candidates s).
Proof.
  unfold proposed_deletion. rewrite propose_unfold.
  destruct (Num.gt _ _); [discriminate|]. intro H.
  apply find_some in H. tauto.
Qed.

Lemma proposed_deletion_in_Q (s : Solver T) (del : nat) :
  proposed_deletion K s = Some del ->
  length (m_pspace s) <= del /\ del - length (m_pspace s) < QSpace.size (m_qspace s).
Proof.
  intro H. apply proposed_deletion_candidate, candidates_spec in H.
  destruct H as (a & -> & Ha & _). lia.
Qed.

Lemma buildSubspace_rec_unfold (fuel : nat) (s : Solver T) :
  buildSubspace_rec K fuel s =
  if 0 <? QSpace.size (m_qspace s) then
    match proposed_deletion K (assemble s), fuel with
    | Some del, S fuel' => buildSubspace_rec K fuel' (evict (assemble s) del)
    | _, _ => assemble s
    end
  else assemble s.
Proof. destruct fuel; reflexivity. Qed.

Lemma buildSubspace_rec_fuel (f1 : nat) :
  forall (f2 : nat) (s : Solver T),
    QSpace.size (m_qspace s) <= f1 -> QSpace.size (m_qspace s) <= f2 ->
    buildSubspace_rec K f1 s = buildSubspace_rec K f2 s.
Proof.
  induction f1 as [|f1 IH]; intros f2 s H1 H2;
    rewrite (buildSubspace_rec_unfold _ s), (buildSubspace_rec_unfold f2 s).
  - replace (QSpace.size (m_qspace s)) with 0 by lia. reflexivity.
  - destruct (0 <? QSpace.size (m_qspace s)) eqn:E; [|reflexivity].
    apply Nat.ltb_lt in E.
    destruct (proposed_deletion K (assemble s)) as [del|] eqn:Ed; [|reflexivity].
    pose proof (proposed_deletion_in_Q _ _ Ed) as [_ Hlt].
    pose proof (size_evict (assemble s) del Hlt) as Hs.
    change (m_qspace (assemble s)) with (m_qspace s) in Hs, Hlt.
    destruct f2 as [|f2]; [lia|].
    apply IH; rewrite Hs; lia.
Qed.

(** [buildSubspace] satisfies the recursive equation of the C++ function:
    the fuel never runs out. *)
Lemma buildSubspace_equation (s : Solver T) :
  buildSubspace K s =
  if 0 <? QSpace.size (m_qspace s) then
    match proposed_deletion K (assemble s) with
    | Some del => buildSubspace K (evict (assemble s) del)
    | None => assemble s
    end
  else assemble s.
Proof.
  unfold buildSubspace. rewrite buildSubspace_rec_unfold.
  destruct (0 <? QSpace.size (m_qspace s)) eqn:E; [|reflexivity].
  apply Nat.ltb_lt in E.
  destruct (proposed_deletion K (assemble s)) as [del|] eqn:Ed; [|reflexivity].
  pose proof (proposed_deletion_in_Q _ _ Ed) as [_ Hlt].
  pose proof (size_evict (assemble s) del Hlt) as Hs.
  change (m_qspace (assemble s)) with (m_qspace s) in Hs, Hlt.
  destruct (QSpace.size (m_qspace s)) as [|n] eqn:En; [lia|].
  apply buildSubspace_rec_fuel; rewrite Hs; lia.
Qed.

End ConditioningFacts.

(** *** Which Q vectors are candidates *)

Section CandidateFacts.
Context {T : Type} {ops : VectorOps T}.

Lemma map_count_assign (k k' v : nat) (m : Util.intmap) :
  Util.map_count k (Util.map_assign k' v m) =
  if k =? k' then 1 else Util.map_count k m.
Proof.
  unfold Util.map_count.
  induction m as [|[k0 v0] m IH]; simpl.
  - rewrite Nat.eqb_sym. destruct (k =? k'); reflexivity.
  - destruct (k' =? k0) eqn:E1.
    + apply Nat.eqb_eq in E1; subst k0. simpl.
      rewrite (Nat.eqb_sym k' k). destruct (k =? k'); reflexivity.
    + destruct (k' <? k0) eqn:E2; simpl.
      * rewrite (Nat.eqb_sym k' k). destruct (k =? k'); simpl; reflexivity.
      * destruct (k0 =? k) eqn:E3; simpl.
        -- apply Nat.eqb_eq in E3; subst k0.
           rewrite (Nat.eqb_sym k k'), E1. reflexivity.
        -- exact IH.
Qed.

Lemma map_count_01 (k : nat) (m : Util.intmap) :
  Util.map_count k m = 0 \/ Util.map_count k m = 1.
Proof. unfold Util.map_count. destruct (existsb _ m); auto. Qed.

(** One root's contribution to [solutions_q]. *)
Lemma count_inner_fold (keys : list nat) (x : nat * nat) (a : nat) :
  forall (idx : list nat) (acc : Util.intmap),
    Util.map_count a
      (fold_left (fun acc k => if nth k keys 0 =? snd x
                               then Util.map_assign k (fst x) acc else acc) idx acc) = 0
    <-> Util.map_count a acc = 0 /\ (In a idx -> nth a keys 0 <> snd x).
Proof.
  induction idx as [|k idx IH]; intro acc; simpl.
  - tauto.
  - rewrite IH. destruct (nth k keys 0 =? snd x) eqn:E.
    + apply Nat.eqb_eq in E. rewrite map_count_assign.
      destruct (a =? k) eqn:Ea.
      * apply Nat.eqb_eq in Ea; subst k. split; [intros [H _]; discriminate|].
        intros [_ H]. exfalso. apply H; auto.
      * apply Nat.eqb_neq in Ea. split.
        -- intros [H1 H2]. split; [assumption|]. intros [Hk|Hin]; [congruence|auto].
        -- intros [H1 H2]. split; [assumption|]. auto.
    + apply Nat.eqb_neq in E. split.
      * intros [H1 H2]. split; [assumption|]. intros [Hk|Hin]; [subst; assumption|auto].
      * intros [H1 H2]. split; [assumption|]. auto.
Qed.

Lemma count_outer_fold (keys : list nat) (a : nat) :
  forall (sols : Util.intmap) (acc : Util.intmap),
    a < length keys ->
    (Util.map_count a
       (fold_left (fun acc x =>
                     fold_left (fun acc k => if nth k keys 0 =? snd x
                                             then Util.map_assign k (fst x) acc else acc)
                               (seq 0 (length keys)) acc) sols acc) = 0
     <-> Util.map_count a acc = 0 /\ forall x, In x sols -> nth a keys 0 <> snd x).
Proof.
  induction sols as [|x sols IH]; intros acc Ha; simpl.
  - split; [intro H; split; [assumption|intros x []] | tauto].
  - rewrite IH by assumption. rewrite count_inner_fold. split.
    + intros [[H1 H2] H3]. split; [assumption|].
      intros y [<-|Hy]; [apply H2, in_seq; lia | auto].
    + intros [H1 H2]. split; [split; [assumption|intros _; apply H2; auto]|].
      intros y Hy. apply H2; auto.
Qed.

(** A Q vector is a candidate exactly when its key is not recorded in
    [m_q_solutions]. *)
Lemma candidates_keys (s : Solver T) (k : nat) :
  In k (candidates s) <->
  exists a, k = length (m_pspace s) + a /\ a < QSpace.size (m_qspace s)
            /\ forall root, ~ In (root, nth a (QSpace.keys (m_qspace s)) 0) (m_q_solutions s).
Proof.
  rewrite candidates_spec.
  assert (Hlen : length (QSpace.keys (m_qspace s)) = QSpace.size (m_qspace s))
    by (unfold QSpace.keys, QSpace.size; apply length_map).
  split; intros (a & -> & Ha & Hc); exists a; repeat split; auto.
  - unfold solutions_q in Hc. apply count_outer_fold in Hc; [|lia].
    destruct Hc as [_ Hc]. intros root Hin. apply (Hc _ Hin). reflexivity.
  - unfold solutions_q. apply count_outer_fold; [lia|]. split; [reflexivity|].
    intros [root key] Hin Heq. simpl in Heq. subst key. exact (Hc root Hin).
Qed.

End CandidateFacts.

(** C2 (amended).  In [buildSubspace], after the assembly and when nQ > 0, the
    singular value decomposition of the leading block of the overlap (of the
    matrix when the eigen-residual convention is off) is examined with the
    threshold 1e6 when nQ exceeds maxQ and the configured singularity
    threshold otherwise.  The candidates are the Q vectors whose key is not
    recorded as a converged solution.  Nothing is evicted when nQ = 0, when the
    smallest singular value is greater than the threshold, or when no
    candidate has a coefficient of magnitude above 1e-3 in the singular
    vector of the smallest singular value.  Otherwise, that is when the
    smallest singular value is not greater than the threshold, the first
    candidate in ascending order whose coefficient exceeds 1e-3 in magnitude
    is removed from Q, whatever the size of the later coefficients, and the
    subspace is built again. *)
Theorem C2_singularity_deletion :
  forall (T : Type) (ops : VectorOps T) (K : Platform) (s : Solver T),
    let s1 := assemble s in
    let nP := length (m_pspace s) in
    let nQ := QSpace.size (m_qspace s) in
    let nR := length (m_s_rr s) in
    let nX := nP + nQ + nR in
    let n := if m_exclude_r_from_redundancy_test s then nX - nR else nX in
    let tester :=
      Mat.raw (if m_residual_eigen s then m_subspaceOverlap s1 else m_subspaceMatrix s1) in
    let sigma_min := smallest_singular_value K n nX tester in
    let threshold := if m_maxQ s <? nQ then 1e6%float else m_singularity_threshold s in
    let large k := Num.gt (coefficient K n nX tester k) 1e-3%float in
    (forall k, In k (candidates s1) <->
       exists a, k = nP + a /\ a < nQ /\
         forall root, ~ In (root, nth a (QSpace.keys (m_qspace s)) 0) (m_q_solutions s))
    /\ (nQ = 0 \/ Num.gt sigma_min threshold = true
        \/ Forall (fun k => large k = false) (candidates s1) ->
        buildSubspace K s = s1)
    /\ (forall k before after,
          0 < nQ -> Num.gt sigma_min threshold = false ->
          candidates s1 = before ++ k :: after ->
          large k = true -> Forall (fun j => large j = false) before ->
          buildSubspace K s = buildSubspace K (evict s1 k)
          /\ QSpace.keys (m_qspace (evict s1 k))
             = Util.remove_nth (k - nP) (QSpace.keys (m_qspace s))).
Proof.
  intros T ops K s s1 nP nQ nR nX n tester sigma_min threshold large.
  assert (Hprop : proposed_deletion K s1 =
                  if Num.gt sigma_min threshold then None
                  else find large (candidates s1)) by reflexivity.
  split; [|split].
  - intro k. apply (candidates_keys s1 k).
  - intros H. rewrite buildSubspace_equation. fold s1.
    destruct (0 <? QSpace.size (m_qspace s)) eqn:E; [|reflexivity].
    rewrite Hprop. destruct H as [H|[H|H]].
    + apply Nat.ltb_lt in E. unfold nQ in H. lia.
    + now rewrite H.
    + destruct (Num.gt sigma_min threshold); [reflexivity|].
      apply find_none_iff in H. now rewrite H.
  - intros k before after HnQ Hs Hc Hk Hb.
    rewrite buildSubspace_equation. fold s1.
    apply Nat.ltb_lt in HnQ. unfold nQ in HnQ. rewrite HnQ, Hprop, Hs.
    assert (Hf : find large (candidates s1) = Some k).
    { apply find_some_first. exists before, after. auto. }
    rewrite Hf. split; [reflexivity|]. apply keys_remove.
Qed.

(** ** What the reduced solves leave alone *)

Section FrameFacts.
Context {T : Type} {ops : VectorOps T}.
Variable K : Platform.

Lemma same_bookkeeping_refl (s : Solver T) : same_bookkeeping s s.
Proof. repeat split. Qed.

Lemma same_bookkeeping_trans (s1 s2 s3 : Solver T) :
  same_bookkeeping s1 s2 -> same_bookkeeping s2 s3 -> same_bookkeeping s1 s3.
Proof.
  unfold same_bookkeeping. intros H1 H2.
  decompose [and] H1. decompose [and] H2. repeat split; congruence.
Qed.

Lemma LinearEigensystem_frame (s s' : Solver T) (b : bool) :
  LinearEigensystem_solveReducedProblem K s = Ok (b, s') -> same_bookkeeping s s'.
Proof.
  unfold LinearEigensystem_solveReducedProblem, diagonalizeSubspaceMatrix.
  destruct (m_rspt s); [discriminate|].
  destruct (unsorted_eigenvectors K (reduce K s)); [|discriminate].
  cbn. intro H. injection H as _ <-. repeat split.
Qed.

Lemma augmented_hessian_root_frame (nX : nat) (s : Solver T) (root : nat) :
  same_bookkeeping s (augmented_hessian_root K nX s root).
Proof. repeat split. Qed.

Lemma LinearEquations_roots_frame (nX : nat) (roots : list nat) :
  forall s0 : Solver T,
    same_bookkeeping s0
      (fold_left (fun s root =>
                    if Num.gt (m_augmented_hessian s) 0%float
                    then augmented_hessian_root K nX s root
                    else set_interpolation
                           (householderQr_solve K (m_subspaceMatrix s) (m_subspaceRHS s)) s)
                 roots s0).
Proof.
  induction roots as [|r roots IH]; intro s0; simpl; [apply same_bookkeeping_refl|].
  eapply same_bookkeeping_trans; [|apply IH].
  destruct (Num.gt (m_augmented_hessian s0) 0%float).
  - apply augmented_hessian_root_frame.
  - repeat split.
Qed.

Lemma LinearEquations_frame (s s' : Solver T) (b : bool) :
  LinearEquations_solveReducedProblem K s = Ok (b, s') -> same_bookkeeping s s'.
Proof.
  unfold LinearEquations_solveReducedProblem. intro H. injection H as _ <-.
  match goal with
  | |- context [fold_left ?f ?roots ?s0] =>
      pose proof (LinearEquations_roots_frame
                    (length (m_pspace s) + QSpace.size (m_qspace s) + length (m_s_rr s))
                    roots s0) as H1;
      assert (H0 : same_bookkeeping s s0) by (repeat split)
  end.
  eapply same_bookkeeping_trans; [exact H0|].
  eapply same_bookkeeping_trans; [exact H1|]. repeat split.
Qed.

Lemma Optimize_frame (s s' : Solver T) (b : bool) :
  Optimize_solveReducedProblem s = Ok (b, s') -> same_bookkeeping s s'.
Proof.
  unfold Optimize_solveReducedProblem.
  assert (Ha : forall b0 s0, Optimize_accept s = (b0, s0) -> same_bookkeeping s s0).
  { unfold Optimize_accept. intros b0 s0 H. injection H as _ <-.
    destruct (String.eqb (m_algorithm _) "L-BFGS"); repeat split. }
  destruct (0 <? QSpace.size (m_qspace s)).
  - destruct (linesearch_quantities s) as [p|]; [|discriminate]. cbn.
    destruct (linesearch_decide s p) as [|alpha].
    + intro H. apply (Ha b s'). congruence.
    + intro H. injection H as _ <-. unfold Optimize_linesearch.
      destruct (Num.le (ls_f1 p) (ls_f0 p)); repeat split.
  - intro H. apply (Ha b s'). congruence.
Qed.

Lemma DIIS_frame (s s' : Solver T) (b : bool) :
  DIIS_solveReducedProblem K s = Ok (b, s') -> same_bookkeeping s s'.
Proof.
  unfold DIIS_solveReducedProblem.
  destruct (1 <? m_roots _); [discriminate|].
  destruct (Mat.rows (m_subspaceMatrix s)) as [|nDim]; [discriminate|].
  destruct (0 <? nDim).
  - destruct (existsb Num.isnan _); [discriminate|].
    cbn. intro H. injection H as _ <-. repeat split.
  - cbn. intro H. injection H as _ <-. repeat split.
Qed.

Lemma solveReducedProblem_frame (s s' : Solver T) (b : bool) :
  solveReducedProblem K s = Ok (b, s') -> same_bookkeeping s s'.
Proof.
  unfold solveReducedProblem. destruct (m_variant s).
  - apply LinearEigensystem_frame.
  - apply LinearEquations_frame.
  - apply Optimize_frame.
  - apply DIIS_frame.
Qed.

(** [buildSubspace] leaves Q with nothing more to evict, and never grows it. *)
Lemma buildSubspace_settled (n : nat) :
  forall s : Solver T,
    QSpace.size (m_qspace s) = n ->
    let s' := buildSubspace K s in
    (0 < QSpace.size (m_qspace s') -> proposed_deletion K s' = None)
    /\ QSpace.size (m_qspace s') <= n
    /\ m_maxQ s' = m_maxQ s /\ m_q_solutions s' = m_q_solutions s
    /\ m_pspace s' = m_pspace s /\ m_roots s' = m_roots s
    /\ m_linear s' = m_linear s /\ m_thresh s' = m_thresh s
    /\ m_working_set s' = m_working_set s
    /\ m_variant s' = m_variant s.
Proof.
  induction n as [n IH] using lt_wf_ind. intros s Hn. cbv zeta.
  rewrite buildSubspace_equation.
  destruct (0 <? QSpace.size (m_qspace s)) eqn:E.
  - destruct (proposed_deletion K (assemble s)) as [del|] eqn:Ed.
    + pose proof (proposed_deletion_in_Q _ _ _ Ed) as [_ Hlt].
      pose proof (size_evict (assemble s) del Hlt) as Hs.
      change (m_qspace (assemble s)) with (m_qspace s) in Hs, Hlt.
      assert (Hm : QSpace.size (m_qspace (evict (assemble s) del)) < n) by lia.
      destruct (IH _ Hm (evict (assemble s) del) eq_refl) as (H1 & H2 & H3).
      split; [exact H1|]. split; [lia|]. exact H3.
    + split; [intros _; exact Ed|]. split; [rewrite qspace_assemble; lia|].
      repeat split.
  - apply Nat.ltb_ge in E. split.
    + rewrite qspace_assemble. lia.
    + split; [rewrite qspace_assemble; lia|]. repeat split.
Qed.

End FrameFacts.

(** ** The loop of [addVector] that retires converged roots *)

Section RetireFacts.
Context {T : Type} {ops : VectorOps T}.

Lemma map_find_assign (k k' v : nat) (m : Util.intmap) :
  Util.map_find k (Util.map_assign k' v m) =
  if k =? k' then Some v else Util.map_find k m.
Proof.
  unfold Util.map_find.
  induction m as [|[k0 v0] m IH]; simpl.
  - rewrite Nat.eqb_sym. destruct (k =? k'); reflexivity.
  - destruct (k' =? k0) eqn:E1.
    + apply Nat.eqb_eq in E1; subst k0. simpl.
      rewrite (Nat.eqb_sym k' k). destruct (k =? k'); reflexivity.
    + destruct (k' <? k0) eqn:E2; simpl.
      * rewrite (Nat.eqb_sym k' k). destruct (k =? k'); simpl; reflexivity.
      * destruct (k0 =? k) eqn:E3; simpl.
        -- apply Nat.eqb_eq in E3; subst k0.
           rewrite (Nat.eqb_sym k k'), E1. reflexivity.
        -- exact IH.
Qed.

Lemma length_map_assign (k v : nat) (m : Util.intmap) :
  Util.map_count k m = 0 -> length (Util.map_assign k v m) = S (length m).
Proof.
  unfold Util.map_count.
  induction m as [|[k0 v0] m IH]; simpl; [reflexivity|].
  destruct (k0 =? k) eqn:E0; simpl; [discriminate|].
  rewrite Nat.eqb_sym, E0. intro H.
  destruct (k <? k0); simpl; [reflexivity|]. now rewrite IH.
Qed.

Lemma length_shift_down {A} (k n : nat) (l : list A) :
  k < n -> n <= length l -> length (shift_down k n l) = length l.
Proof.
  intros Hk Hn. unfold shift_down.
  rewrite !length_app, !length_skipn, !length_firstn. lia.
Qed.

Lemma remove_nth_middle {A} (kept : list A) (x : A) (rest : list A) :
  Util.remove_nth (length kept) (kept ++ x :: rest) = kept ++ rest.
Proof. induction kept as [|y kept IH]; simpl; [reflexivity|]. now rewrite IH. Qed.

Lemma nth_error_available {A} (l : list A) (k : nat) :
  k < length l -> exists x, nth_error l k = Some x.
Proof.
  intro H. destruct (nth_error l k) as [x|] eqn:E; [eauto|].
  apply nth_error_None in E. lia.
Qed.

(** What one pass of the loop body does, for a root that stands at position
    [length kept] of the working set. *)
Lemma retire_step_spec (st : retiring T) (kept todo : list nat) (root : nat) :
  let s := rt_solver st in
  m_working_set s = kept ++ root :: todo ->
  length (kept ++ root :: todo) <= length (rt_parameters st) ->
  length (kept ++ root :: todo) <= length (rt_action st) ->
  let st' := fst (retire_step st (length kept) root) in
  let k' := snd (retire_step st (length kept) root) in
  let s' := rt_solver st' in
  let fresh := converged s root && (Util.map_count root (m_q_solutions s) =? 0) in
  (m_linear s' = m_linear s /\ m_errors s' = m_errors s /\ m_thresh s' = m_thresh s
   /\ m_roots s' = m_roots s /\ m_maxQ s' = m_maxQ s
   /\ m_nullify_solution_before_update s' = m_nullify_solution_before_update s
   /\ m_current_r s' = m_current_r s /\ m_current_v s' = m_current_v s)
  /\ length (rt_parameters st') = length (rt_parameters st)
  /\ length (rt_action st') = length (rt_action st)
  /\ (if converged s root
      then m_working_set s' = kept ++ todo /\ k' = length kept
           /\ length (m_last_d s') = length (m_last_d s)
      else m_working_set s' = (kept ++ [root]) ++ todo /\ k' = length (kept ++ [root])
           /\ length (m_last_d s') = S (length (m_last_d s)))
  /\ (if fresh
      then QSpace.size (m_qspace s') = S (QSpace.size (m_qspace s))
           /\ m_q_solutions s'
              = Util.map_assign root (last (QSpace.keys (m_qspace s')) 0) (m_q_solutions s)
      else m_qspace s' = m_qspace s /\ m_q_solutions s' = m_q_solutions s).
Proof.
  intros s Hws Hp Ha. rewrite length_app in Hp, Ha. simpl in Hp, Ha.
  destruct (nth_error_available (rt_parameters st) (length kept)) as [p Ep]; [lia|].
  destruct (nth_error_available (rt_action st) (length kept)) as [a Ea]; [lia|].
  assert (Hn : length (m_working_set s) = length kept + S (length todo))
    by (rewrite Hws, length_app; reflexivity).
  unfold retire_step. fold s. rewrite Ep, Ea.
  destruct (converged s root) eqn:Ec;
    destruct (Util.map_count root (m_q_solutions s) =? 0) eqn:Ef;
    cbv [andb];
    repeat match goal with
           | |- context [converged ?x root] =>
               lazymatch x with
               | s => fail
               | _ => change (converged x root) with (converged s root)
               end
           end;
    rewrite Ec; solver_simpl; rewrite ?Hn.
  - repeat split; try reflexivity.
    + apply length_shift_down; lia.
    + apply length_shift_down; lia.
    + rewrite Hws. apply remove_nth_middle.
    + apply size_add_solution.
  - repeat split; try reflexivity.
    + apply length_shift_down; lia.
    + apply length_shift_down; lia.
    + rewrite Hws. apply remove_nth_middle.
  - repeat split; try reflexivity.
    + rewrite Hws, <- app_assoc. reflexivity.
    + rewrite length_app. simpl. lia.
    + rewrite length_app. simpl. lia.
  - repeat split; try reflexivity.
    + rewrite Hws, <- app_assoc. reflexivity.
    + rewrite length_app. simpl. lia.
    + rewrite length_app. simpl. lia.
Qed.

Lemma converged_ext (s s' : Solver T) (root : nat) :
  m_linear s' = m_linear s -> m_errors s' = m_errors s -> m_thresh s' = m_thresh s ->
  converged s' root = converged s root.
Proof. unfold converged. now intros -> -> ->. Qed.

Lemma retire_loop_cons (st : retiring T) (root : nat) (todo : list nat) (k : nat) :
  retire_loop (root :: todo) k st =
  retire_loop todo (snd (retire_step st k root)) (fst (retire_step st k root)).
Proof. simpl. destruct (retire_step st k root). reflexivity. Qed.

(** The loop as a whole: the roots that stay are those not converged, in
    their order; a converged root is recorded in [m_q_solutions], with one
    new Q vector, unless it is recorded already; no record is changed. *)
Lemma retire_loop_spec (todo : list nat) :
  forall (kept : list nat) (st : retiring T),
    let s := rt_solver st in
    m_working_set s = kept ++ todo ->
    length (kept ++ todo) <= length (rt_parameters st) ->
    length (kept ++ todo) <= length (rt_action st) ->
    let st' := retire_loop todo (length kept) st in
    let s' := rt_solver st' in
    (m_linear s' = m_linear s /\ m_errors s' = m_errors s /\ m_thresh s' = m_thresh s
     /\ m_roots s' = m_roots s /\ m_maxQ s' = m_maxQ s
     /\ m_nullify_solution_before_update s' = m_nullify_solution_before_update s
     /\ m_current_r s' = m_current_r s /\ m_current_v s' = m_current_v s)
    /\ length (rt_parameters st') = length (rt_parameters st)
    /\ length (rt_action st') = length (rt_action st)
    /\ m_working_set s' = kept ++ filter (fun r => negb (converged s r)) todo
    /\ length (m_last_d s')
       = length (m_last_d s) + length (filter (fun r => negb (converged s r)) todo)
    /\ QSpace.size (m_qspace s') + length (m_q_solutions s)
       = QSpace.size (m_qspace s) + length (m_q_solutions s')
    /\ (forall r, Util.map_count r (m_q_solutions s') = 1 <->
                  Util.map_count r (m_q_solutions s) = 1
                  \/ (In r todo /\ converged s r = true))
    /\ (forall r, Util.map_count r (m_q_solutions s) = 1 ->
                  Util.map_find r (m_q_solutions s') = Util.map_find r (m_q_solutions s)).
Proof.
  induction todo as [|root todo IH]; intros kept st s Hws Hp Ha.
  - cbv zeta. simpl. fold s. rewrite Hws. repeat split; auto; try lia; tauto.
  - cbv zeta. rewrite retire_loop_cons.
    pose proof (retire_step_spec st kept todo root Hws Hp Ha) as Hstep.
    cbv zeta in Hstep. fold s in Hstep.
    destruct Hstep as (Hframe & Hlp & Hla & Hconv & Hfresh).
    set (st1 := fst (retire_step st (length kept) root)) in *.
    set (k1 := snd (retire_step st (length kept) root)) in *.
    destruct Hframe as (F1 & F2 & F3 & F4 & F5 & F6 & F7 & F8).
    assert (Hce : forall r, converged (rt_solver st1) r = converged s r)
      by (intro r; apply converged_ext; assumption).
    assert (Hfilter : filter (fun r => negb (converged (rt_solver st1) r)) todo
                      = filter (fun r => negb (converged s r)) todo)
      by (apply filter_ext; intro r; now rewrite Hce).
    rewrite length_app in Hp, Ha. simpl in Hp, Ha.
    assert (Hcount : forall r,
      Util.map_count r (m_q_solutions (rt_solver st1)) =
      if converged s root && (Util.map_count root (m_q_solutions s) =? 0) && (r =? root)
      then 1 else Util.map_count r (m_q_solutions s)).
    { intro r. destruct (converged s root && _) eqn:Efr.
      - destruct Hfresh as [_ ->]. rewrite map_count_assign. reflexivity.
      - destruct Hfresh as [_ ->]. reflexivity. }
    assert (Hsize : QSpace.size (m_qspace (rt_solver st1)) + length (m_q_solutions s)
                    = QSpace.size (m_qspace s) + length (m_q_solutions (rt_solver st1))).
    { destruct (converged s root && _) eqn:Efr.
      - destruct Hfresh as [-> ->]. apply andb_prop in Efr. destruct Efr as [_ Efr].
        apply Nat.eqb_eq in Efr. rewrite length_map_assign by exact Efr. lia.
      - destruct Hfresh as [-> ->]. reflexivity. }
    assert (Hfind : forall r, Util.map_count r (m_q_solutions s) = 1 ->
      Util.map_find r (m_q_solutions (rt_solver st1)) = Util.map_find r (m_q_solutions s)).
    { intros r Hr. destruct (converged s root && _) eqn:Efr.
      - destruct Hfresh as [_ ->]. rewrite map_find_assign.
        destruct (r =? root) eqn:Er; [|reflexivity].
        apply Nat.eqb_eq in Er; subst r. apply andb_prop in Efr. destruct Efr as [_ Efr].
        apply Nat.eqb_eq in Efr. congruence.
      - destruct Hfresh as [_ ->]. reflexivity. }
    destruct (converged s root) eqn:Ec.
    + destruct Hconv as (Hws1 & Hk1 & Hld).
      simpl andb in Hcount.
      rewrite Hk1.
      assert (Hp1 : length (kept ++ todo) <= length (rt_parameters st1))
        by (rewrite length_app; lia).
      assert (Ha1 : length (kept ++ todo) <= length (rt_action st1))
        by (rewrite length_app; lia).
      destruct (IH kept st1 Hws1 Hp1 Ha1)
        as ((G1 & G2 & G3 & G4 & G5 & G6 & G7 & G8) & Ilp & Ila & Iws & Ild & Isz & Icnt & Ifd).
      simpl filter. rewrite Ec. simpl negb. cbv iota.
      split; [repeat split; congruence|].
      split; [congruence|]. split; [congruence|].
      split; [|split; [|split; [|split; [split|]]]].
      * rewrite Iws, Hfilter. reflexivity.
      * rewrite Ild, Hfilter, Hld. reflexivity.
      * lia.
      * intro H. apply Icnt in H. destruct H as [H|[Hin Hc]].
        -- rewrite Hcount in H.
           destruct (Util.map_count root (m_q_solutions s) =? 0) eqn:E0; simpl in H.
           ++ destruct (r =? root) eqn:Er; [|auto].
              apply Nat.eqb_eq in Er; subst r. right. split; [now left|exact Ec].
           ++ auto.
        -- right. split; [now right|]. now rewrite <- Hce.
      * intros [H|[[Hr|Hin] Hc]]; apply Icnt.
        -- left. rewrite Hcount.
           destruct ((Util.map_count root (m_q_solutions s) =? 0) && (r =? root));
             [reflexivity|exact H].
        -- subst r. left. rewrite Hcount. rewrite Nat.eqb_refl.
           destruct (Util.map_count root (m_q_solutions s) =? 0) eqn:E0; [reflexivity|].
           simpl. apply Nat.eqb_neq in E0.
           destruct (map_count_01 root (m_q_solutions s)); [contradiction|assumption].
        -- right. split; [exact Hin|]. now rewrite Hce.
      * intros r Hr. rewrite Ifd; [apply Hfind; exact Hr|].
        rewrite Hcount.
        destruct ((Util.map_count root (m_q_solutions s) =? 0) && (r =? root));
          [reflexivity|exact Hr].
    + destruct Hconv as (Hws1 & Hk1 & Hld).
      rewrite Hk1.
      assert (Hp1 : length ((kept ++ [root]) ++ todo) <= length (rt_parameters st1))
        by (rewrite !length_app; simpl; lia).
      assert (Ha1 : length ((kept ++ [root]) ++ todo) <= length (rt_action st1))
        by (rewrite !length_app; simpl; lia).
      destruct (IH (kept ++ [root]) st1 Hws1 Hp1 Ha1)
        as ((G1 & G2 & G3 & G4 & G5 & G6 & G7 & G8) & Ilp & Ila & Iws & Ild & Isz & Icnt & Ifd).
      simpl filter. rewrite Ec. simpl negb. cbv iota.
      simpl andb in Hcount.
      split; [repeat split; congruence|].
      split; [congruence|]. split; [congruence|].
      split; [|split; [|split; [|split; [split|]]]].
      * rewrite Iws, Hfilter, <- app_assoc. reflexivity.
      * rewrite Ild, Hfilter, Hld. simpl. lia.
      * lia.
      * intro H. apply Icnt in H. destruct H as [H|[Hin Hc]].
        -- rewrite Hcount in H. auto.
        -- right. split; [now right|]. now rewrite <- Hce.
      * intros [H|[[Hr|Hin] Hc]]; apply Icnt.
        -- left. now rewrite Hcount.
        -- subst r. congruence.
        -- right. split; [exact Hin|]. now rewrite Hce.
      * intros r Hr. rewrite Ifd; [apply Hfind; exact Hr|]. now rewrite Hcount.
Qed.

End RetireFacts.

(** ** [doInterpolation] and the caller's vectors *)

Section InterpolationFacts.
Context {T : Type} {ops : VectorOps T}.

Lemma length_update_nth {A} (i : nat) (x : A) (l : list A) :
  length (Util.update_nth i x l) = length l.
Proof.
  revert i; induction l as [|y l IH]; intro i; destruct i; simpl; auto.
Qed.

Lemma interpolation_fold_throw (s : Solver T) nQ ao (l : list (nat * nat)) (e : exn) :
  fold_left (interpolation_step s nQ ao) l (Throw e) = Throw e.
Proof. induction l as [|kr l IH]; simpl; [reflexivity|exact IH]. Qed.

Lemma interpolation_step_lengths (s : Solver T) nQ ao sol res solP kr sol' res' solP' :
  interpolation_step s nQ ao (Ok (sol, res, solP)) kr = Ok (sol', res', solP') ->
  length sol' = length sol /\ length res' = length res.
Proof.
  unfold interpolation_step. cbn [bind].
  destruct (nth_error sol (fst kr)) as [x|]; [|discriminate].
  destruct (nth_error res (fst kr)) as [y|]; [|discriminate].
  destruct (interpolate_root s nQ ao (snd kr) _) as [[[x' y'] p']|]; [|discriminate].
  cbn [bind]. intro H. injection H as <- <- <-.
  now rewrite !length_update_nth.
Qed.

Lemma interpolation_fold_lengths (s : Solver T) nQ ao (l : list (nat * nat)) :
  forall sol res solP sol' res' solP',
    fold_left (interpolation_step s nQ ao) l (Ok (sol, res, solP)) = Ok (sol', res', solP') ->
    length sol' = length sol /\ length res' = length res.
Proof.
  induction l as [|kr l IH]; intros sol res solP sol' res' solP' H; cbn [fold_left] in H.
  - injection H as <- <- <-. auto.
  - destruct (interpolation_step s nQ ao (Ok (sol, res, solP)) kr) as [[[s1 r1] p1]|e] eqn:E.
    + apply interpolation_step_lengths in E. apply IH in H. destruct E, H. split; congruence.
    + now rewrite interpolation_fold_throw in H.
Qed.

Lemma in_combine_seq {A} (l : list A) (d : A) (k : nat) :
  forall a, k < length l -> In (a + k, nth k l d) (combine (seq a (length l)) l).
Proof.
  revert k. induction l as [|x l IH]; intros k a Hk; simpl in *; [lia|].
  destruct k as [|k].
  - left. f_equal. lia.
  - right. replace (a + S k) with (S a + k) by lia. apply IH. lia.
Qed.

Lemma interpolation_fold_reach (s : Solver T) nQ ao (l : list (nat * nat)) :
  forall sol res solP r,
    fold_left (interpolation_step s nQ ao) l (Ok (sol, res, solP)) = Ok r ->
    forall kr, In kr l -> fst kr < length res.
Proof.
  induction l as [|kr0 l IH]; intros sol res solP r H kr Hin; [destruct Hin|].
  cbn [fold_left] in H.
  destruct (interpolation_step s nQ ao (Ok (sol, res, solP)) kr0) as [[[s1 r1] p1]|e] eqn:E.
  - destruct Hin as [<-|Hin].
    + unfold interpolation_step in E. cbn [bind] in E.
      destruct (nth_error sol (fst kr0)); [|discriminate].
      destruct (nth_error res (fst kr0)) eqn:Er; [|discriminate].
      apply nth_error_Some. congruence.
    + apply interpolation_step_lengths in E. destruct E as [_ <-].
      eapply IH; eassumption.
  - now rewrite interpolation_fold_throw in H.
Qed.

(** [doInterpolation] returns only when every root of the working set has a
    solution and a residual vector to write to. *)
Lemma doInterpolation_reach (s : Solver T) (cv cv' : caller_vectors T) (ao : bool) :
  doInterpolation s cv ao = Ok cv' ->
  length (m_working_set s) <= length (parameters cv)
  /\ length (m_working_set s) <= length (action cv).
Proof.
  unfold doInterpolation.
  destruct (assert _ "nQ <= m_qspace.size()"); [|discriminate]. cbn [bind].
  destruct (assert _ "m_working_set.size() <= solution.size()") eqn:Ea; [|discriminate].
  cbn [bind].
  destruct (assert _ "nP == 0 || solutionP.size() == residual.size()"); [|discriminate].
  cbn [bind].
  destruct (fold_left _ _ _) as [[[sol res] solP]|] eqn:E; [|discriminate].
  intros _. split.
  - unfold assert in Ea.
    destruct (length (m_working_set s) <=? _) eqn:El; [|discriminate].
    apply Nat.leb_le in El. now rewrite length_map in El.
  - destruct (Nat.eq_dec (length (m_working_set s)) 0) as [E0|E0]; [lia|].
    pose proof (interpolation_fold_reach _ _ _ _ _ _ _ _ E
                  (0 + (length (m_working_set s) - 1),
                   nth (length (m_working_set s) - 1) (m_working_set s) 0)) as H.
    rewrite length_map in H. cbn [fst] in H.
    assert (Hin := in_combine_seq (m_working_set s) 0 (length (m_working_set s) - 1) 0).
    specialize (H (Hin ltac:(lia))). lia.
Qed.

(** [doInterpolation] keeps the number of the caller's vectors. *)
Lemma doInterpolation_lengths (s : Solver T) (cv cv' : caller_vectors T) (ao : bool) :
  doInterpolation s cv ao = Ok cv' ->
  length (parameters cv') = length (parameters cv)
  /\ length (action cv') = length (action cv).
Proof.
  unfold doInterpolation.
  destruct (assert _ "nQ <= m_qspace.size()"); [|discriminate]. cbn [bind].
  destruct (assert _ "m_working_set.size() <= solution.size()"); [|discriminate].
  cbn [bind].
  destruct (assert _ "nP == 0 || solutionP.size() == residual.size()"); [|discriminate].
  cbn [bind].
  destruct (fold_left _ _ _) as [[[sol res] solP]|] eqn:E; [|discriminate].
  cbn [bind]. intro H. injection H as <-. solver_simpl.
  apply interpolation_fold_lengths in E. now rewrite !length_map in E.
Qed.

End InterpolationFacts.

(** ** [addVector] *)

Section AddVectorFacts.
Context {T : Type} {ops : VectorOps T}.
Variable K : Platform.

Lemma addVector_enter_frame (s s1 : Solver T) (cv cv1 : caller_vectors T) :
  addVector_enter s cv = Ok (s1, cv1) ->
  m_q_solutions s1 = m_q_solutions s /\ m_maxQ s1 = m_maxQ s.
Proof.
  unfold addVector_enter.
  destruct (assert _ "parameters.size() >= m_working_set.size()"); [|discriminate].
  cbn [bind].
  destruct (assert _ "parameters.size() == action.size()"); [|discriminate].
  cbn [bind]. solver_simpl.
  destruct (0 <? length (m_last_d s)).
  - destruct (assert _ "m_last_d.size() == m_working_set.size()"); [|discriminate].
    cbn [bind].
    destruct (assert _ "m_last_hd.size() == m_working_set.size()"); [|discriminate].
    cbn [bind]. intro H. injection H as <- _. split; reflexivity.
  - cbn [bind]. intro H. injection H as <- _. split; reflexivity.
Qed.

Lemma nullify_frame (s s' : Solver T) (cv cv' : caller_vectors T) :
  nullify s cv = (s', cv') ->
  m_working_set s' = m_working_set s /\ m_errors s' = m_errors s
  /\ m_linear s' = m_linear s /\ m_thresh s' = m_thresh s /\ m_roots s' = m_roots s
  /\ m_maxQ s' = m_maxQ s /\ m_qspace s' = m_qspace s
  /\ m_q_solutions s' = m_q_solutions s.
Proof.
  unfold nullify. destruct (m_nullify_solution_before_update s);
    intro H; injection H as <- <-; repeat split.
Qed.

(** The second half of [addVector], from the point where the working set is
    reset to all roots. *)
Lemma addVector_leave_spec (s s' : Solver T) (cv cv' : caller_vectors T) (n : nat) :
  addVector_leave s cv = Ok (n, s', cv') ->
  n = length (m_working_set s')
  /\ m_working_set s' = filter (fun r => negb (converged s' r)) (seq 0 (m_roots s'))
  /\ m_roots s' = m_roots s /\ m_linear s' = m_linear s /\ m_thresh s' = m_thresh s
  /\ m_maxQ s' = m_maxQ s
  /\ QSpace.size (m_qspace s') + length (m_q_solutions s)
     = QSpace.size (m_qspace s) + length (m_q_solutions s')
  /\ (forall r, Util.map_count r (m_q_solutions s') = 1 <->
                Util.map_count r (m_q_solutions s) = 1
                \/ (r < m_roots s' /\ converged s' r = true))
  /\ (forall r, Util.map_count r (m_q_solutions s) = 1 ->
                Util.map_find r (m_q_solutions s') = Util.map_find r (m_q_solutions s)).
Proof.
  unfold addVector_leave.
  destruct (length (parameters cv) <? m_roots s) eqn:Eroots; [discriminate|].
  apply Nat.ltb_ge in Eroots.
  set (s1 := set_working_set _ (set_errors _ s)).
  destruct (if m_linear s1 then doInterpolation s1 cv false else Ok cv) as [cv1|] eqn:E1;
    [|discriminate].
  cbn [bind].
  set (s2 := set_errors _ s1).
  destruct (doInterpolation s2 cv1 true) as [cv2|] eqn:E2; [|discriminate].
  cbn [bind].
  set (s3 := set_last_hd [] (set_last_d [] s2)).
  set (st := retire_loop (m_working_set s3) 0 (mkRetiring s3 (parameters cv2) (action cv2))).
  destruct (assert _ "m_last_d.size() == m_working_set.size()"); [|discriminate].
  cbn [bind].
  destruct (doInterpolation (rt_solver st) _ false) as [cv3|] eqn:E3; [|discriminate].
  cbn [bind].
  destruct (nullify (rt_solver st) cv3) as [s4 cv4] eqn:En.
  intro H. injection H as <- <- <-.
  set (s5 := set_current_v [] (set_current_r [] s4)).
  apply nullify_frame in En.
  destruct En as (N1 & N2 & N3 & N4 & N5 & N6 & N7 & N8).
  assert (Hl1 : length (parameters cv1) = length (parameters cv)
                /\ length (action cv1) = length (action cv)).
  { destruct (m_linear s1); [now apply doInterpolation_lengths in E1|].
    injection E1 as <-. auto. }
  pose proof (doInterpolation_reach _ _ _ _ E2) as [_ Hreach].
  apply doInterpolation_lengths in E2.
  change (length (m_working_set s2)) with (length (seq 0 (m_roots s))) in Hreach.
  rewrite length_seq in Hreach.
  pose proof (retire_loop_spec (seq 0 (m_roots s)) []
                (mkRetiring s3 (parameters cv2) (action cv2))) as Hloop.
  cbv zeta in Hloop. solver_simpl_in Hloop.
  specialize (Hloop eq_refl).
  cbn [app length] in Hloop. rewrite length_seq in Hloop.
  change (retire_loop (seq 0 (m_roots s)) 0
                      (mkRetiring s3 (parameters cv2) (action cv2))) with st in Hloop.
  destruct Hloop as ((L1 & L2 & L3 & L4 & L5 & _) & _ & _ & Lws & _ & Lsz & Lcnt & Lfd);
    [lia | lia |].
  assert (Hc : forall r, converged s5 r = converged s3 r).
  { intro r. apply converged_ext; unfold s5; solver_simpl; congruence. }
  assert (Hr : m_roots s5 = m_roots s)
    by (unfold s5; solver_simpl; rewrite N5, L4; reflexivity).
  split; [reflexivity|].
  split.
  { change (m_working_set s5) with (m_working_set s4).
    rewrite N1, Lws, Hr. cbn [app]. apply filter_ext. intro r. now rewrite Hc. }
  split; [exact Hr|].
  split; [change (m_linear s5) with (m_linear s4); rewrite N3, L1; reflexivity|].
  split; [change (m_thresh s5) with (m_thresh s4); rewrite N4, L3; reflexivity|].
  split; [change (m_maxQ s5) with (m_maxQ s4); rewrite N6, L5; reflexivity|].
  change (m_qspace s5) with (m_qspace s4).
  change (m_q_solutions s5) with (m_q_solutions s4).
  split; [rewrite N7, N8; exact Lsz|].
  split.
  - intro r. rewrite N8, Lcnt, Hr, Hc, in_seq.
    change (m_q_solutions s3) with (m_q_solutions s).
    split; (intros [H|[H1 H2]]; [left; exact H | right; split; [lia | exact H2]]).
  - intros r Hcount. rewrite N8. apply Lfd. exact Hcount.
Qed.

End AddVectorFacts.

Section AddVectorTheorems.
Context {T : Type} {ops : VectorOps T}.
Variable K : Platform.

Lemma initialise_frame (s : Solver T) (cv : caller_vectors T) :
  m_q_solutions (initialise s cv) = m_q_solutions s
  /\ m_maxQ (initialise s cv) = m_maxQ s
  /\ m_qspace (initialise s cv) = m_qspace s
  /\ m_pspace (initialise s cv) = m_pspace s
  /\ m_errors (initialise s cv) = m_errors s.
Proof.
  unfold initialise. destruct (m_roots s <? 1);
    match goal with |- context [if ?b then _ else _] => destruct b end; repeat split.
Qed.

(** The stages of a call that runs past the early return. *)
Lemma addVector_stages (s s' : Solver T) (cv cv' : caller_vectors T) (n : nat) :
  addVector K s cv = Ok (n, s', cv') ->
  m_working_set (initialise s cv) <> [] ->
  exists s_in cv_in s_solved b,
    addVector_enter (initialise s cv) cv = Ok (s_in, cv_in)
    /\ solveReducedProblem K (buildSubspace K s_in) = Ok (b, s_solved)
    /\ addVector_leave s_solved cv_in = Ok (n, s', cv').
Proof.
  unfold addVector. intros H Hne.
  destruct (length (m_working_set (initialise s cv)) =? 0) eqn:E.
  - apply Nat.eqb_eq, length_zero_iff_nil in E. contradiction.
  - destruct (addVector_enter (initialise s cv) cv) as [[s_in cv_in]|] eqn:Ee;
      [|discriminate].
    cbn [bind] in H.
    destruct (solveReducedProblem K (buildSubspace K s_in)) as [[b s_solved]|] eqn:Es;
      [|discriminate].
    cbn [bind] in H. exists s_in, cv_in, s_solved, b. auto.
Qed.

End AddVectorTheorems.

(** C1 (amended).  For every call of [addVector] that returns, the value
    returned is the size of the working set on exit.  Either the working set
    was empty once the call had initialised it, and the call returned 0 at once
    and changed nothing else; or the working set on exit consists, in
    ascending order, of the roots 0 .. nRoots-1 that are not retired, where a
    root is retired exactly when the solver is a linear one ([m_linear]: the
    eigensystem and the linear equations) and its error is below the
    convergence threshold.  The non-linear variants keep every root in the
    working set whatever its error.  A root is recorded in [m_q_solutions]
    exactly when it was recorded before the call or is retired in it, and no
    existing record is changed. *)
Theorem C1_working_set_on_exit :
  forall (T : Type) (ops : VectorOps T) (K : Platform)
         (s s' : Solver T) (cv cv' : caller_vectors T) (n : nat),
    addVector K s cv = Ok (n, s', cv') ->
    n = length (m_working_set s')
    /\ ((m_working_set (initialise s cv) = [] /\ n = 0
         /\ s' = initialise s cv /\ cv' = cv)
        \/ (m_working_set (initialise s cv) <> []
            /\ m_working_set s'
               = filter (fun root =>
                           negb (m_linear s'
                                 && Num.lt (nth root (m_errors s') 0%float) (m_thresh s')))
                        (seq 0 (m_roots s'))
            /\ (forall root,
                  Util.map_count root (m_q_solutions s') = 1 <->
                  Util.map_count root (m_q_solutions s) = 1
                  \/ (root < m_roots s' /\ m_linear s' = true
                      /\ Num.lt (nth root (m_errors s') 0%float) (m_thresh s') = true))))
    /\ (forall root,
          Util.map_count root (m_q_solutions s) = 1 ->
          Util.map_find root (m_q_solutions s') = Util.map_find root (m_q_solutions s)).
Proof.
  intros T ops K s s' cv cv' n H.
  destruct (m_working_set (initialise s cv)) as [|r0 ws0] eqn:Ews.
  - unfold addVector in H. rewrite Ews in H. cbn in H. injection H as <- <- <-.
    rewrite Ews. split; [reflexivity|]. split; [left; auto|].
    intros root _. now destruct (initialise_frame s cv) as [-> _].
  - assert (Hne : m_working_set (initialise s cv) <> []) by (rewrite Ews; discriminate).
    destruct (addVector_stages K s s' cv cv' n H Hne)
      as (s_in & cv_in & s_solved & b & He & Hs & Hl).
    apply addVector_leave_spec in Hl.
    destruct Hl as (Hn & Hws & _ & _ & _ & _ & _ & Hcnt & Hfd).
    apply solveReducedProblem_frame in Hs. destruct Hs as (_ & Hq & _).
    destruct (buildSubspace_settled K _ s_in eq_refl) as (_ & _ & _ & Hq2 & _).
    apply addVector_enter_frame in He. destruct He as [Hq3 _].
    destruct (initialise_frame s cv) as [Hq4 _].
    assert (Hqs : m_q_solutions s_solved = m_q_solutions s) by congruence.
    rewrite Hqs in Hcnt, Hfd.
    split; [exact Hn|]. split; [right|exact Hfd].
    split; [discriminate|]. split; [exact Hws|].
    intro root. rewrite Hcnt. unfold converged.
    split; (intros [Hc|[Hr Hc]]; [left; exact Hc|right]).
    + apply andb_prop in Hc. tauto.
    + destruct Hc as [-> ->]. auto.
Qed.

(** A first call of the eigensolver with three exact eigenvectors: all three
    roots are retired, and the call returns 0. *)
Lemma C1_working_set_on_exit_witness :
  addVector Scenario.K new_LinearEigensystem (Scenario.eigen_caller 3) = Ok Scenario.eigen3
  /\ fst (fst Scenario.eigen3) = length (m_working_set (snd (fst Scenario.eigen3)))
  /\ fst (fst Scenario.eigen3) = 0.
Proof.
  assert (H : addVector Scenario.K new_LinearEigensystem (Scenario.eigen_caller 3)
              = Ok (fst (fst Scenario.eigen3), snd (fst Scenario.eigen3), snd Scenario.eigen3))
    by (vm_compute; reflexivity).
  split; [vm_compute; reflexivity|].
  split; [exact (proj1 (C1_working_set_on_exit _ _ _ _ _ _ _ _ H)) | reflexivity].
Defined.

(** C1 as stated fails for the non-linear variants.  [Optimize] is called at a
    stationary point: the error of root 0 is 0, below the threshold 1e-8, and
    yet root 0 stays in the working set and the call returns 1. *)
Lemma C1_counterexample :
  addValue Scenario.K new_Optimize [1; 1]%float 0%float [0; 0]%float = Ok Scenario.stationary
  /\ fst (fst Scenario.stationary) = 1
  /\ m_working_set (snd (fst Scenario.stationary)) = [0]
  /\ Num.lt (nth 0 (m_errors (snd (fst Scenario.stationary))) 0%float)
            (m_thresh (snd (fst Scenario.stationary))) = true.
Proof. vm_compute. repeat split. Qed.

(** C8 (amended).  In a call of [addVector] that runs past the early return,
    the conditioning loop of [buildSubspace] ends with nQ <= maxQ, or else
    with the threshold forced to 1e6 and no Q vector proposed for deletion
    (the smallest singular value exceeds 1e6, or no Q vector other than a
    converged solution has a coefficient above 1e-3).  The Q vectors
    that the call appends afterwards, one for every root recorded as a
    converged solution in this call, come on top: they are not counted against
    maxQ. *)
Theorem C8_maxQ_after_conditioning :
  forall (T : Type) (ops : VectorOps T) (K : Platform)
         (s s' : Solver T) (cv cv' : caller_vectors T) (n : nat),
    addVector K s cv = Ok (n, s', cv') ->
    m_working_set (initialise s cv) <> [] ->
    exists s_in cv_in,
      addVector_enter (initialise s cv) cv = Ok (s_in, cv_in)
      /\ (QSpace.size (m_qspace (buildSubspace K s_in)) <= m_maxQ s
          \/ (deletion_threshold (buildSubspace K s_in) = 1e6%float
              /\ proposed_deletion K (buildSubspace K s_in) = None))
      /\ QSpace.size (m_qspace s') + length (m_q_solutions s)
         = QSpace.size (m_qspace (buildSubspace K s_in)) + length (m_q_solutions s')
      /\ m_maxQ s' = m_maxQ s.
Proof.
  intros T ops K s s' cv cv' n H Hne.
  destruct (addVector_stages K s s' cv cv' n H Hne)
    as (s_in & cv_in & s_solved & b & He & Hs & Hl).
  exists s_in, cv_in. split; [exact He|].
  apply addVector_leave_spec in Hl.
  destruct Hl as (_ & _ & _ & _ & _ & Hm & Hsz & _ & _).
  apply solveReducedProblem_frame in Hs. destruct Hs as (Hq & Hqs & Hm2 & _).
  destruct (buildSubspace_settled K _ s_in eq_refl) as (Hset & _ & Hm3 & Hqs2 & _).
  apply addVector_enter_frame in He. destruct He as [Hqs3 Hm4].
  destruct (initialise_frame s cv) as (Hqs4 & Hm5 & _).
  assert (HmaxQ : m_maxQ (buildSubspace K s_in) = m_maxQ s) by congruence.
  split; [|split].
  - destruct (le_gt_dec (QSpace.size (m_qspace (buildSubspace K s_in))) (m_maxQ s))
      as [Hle|Hgt]; [left; exact Hle|right]. split.
    + unfold deletion_threshold. rewrite HmaxQ.
      apply Nat.ltb_lt in Hgt. now rewrite Hgt.
    + apply Hset. lia.
  - rewrite Hq, Hqs in Hsz. rewrite <- Hqs4, <- Hqs3, <- Hqs2. exact Hsz.
  - congruence.
Qed.

(** A first call with three roots: nothing is in Q when the subspace is
    conditioned, and the three converged solutions come on top. *)
Lemma C8_maxQ_after_conditioning_witness :
  addVector Scenario.K new_LinearEigensystem (Scenario.eigen_caller 3) = Ok Scenario.eigen3
  /\ exists s_in cv_in,
      addVector_enter (initialise new_LinearEigensystem (Scenario.eigen_caller 3))
                      (Scenario.eigen_caller 3) = Ok (s_in, cv_in)
      /\ (QSpace.size (m_qspace (buildSubspace Scenario.K s_in)) <= 16
          \/ (deletion_threshold (buildSubspace Scenario.K s_in) = 1e6%float
              /\ proposed_deletion Scenario.K (buildSubspace Scenario.K s_in) = None))
      /\ QSpace.size (m_qspace (snd (fst Scenario.eigen3))) + 0
         = QSpace.size (m_qspace (buildSubspace Scenario.K s_in))
           + length (m_q_solutions (snd (fst Scenario.eigen3)))
      /\ m_maxQ (snd (fst Scenario.eigen3)) = 16.
Proof.
  assert (H : addVector Scenario.K new_LinearEigensystem (Scenario.eigen_caller 3)
              = Ok (fst (fst Scenario.eigen3), snd (fst Scenario.eigen3), snd Scenario.eigen3))
    by (vm_compute; reflexivity).
  split; [vm_compute; reflexivity|].
  apply (C8_maxQ_after_conditioning _ _ Scenario.K new_LinearEigensystem _
           (Scenario.eigen_caller 3) _ _ H).
  vm_compute. discriminate.
Defined.

(** C8 as stated fails.  In a first call of the eigensolver, built with its
    defaults (maxQ = 16), seventeen roots converge at once; each converged
    solution is appended to Q, which holds 17 vectors when the call returns. *)
Lemma C8_counterexample :
  addVector Scenario.K new_LinearEigensystem (Scenario.eigen_caller 17) = Ok Scenario.eigen17
  /\ m_maxQ (snd (fst Scenario.eigen17)) = 16
  /\ QSpace.size (m_qspace (snd (fst Scenario.eigen17))) = 17.
Proof. vm_compute. repeat split. Qed.

(** C10.  When the working set is empty on entry and the Q space is not,
    [addVector] returns 0 at once.  The caller's vectors, the P and Q spaces,
    the errors and the recorded solutions are as before; the only member that
    can change is [m_roots], set from the number of parameter vectors when it
    was still 0. *)
Theorem C10_empty_working_set_returns_at_once :
  forall (T : Type) (ops : VectorOps T) (K : Platform)
         (s : Solver T) (cv : caller_vectors T),
    m_working_set s = [] ->
    QSpace.size (m_qspace s) <> 0 ->
    let s' := if m_roots s <? 1 then set_roots (length (parameters cv)) s else s in
    addVector K s cv = Ok (0, s', cv)
    /\ m_pspace s' = m_pspace s /\ m_qspace s' = m_qspace s
    /\ m_errors s' = m_errors s /\ m_q_solutions s' = m_q_solutions s
    /\ m_working_set s' = [] /\ m_last_d s' = m_last_d s /\ m_last_hd s' = m_last_hd s
    /\ m_iterations s' = m_iterations s
    /\ (1 <= m_roots s -> s' = s).
Proof.
  intros T ops K s cv Hws Hq s'.
  assert (Hi : initialise s cv = s').
  { unfold initialise. fold s'.
    assert (Hq' : (QSpace.size (m_qspace s') =? 0) = false).
    { apply Nat.eqb_neq. unfold s'. destruct (m_roots s <? 1); exact Hq. }
    now rewrite Hq'. }
  assert (Hws' : m_working_set s' = []).
  { unfold s'. destruct (m_roots s <? 1); exact Hws. }
  split.
  - unfold addVector. rewrite Hi, Hws'. reflexivity.
  - unfold s'. destruct (m_roots s <? 1) eqn:E.
    + repeat split; try assumption. apply Nat.ltb_lt in E. lia.
    + repeat split; assumption.
Qed.

(** A second call after all three roots converged returns 0 and changes
    nothing. *)
Lemma C10_empty_working_set_returns_at_once_witness :
  addVector Scenario.K (snd (fst Scenario.eigen3)) (Scenario.eigen_caller 3)
  = Ok (0, snd (fst Scenario.eigen3), Scenario.eigen_caller 3).
Proof.
  refine (proj1 (C10_empty_working_set_returns_at_once _ _ Scenario.K
                   (snd (fst Scenario.eigen3)) (Scenario.eigen_caller 3) _ _)).
  - reflexivity.
  - vm_compute. discriminate.
Defined.

(** C2 (amended) on the second call of [Optimize] for f(x) = x: the single Q
    vector is a candidate, the smallest singular value 0 is not greater than
    the threshold 0, and the vector is evicted. *)
Lemma C2_singularity_deletion_witness :
  buildSubspace Scenario.K Scenario.linear_second
  = buildSubspace Scenario.K (evict (assemble Scenario.linear_second) 0)
  /\ QSpace.keys (m_qspace (evict (assemble Scenario.linear_second) 0)) = [].
Proof.
  pose proof (proj2 (proj2 (C2_singularity_deletion DenseVector.t DenseVector_ops
                              Scenario.K Scenario.linear_second)) 0 [] []) as H.
  cbv zeta in H.
  assert (H1 : 0 < QSpace.size (m_qspace Scenario.linear_second))
    by (vm_compute; constructor).
  specialize (H H1).
  destruct H as [Hbuild Hkeys].
  - vm_compute. reflexivity.
  - vm_compute. reflexivity.
  - vm_compute. reflexivity.
  - constructor.
  - split; [exact Hbuild|]. rewrite Hkeys. vm_compute. reflexivity.
Defined.

(** C2 as stated fails where the smallest singular value equals the threshold.
    [Optimize] sets the singularity threshold to 0.  On the linear function
    f(x) = x the second call holds one Q vector whose action is zero, so the
    tested 1-by-1 matrix is 0 and its singular value is 0: no singular value
    is below the threshold, and yet the Q vector is evicted. *)
Lemma C2_counterexample :
  QSpace.size (m_qspace Scenario.linear_second) = 1
  /\ deletion_threshold Scenario.linear_second = 0%float
  /\ smallest_singular_value Scenario.K 1 2
       (Mat.raw (m_subspaceMatrix (assemble Scenario.linear_second))) = 0%float
  /\ Num.lt 0%float 0%float = false
  /\ proposed_deletion Scenario.K (assemble Scenario.linear_second) = Some 0
  /\ QSpace.size (m_qspace (buildSubspace Scenario.K Scenario.linear_second)) = 0.
Proof. vm_compute. repeat split. Qed.

(** ** The line search of [Optimize] *)

Lemma Optimize_accept_shape {T : Type} {ops : VectorOps T} (s : Solver T) :
  exists s', Optimize_accept s = (true, s') /\ m_linesearch_steplength s' = 0%float.
Proof.
  unfold Optimize_accept. eexists. split; [reflexivity|].
  destruct (String.eqb (m_algorithm _) "L-BFGS"); reflexivity.
Qed.

Lemma Optimize_linesearch_shape {T : Type} {ops : VectorOps T}
      (s : Solver T) (p : linesearch_point) (alpha : float) :
  exists s', Optimize_linesearch s p alpha = (false, s')
             /\ m_linesearch_steplength s' = ((alpha - 1) * ls_step p)%float.
Proof.
  unfold Optimize_linesearch. eexists. split; [reflexivity|].
  destruct (Num.le (ls_f1 p) (ls_f0 p)); reflexivity.
Qed.

(** C4 (amended).  In [Optimize::solveReducedProblem] with a non-empty Q space,
    the current point is accepted (the function returns true and clears the
    line-search step) if and only if g1 is below the convergence threshold, or
    both Wolfe conditions hold, or the cubic interpolation finds a minimum
    that is not rejected, does not exceed the grow factor and lies within the
    line-search tolerance of 1; otherwise the function returns false and
    records a line-search step.  W1 is f1 <= f0 + c1 g0, and W2 is
    g1 >= c2 g0 (strong) or |g1| <= c2 |g0| (weak). *)
Theorem C4_accept_iff :
  forall (T : Type) (ops : VectorOps T) (s : Solver T) (p : linesearch_point),
    0 < QSpace.size (m_qspace s) ->
    linesearch_quantities s = Ok p ->
    let f0 := ls_f0 p in
    let f1 := ls_f1 p in
    let g0 := ls_g0 p in
    let g1 := ls_g1 p in
    let W1 := Num.le f1 (f0 + m_Wolfe_1 s * g0)%float in
    let W2 := if m_strong_Wolfe s
              then Num.ge g1 (m_Wolfe_2 s * g0)%float
              else Num.le (Num.fabs g1) (m_Wolfe_2 s * Num.fabs g0)%float in
    let near_one :=
      match interpolatedMinimum 0 1 f0 f1 g0 g1 with
      | Some (alpha, _) =>
          negb ((Num.gt g0 0 && Num.gt g1 0 && Num.gt alpha 0)
                || (Num.lt g0 0 && Num.lt g1 0 && Num.lt alpha 1))
          && negb (Num.gt alpha (m_linesearch_grow_factor s))
          && Num.lt (Num.fabs (alpha - 1)%float) (m_linesearch_tolerance s)
      | None => false
      end in
    Wolfe_1 s p = W1 /\ Wolfe_2 s p = W2
    /\ exists (accepted : bool) (s' : Solver T),
        Optimize_solveReducedProblem s = Ok (accepted, s')
        /\ (accepted = true <->
            Num.lt g1 (m_thresh s) = true \/ (W1 = true /\ W2 = true) \/ near_one = true)
        /\ (accepted = true -> m_linesearch_steplength s' = 0%float)
        /\ (accepted = false ->
            exists alpha, m_linesearch_steplength s' = ((alpha - 1) * ls_step p)%float).
Proof.
  intros T ops s p HQ Hp f0 f1 g0 g1 W1 W2 near_one.
  split; [reflexivity|]. split; [reflexivity|].
  unfold Optimize_solveReducedProblem.
  apply Nat.ltb_lt in HQ. rewrite HQ, Hp. cbn [bind].
  assert (Hd : linesearch_decide s p =
               if Num.lt g1 (m_thresh s) || (W1 && W2) then Accept
               else match interpolatedMinimum 0 1 f0 f1 g0 g1 with
                    | Some (alpha, _) =>
                        if (Num.gt g0 0 && Num.gt g1 0 && Num.gt alpha 0)
                           || (Num.lt g0 0 && Num.lt g1 0 && Num.lt alpha 1)
                        then LineSearch (m_linesearch_grow_factor s)
                        else if Num.gt alpha (m_linesearch_grow_factor s)
                             then LineSearch (m_linesearch_grow_factor s)
                             else if Num.lt (Num.fabs (alpha - 1)%float)
                                            (m_linesearch_tolerance s)
                                  then Accept else LineSearch alpha
                    | None => LineSearch (m_linesearch_grow_factor s)
                    end).
  { unfold linesearch_decide. fold f0 f1 g0 g1.
    change (Wolfe_1 s p) with W1. change (Wolfe_2 s p) with W2.
    destruct (Num.lt g1 (m_thresh s) || W1 && W2); [reflexivity|].
    destruct (interpolatedMinimum 0 1 f0 f1 g0 g1) as [[alpha fi]|]; [|reflexivity].
    cbn [andb negb orb].
    destruct (Num.gt g0 0 && Num.gt g1 0 && Num.gt alpha 0
              || Num.lt g0 0 && Num.lt g1 0 && Num.lt alpha 1); reflexivity. }
  rewrite Hd. unfold near_one.
  assert (Hacc : forall P : Prop, P ->
    exists (accepted : bool) (s' : Solver T),
      Ok (Optimize_accept s) = Ok (accepted, s')
      /\ (accepted = true <-> P)
      /\ (accepted = true -> m_linesearch_steplength s' = 0%float)
      /\ (accepted = false ->
          exists alpha, m_linesearch_steplength s' = ((alpha - 1) * ls_step p)%float)).
  { intros P HP. destruct (Optimize_accept_shape s) as (s' & -> & Hs).
    exists true, s'. split; [reflexivity|]. split; [tauto|]. split; [auto|discriminate]. }
  assert (Hls : forall (P : Prop) alpha, ~ P ->
    exists (accepted : bool) (s' : Solver T),
      Ok (Optimize_linesearch s p alpha) = Ok (accepted, s')
      /\ (accepted = true <-> P)
      /\ (accepted = true -> m_linesearch_steplength s' = 0%float)
      /\ (accepted = false ->
          exists alpha, m_linesearch_steplength s' = ((alpha - 1) * ls_step p)%float)).
  { intros P alpha HP. destruct (Optimize_linesearch_shape s p alpha) as (s' & -> & Hs).
    exists false, s'. split; [reflexivity|].
    split; [split; [discriminate|contradiction]|].
    split; [discriminate|]. intros _. exists alpha. exact Hs. }
  destruct (Num.lt g1 (m_thresh s)) eqn:Eg; [apply Hacc; auto|].
  destruct W1 eqn:EW1; destruct W2 eqn:EW2; cbn [orb andb]; try (apply Hacc; now auto).
  all: destruct (interpolatedMinimum 0 1 f0 f1 g0 g1) as [[alpha fi]|];
    [|apply Hls; intros [H|[[H1 H2]|H]]; discriminate].
  all: destruct (Num.gt g0 0 && Num.gt g1 0 && Num.gt alpha 0
                 || Num.lt g0 0 && Num.lt g1 0 && Num.lt alpha 1);
    [apply Hls; intros [H|[[H1 H2]|H]]; discriminate|].
  all: destruct (Num.gt alpha (m_linesearch_grow_factor s));
    [apply Hls; intros [H|[[H1 H2]|H]]; discriminate|].
  all: destruct (Num.lt (Num.fabs (alpha - 1)%float) (m_linesearch_tolerance s));
    [apply Hacc; auto | apply Hls; intros [H|[[H1 H2]|H]]; discriminate].
Qed.

(** The second of the two calls of the scenario: g1 = 0.125 is not below the
    threshold, W1 fails, and the point is accepted. *)
Lemma C4_accept_iff_witness :
  exists (accepted : bool) (s' : Solver DenseVector.t),
    Optimize_solveReducedProblem Scenario.wolfe_second = Ok (accepted, s')
    /\ (accepted = true <->
        Num.lt 0.125%float (m_thresh Scenario.wolfe_second) = true
        \/ (Num.le (-0.4375)%float (0 + 0.8 * -1)%float = true
            /\ Num.ge 0.125%float (0.9 * -1)%float = true)
        \/ true = true).
Proof.
  destruct (C4_accept_iff _ _ Scenario.wolfe_second (mkPoint 1 0 (-0.4375) (-1) 0.125)
              ltac:(vm_compute; lia) ltac:(vm_compute; reflexivity))
    as (_ & _ & accepted & s' & H1 & H2 & _).
  exists accepted, s'. split; [exact H1|exact H2].
Defined.

(** C4 as stated fails.  With [m_Wolfe_1 = 0.8], at the second point of the
    scenario (f0 = 0, f1 = -0.4375, g0 = -1, g1 = 0.125) the gradient g1 is
    not below the threshold 1e-8 and the first Wolfe condition fails, but the
    interpolated minimum lies at 0.889, within the tolerance 0.2 of 1: the
    point is accepted and no line-search step is proposed. *)
Lemma C4_counterexample :
  linesearch_quantities Scenario.wolfe_second = Ok (mkPoint 1 0 (-0.4375) (-1) 0.125)
  /\ m_Wolfe_1 Scenario.wolfe_second = 0.8%float
  /\ Num.lt 0.125%float (m_thresh Scenario.wolfe_second) = false
  /\ Wolfe_1 Scenario.wolfe_second (mkPoint 1 0 (-0.4375) (-1) 0.125) = false
  /\ linesearch_decide Scenario.wolfe_second (mkPoint 1 0 (-0.4375) (-1) 0.125) = Accept
  /\ option_map fst (match Optimize_solveReducedProblem Scenario.wolfe_second with
                     | Ok r => Some r
                     | Throw _ => None
                     end) = Some true.
Proof. vm_compute. repeat split. Qed.

(** ** The reduced problem of [DIIS] *)

Lemma DIIS_rhs (H : Mat.real) (nDim : nat) :
  Mat.col 0%float (Mat.neg (Mat.block 0%float H 0 nDim nDim 1)) 0
  = map PrimFloat.opp (map (fun i => Mat.rcoeff H i nDim) (seq 0 nDim)).
Proof.
  unfold Mat.neg.
  change (Mat.rows (Mat.block 0%float H 0 nDim nDim 1)) with nDim.
  change (Mat.cols (Mat.block 0%float H 0 nDim nDim 1)) with 1.
  rewrite col_build by lia.
  rewrite map_map. apply map_ext_in. intros i Hi. apply in_seq in Hi.
  unfold Mat.rcoeff, Mat.block. rewrite coeff_build by lia.
  now rewrite Nat.add_0_r.
Qed.

(** C5.  [DIIS::solveReducedProblem], for a single root and a subspace matrix
    H of dimension nX = nDim + 1: B is the leading nDim-by-nDim block of H and
    b_last the first nDim rows of its last column; the coefficients c are the
    SVD-based solution of B c = -b_last under the threshold [m_svdThreshold].
    If a coefficient is NaN the call throws; otherwise the interpolation
    matrix is the column (c_0, ..., c_{nDim-1}, 1). *)
Theorem C5_DIIS_coefficients :
  forall (T : Type) (ops : VectorOps T) (K : Platform) (s : Solver T) (nDim : nat),
    m_roots s <= 1 ->
    Mat.rows (m_subspaceMatrix s) = S nDim ->
    let H := m_subspaceMatrix s in
    let B := Mat.block 0%float H 0 0 nDim nDim in
    let b_last := map (fun i => Mat.rcoeff H i nDim) (seq 0 nDim) in
    let c := firstn nDim (svd_solve K (m_svdThreshold s) (JacobiSVD K B)
                                    (map PrimFloat.opp b_last)) in
    (Mat.rows B = nDim /\ Mat.cols B = nDim
     /\ forall i j, i < nDim -> j < nDim -> Mat.rcoeff B i j = Mat.rcoeff H i j)
    /\ (0 < nDim -> existsb Num.isnan c = true ->
        DIIS_solveReducedProblem K s
        = Throw (overflow_error "NaN detected in DIIS submatrix solution"))
    /\ (nDim = 0 \/ existsb Num.isnan c = false ->
        exists s',
          DIIS_solveReducedProblem K s = Ok (true, s')
          /\ Mat.rows (m_interpolation s') = nDim + 1
          /\ Mat.cols (m_interpolation s') = 1
          /\ (forall i, i < nDim -> Mat.rcoeff (m_interpolation s') i 0 = nth i c 0%float)
          /\ Mat.rcoeff (m_interpolation s') nDim 0 = 1%float).
Proof.
  intros T ops K s nDim Hroots Hrows H B b_last c.
  assert (Hr : (1 <? m_roots s) = false) by (apply Nat.ltb_ge; exact Hroots).
  split; [|split].
  - split; [reflexivity|]. split; [reflexivity|].
    intros i j Hi Hj. unfold B, Mat.rcoeff, Mat.block. now rewrite coeff_build.
  - intros Hpos Hnan. unfold DIIS_solveReducedProblem. solver_simpl.
    rewrite Hr, Hrows. apply Nat.ltb_lt in Hpos. rewrite Hpos, DIIS_rhs.
    fold H B b_last c. now rewrite Hnan.
  - intros Hc. unfold DIIS_solveReducedProblem. solver_simpl.
    rewrite Hr, Hrows.
    destruct (0 <? nDim) eqn:Epos.
    + rewrite DIIS_rhs. fold H B b_last c.
      destruct Hc as [->|Hc]; [discriminate|]. rewrite Hc. cbn [bind]. solver_simpl.
      eexists. split; [reflexivity|]. solver_simpl.
      split; [reflexivity|]. split; [reflexivity|]. split.
      * intros i Hi. unfold Mat.rcoeff, Mat.set. rewrite coeff_build by (simpl; lia).
        replace (i =? nDim) with false by (symmetry; apply Nat.eqb_neq; lia).
        cbn [andb]. rewrite coeff_build by lia.
        apply Nat.ltb_lt in Hi. now rewrite Hi.
      * unfold Mat.rcoeff, Mat.set. rewrite coeff_build by (simpl; lia).
        now rewrite Nat.eqb_refl.
    + apply Nat.ltb_ge in Epos. assert (nDim = 0) by lia. subst nDim.
      cbn [bind]. eexists. split; [reflexivity|]. solver_simpl.
      unfold Mat.rcoeff, Mat.set.
      assert (Hrs : forall m : Mat.real,
                 Mat.rows (Mat.resize 0%float m 1 1) = 1
                 /\ Mat.cols (Mat.resize 0%float m 1 1) = 1).
      { intro m. unfold Mat.resize.
        destruct ((Mat.rows m =? 1) && (Mat.cols m =? 1)) eqn:E; [|auto].
        apply andb_prop in E. destruct E as [E1 E2].
        apply Nat.eqb_eq in E1, E2. auto. }
      change (0 + 1) with 1.
      destruct (Hrs (m_interpolation s)) as [-> ->].
      split; [reflexivity|]. split; [reflexivity|]. split; [intros i Hi; lia|].
      rewrite coeff_build by lia. reflexivity.
Qed.

(** With H = [[2, 1], [1, 3]]: B = (2), b_last = (1), c = (-1/2), and the
    interpolation column is (-1/2, 1). *)
Lemma C5_DIIS_coefficients_witness :
  exists s',
    DIIS_solveReducedProblem Scenario.K Scenario.diis_state = Ok (true, s')
    /\ Mat.rows (m_interpolation s') = 2
    /\ Mat.cols (m_interpolation s') = 1
    /\ (forall i, i < 1 -> Mat.rcoeff (m_interpolation s') i 0 = nth i [(-0.5)%float] 0%float)
    /\ Mat.rcoeff (m_interpolation s') 1 0 = 1%float.
Proof.
  refine (proj2 (proj2 (C5_DIIS_coefficients _ _ Scenario.K Scenario.diis_state 1 _ _)) _).
  - vm_compute. lia.
  - reflexivity.
  - right. vm_compute. reflexivity.
Defined.

(** ** Interpolation, root by root *)

Section InterpolationRoots.
Context {T : Type} {ops : VectorOps T}.

Lemma nth_error_update_nth_eq {A} (l : list A) (i : nat) (x : A) :
  i < length l -> nth_error (Util.update_nth i x l) i = Some x.
Proof.
  revert i; induction l as [|y l IH]; intros i Hi; simpl in Hi; [lia|].
  destruct i; simpl; [reflexivity|]. apply IH. lia.
Qed.


Lemma nth_update_nth_neq {A} (l : list A) (i j : nat) (x d : A) :
  i <> j -> nth j (Util.update_nth i x l) d = nth j l d.
Proof.
  revert i j; induction l as [|y l IH]; intros i j Hij; destruct i, j; simpl;
    try reflexivity; try lia.
  apply IH. lia.
Qed.



End InterpolationRoots.




(** ** Real and complex eigenvectors *)

(** C7 (amended).  The eigensystem reduced solve makes one test for all
    eigenpairs together: whether the norm of the imaginary parts of all
    eigenvalues and the norm of the imaginary parts of all eigenvectors are
    both below 1e-10.  If so, the real parts of the eigenvectors are taken.
    If not, a build with the Intel compiler raises a fatal error, and any other
    build keeps the complex eigenvectors and goes on without an error. *)
Theorem C7_complex_eigenvectors :
  forall (T : Type) (ops : VectorOps T) (K : Platform) (s : Solver T),
    let r := reduce K s in
    let negligible :=
      Num.lt (Mat.vnorm (map Num.im (red_eigenvalues r))) 1e-10%float
      && Num.lt (Mat.norm (Mat.imag_part (red_eigenvectors r))) 1e-10%float in
    let intel_error :=
      runtime_error
        "Intel compiler does not support working with complex eigen3 entities properly" in
    (negligible = true ->
     unsorted_eigenvectors K r
     = Ok (Mat.to_cplx (Mat.mul (red_backtransform r) (Mat.real_part (red_eigenvectors r))))
     /\ (m_rspt s = false -> is_ok (LinearEigensystem_solveReducedProblem K s) = true))
    /\ (negligible = false -> INTEL_COMPILER K = true ->
        diagonalizeSubspaceMatrix K s = Throw intel_error
        /\ (m_rspt s = false ->
            LinearEigensystem_solveReducedProblem K s = Throw intel_error))
    /\ (negligible = false -> INTEL_COMPILER K = false ->
        unsorted_eigenvectors K r = Ok (Mat.mul_rc (red_backtransform r) (red_eigenvectors r))
        /\ (m_rspt s = false -> is_ok (LinearEigensystem_solveReducedProblem K s) = true)).
Proof.
  intros T ops K s r negligible intel_error.
  assert (Hu : unsorted_eigenvectors K r =
               if negligible
               then Ok (Mat.to_cplx (Mat.mul (red_backtransform r)
                                             (Mat.real_part (red_eigenvectors r))))
               else if INTEL_COMPILER K then Throw intel_error
                    else Ok (Mat.mul_rc (red_backtransform r) (red_eigenvectors r)))
    by reflexivity.
  assert (Hok : forall V, unsorted_eigenvectors K r = Ok V -> m_rspt s = false ->
                          is_ok (LinearEigensystem_solveReducedProblem K s) = true).
  { intros V HV Hr. unfold LinearEigensystem_solveReducedProblem, diagonalizeSubspaceMatrix.
    rewrite Hr. fold r. rewrite HV. reflexivity. }
  split; [|split].
  - intro Hn. rewrite Hn in Hu. split; [exact Hu|]. apply (Hok _ Hu).
  - intros Hn Hi. rewrite Hn, Hi in Hu.
    assert (Hd : diagonalizeSubspaceMatrix K s = Throw intel_error).
    { unfold diagonalizeSubspaceMatrix. fold r. now rewrite Hu. }
    split; [exact Hd|]. intro Hr.
    unfold LinearEigensystem_solveReducedProblem. now rewrite Hr, Hd.
  - intros Hn Hi. rewrite Hn, Hi in Hu. split; [exact Hu|]. apply (Hok _ Hu).
Qed.

(** C7 (amended) on the rotation of the plane by a right angle, in a build
    without the Intel compiler: the imaginary parts are not negligible and the
    reduced solve returns. *)
Lemma C7_complex_eigenvectors_witness :
  is_ok (LinearEigensystem_solveReducedProblem (Scenario.rotation_platform false)
                                               Scenario.rotation_state) = true.
Proof.
  destruct (C7_complex_eigenvectors DenseVector.t DenseVector_ops
              (Scenario.rotation_platform false) Scenario.rotation_state)
    as (_ & _ & H).
  destruct H as [_ H].
  - vm_compute. reflexivity.
  - reflexivity.
  - apply H. reflexivity.
Defined.

(** C7 as stated fails on a build without the Intel compiler.  The caller's
    matrix is the rotation of the plane by a right angle; the subspace matrix
    is that rotation and the overlap is the identity; the eigenvalues are i
    and -i, far from real.  The reduced solve and the whole call return
    without an error.  The same call throws on a build with the Intel
    compiler. *)
Lemma C7_counterexample :
  m_subspaceMatrix Scenario.rotation_state = Mat.mk 2 2 [[0; 1]; [-1; 0]]%float
  /\ m_subspaceOverlap Scenario.rotation_state = Mat.mk 2 2 [[1; 0]; [0; 1]]%float
  /\ eigen_is_real (reduce (Scenario.rotation_platform false) Scenario.rotation_state) = false
  /\ is_ok (LinearEigensystem_solveReducedProblem (Scenario.rotation_platform false)
                                                  Scenario.rotation_state) = true
  /\ is_ok (addVector (Scenario.rotation_platform false) new_LinearEigensystem
                      Scenario.rotation_caller) = true
  /\ is_ok (addVector (Scenario.rotation_platform true) new_LinearEigensystem
                      Scenario.rotation_caller) = false.
Proof. vm_compute. repeat split. Qed.

(** ** The order of doubles *)

Section FloatOrder.

Ltac sf_cases :=
  repeat match goal with
         | |- context [Pos.compare_cont Eq ?a ?b] =>
             change (Pos.compare_cont Eq a b) with (Pos.compare a b)
         | H : context [Pos.compare_cont Eq ?a ?b] |- _ =>
             change (Pos.compare_cont Eq a b) with (Pos.compare a b) in H
         end;
  repeat match goal with
         | |- context [Z.compare ?a ?b] => destruct (Z.compare_spec a b)
         | H : context [Z.compare ?a ?b] |- _ => destruct (Z.compare_spec a b)
         | |- context [Pos.compare ?a ?b] => destruct (Pos.compare_spec a b)
         | H : context [Pos.compare ?a ?b] |- _ => destruct (Pos.compare_spec a b)
         end;
  simpl in *; try reflexivity; try discriminate; try lia.

Lemma SFltb_trans (x y z : SpecFloat.spec_float) :
  SpecFloat.SFltb x y = true -> SpecFloat.SFltb y z = true -> SpecFloat.SFltb x z = true.
Proof.
  unfold SpecFloat.SFltb, SpecFloat.SFcompare.
  destruct x as [sx|sx| |sx mx ex], y as [sy|sy| |sy my ey], z as [sz|sz| |sz mz ez];
    try destruct sx; try destruct sy; try destruct sz; simpl;
    try (intros; reflexivity); try (intros; discriminate);
    intros H1 H2; sf_cases.
Qed.

Lemma SFltb_irrefl (x : SpecFloat.spec_float) : SpecFloat.SFltb x x = false.
Proof.
  unfold SpecFloat.SFltb, SpecFloat.SFcompare.
  destruct x as [sx|sx| |sx mx ex]; try destruct sx; simpl; try reflexivity; sf_cases.
Qed.

Lemma SFleb_of_not_ltb (x y : SpecFloat.spec_float) :
  x <> SpecFloat.S754_nan -> y <> SpecFloat.S754_nan ->
  SpecFloat.SFltb y x = false -> SpecFloat.SFleb x y = true.
Proof.
  unfold SpecFloat.SFltb, SpecFloat.SFleb, SpecFloat.SFcompare.
  destruct x as [sx|sx| |sx mx ex], y as [sy|sy| |sy my ey];
    try destruct sx; try destruct sy; simpl;
    try (intros; reflexivity); try (intros; discriminate); try congruence;
    intros _ _ H; sf_cases.
Qed.

Lemma lt_trans (a b c : float) :
  Num.lt a b = true -> Num.lt b c = true -> Num.lt a c = true.
Proof. unfold Num.lt. rewrite !ltb_spec. apply SFltb_trans. Qed.

Lemma lt_irrefl (a : float) : Num.lt a a = false.
Proof. unfold Num.lt. rewrite ltb_spec. apply SFltb_irrefl. Qed.

Lemma not_nan_spec (a : float) :
  Num.isnan a = false -> Prim2SF a <> SpecFloat.S754_nan.
Proof.
  unfold Num.isnan, PrimFloat.is_nan. rewrite eqb_spec. intros H E. rewrite E in H.
  discriminate.
Qed.

(** Without NaN, "not greater" is "less or equal". *)
Lemma le_of_not_lt (a b : float) :
  Num.isnan a = false -> Num.isnan b = false ->
  Num.lt b a = false -> Num.le a b = true.
Proof.
  unfold Num.lt, Num.le. rewrite ltb_spec, leb_spec. intros Ha Hb.
  apply SFleb_of_not_ltb; now apply not_nan_spec.
Qed.

End FloatOrder.

(** ** The selection sort of the eigenvalues *)

Section SelectionSortFacts.
Context {A : Type} (ltb : A -> A -> bool) (key : nat -> A).
Hypothesis ltb_trans : forall a b c, ltb a b = true -> ltb b c = true -> ltb a c = true.
Hypothesis ltb_irrefl : forall a, ltb a a = false.

Lemma placed_spec (l : nat) (map : list nat) : placed l map = true <-> In l map.
Proof.
  unfold placed. rewrite existsb_exists. split.
  - intros (x & Hx & E). apply Nat.eqb_eq in E. now subst.
  - intro H. exists l. split; [exact H | apply Nat.eqb_refl].
Qed.

Lemma unplaced_spec (l : nat) (map : list nat) : placed l map = false <-> ~ In l map.
Proof.
  rewrite <- placed_spec. destruct (placed l map); split; congruence.
Qed.

Lemma first_unplaced_spec (map : list nat) :
  placed (first_unplaced map) map = false /\ first_unplaced map <= length map.
Proof.
  unfold first_unplaced.
  destruct (find (fun ll => negb (placed ll map)) (seq 0 (S (length map)))) as [ll|] eqn:E.
  - apply find_some in E. destruct E as [Hin Hll]. apply in_seq in Hin.
    apply negb_true_iff in Hll. split; [exact Hll | lia].
  - exfalso.
    assert (Hincl : incl (seq 0 (S (length map))) map).
    { intros x Hx. apply (find_none _ _ E) in Hx. apply negb_false_iff in Hx.
      now apply placed_spec. }
    apply NoDup_incl_length in Hincl; [| apply seq_NoDup].
    rewrite length_seq in Hincl. lia.
Qed.

Lemma select_fold_spec (n : nat) (map : list nat) (ls : list nat) :
  forall (seen : nat -> Prop) (ll : nat),
    (forall l, In l ls -> l < n) ->
    placed ll map = false -> ll < n ->
    (forall l, seen l -> ltb (key l) (key ll) = false) ->
    let m := fold_left (fun ll l => if negb (placed l map) && ltb (key l) (key ll)
                                    then l else ll) ls ll in
    placed m map = false /\ m < n /\
    (forall l, seen l \/ (In l ls /\ placed l map = false) -> ltb (key l) (key m) = false).
Proof.
  induction ls as [|l0 ls IH]; intros seen ll Hls Hll Hn Hseen; cbn [fold_left].
  - repeat split; try assumption. intros l [H | [[] _]]. now apply Hseen.
  - set (ll' := if negb (placed l0 map) && ltb (key l0) (key ll) then l0 else ll).
    assert (Hl0 : l0 < n) by (apply Hls; now left).
    destruct (IH (fun l => seen l \/ (l = l0 /\ placed l map = false)) ll')
      as (H1 & H2 & H3).
    + intros l Hl. apply Hls. now right.
    + unfold ll'. destruct (placed l0 map) eqn:E; simpl; [exact Hll |].
      destruct (ltb (key l0) (key ll)); assumption.
    + unfold ll'. destruct (negb (placed l0 map) && ltb (key l0) (key ll)); assumption.
    + intros l Hl. unfold ll'.
      destruct (placed l0 map) eqn:E; simpl.
      * destruct Hl as [Hl | [-> Hl]]; [now apply Hseen | congruence].
      * destruct (ltb (key l0) (key ll)) eqn:E0.
        -- destruct Hl as [Hl | [-> Hl]]; [| apply ltb_irrefl].
           destruct (ltb (key l) (key l0)) eqn:E1; [| reflexivity].
           rewrite <- (Hseen l Hl). symmetry. now apply ltb_trans with (key l0).
        -- destruct Hl as [Hl | [-> Hl]]; [now apply Hseen | exact E0].
    + repeat split; try assumption.
      intros l [Hl | [[<- | Hl] Hp]]; apply H3; auto.
Qed.

Lemma select_next_spec (n : nat) (map : list nat) :
  length map < n ->
  placed (select_next ltb key n map) map = false /\ select_next ltb key n map < n /\
  (forall l, l < n -> placed l map = false ->
             ltb (key l) (key (select_next ltb key n map)) = false).
Proof.
  intro Hlen. destruct (first_unplaced_spec map) as [Hf Hle].
  destruct (select_fold_spec n map (seq 0 n) (fun _ => False) (first_unplaced map))
    as (H1 & H2 & H3).
  - intros l Hl. apply in_seq in Hl. lia.
  - exact Hf.
  - lia.
  - intros l [].
  - repeat split; try assumption.
    intros l Hl Hp. apply H3. right. split; [apply in_seq; lia | exact Hp].
Qed.

Lemma StronglySorted_snoc {B} (R : B -> B -> Prop) (l : list B) (x : B) :
  StronglySorted R l -> Forall (fun a => R a x) l -> StronglySorted R (l ++ [x]).
Proof.
  induction 1 as [|a l Hs IH Ha]; intro Hx; cbn [app].
  - constructor; constructor.
  - inversion Hx; subst. constructor.
    + now apply IH.
    + apply Forall_app. split; [exact Ha | constructor; [assumption | constructor]].
Qed.

Lemma sort_rounds_spec (n : nat) (rounds : nat) :
  forall map, sort_invariant ltb key n map -> length map + rounds <= n ->
              sort_invariant ltb key n (sort_rounds ltb key n rounds map) /\
              length (sort_rounds ltb key n rounds map) = length map + rounds.
Proof.
  induction rounds as [|r IH]; intros map Hinv Hlen; cbn [sort_rounds].
  - split; [exact Hinv | lia].
  - destruct Hinv as (Hnd & Hlt & Hs & Hrest).
    destruct (select_next_spec n map) as (Hp & Hn & Hmin); [lia |].
    destruct (IH (map ++ [select_next ltb key n map])) as [Hinv' Hlen'].
    + repeat split.
      * apply NoDup_app; [exact Hnd | constructor; [intros [] | constructor] |].
        intros a Ha [<- | []]. now apply unplaced_spec in Hp.
      * intros l Hl. apply in_app_or in Hl. destruct Hl as [Hl | [<- | []]]; auto.
      * apply StronglySorted_snoc; [exact Hs |].
        apply Forall_forall. intros a Ha. now apply Hrest.
      * intros a l Ha Hl Hpl. apply unplaced_spec in Hpl.
        assert (Hpl' : placed l map = false).
        { apply unplaced_spec. intro H. apply Hpl. apply in_or_app. now left. }
        apply in_app_or in Ha. destruct Ha as [Ha | [<- | []]].
        -- now apply Hrest.
        -- now apply Hmin.
    + rewrite length_app. cbn [length]. lia.
    + split; [exact Hinv' |]. rewrite Hlen', length_app. cbn [length]. lia.
Qed.

Lemma sort_map_spec (n : nat) :
  Permutation (sort_map ltb key n) (seq 0 n) /\
  StronglySorted (not_after ltb key) (sort_map ltb key n) /\
  length (sort_map ltb key n) = n.
Proof.
  unfold sort_map. destruct (sort_rounds_spec n n []) as [(Hnd & Hlt & Hs & _) Hlen].
  - repeat split; try constructor. intros l []. intros a l [].
  - cbn [length]. lia.
  - cbn [length] in Hlen. cbn [Nat.add] in Hlen. repeat split; try assumption.
    apply NoDup_Permutation_bis; [exact Hnd | rewrite length_seq; lia |].
    intros l Hl. apply in_seq. specialize (Hlt l Hl). lia.
Qed.

End SelectionSortFacts.

(** ** Sorted eigenvalues and eigenvectors *)

Section EigenSortFacts.

Lemma firstn_update_nth {A} (l : list A) (a : nat) (x : A) :
  a < length l -> firstn (S a) (Util.update_nth a x l) = firstn a l ++ [x].
Proof.
  revert a; induction l as [|y l IH]; intros a Ha; cbn [length] in Ha; [lia|].
  destruct a as [|a]; [reflexivity|].
  cbn [Util.update_nth]. rewrite !firstn_cons. cbn [app]. f_equal. apply IH. lia.
Qed.

Lemma fold_update_all {A B} (g : B -> A) (perm : list B) :
  forall (a : nat) (init : list A),
    length init = a + length perm ->
    fold_left (fun ev kl => Util.update_nth (fst kl) (g (snd kl)) ev)
              (combine (seq a (length perm)) perm) init
    = firstn a init ++ map g perm.
Proof.
  induction perm as [|p perm IH]; intros a init Hlen; cbn [length seq combine fold_left map].
  - cbn [length] in Hlen. rewrite app_nil_r. symmetry. apply firstn_all2. lia.
  - cbn [length] in Hlen. cbn [fst snd]. rewrite (IH (S a)).
    + rewrite firstn_update_nth by lia. now rewrite <- app_assoc.
    + rewrite length_update_nth. lia.
Qed.

Lemma StronglySorted_map {A B} (R : B -> B -> Prop) (f : A -> B) (l : list A) :
  StronglySorted (fun a b => R (f a) (f b)) l -> StronglySorted R (map f l).
Proof.
  induction 1 as [|a l Hs IH Ha]; cbn [map]; constructor; [exact IH|].
  apply Forall_map. exact Ha.
Qed.


Lemma eigen_sort_map_spec (n : nat) (eigval : list Num.complex) :
  Permutation (eigen_sort_map n eigval) (seq 0 n)
  /\ StronglySorted
       (fun a b => Num.lt (Num.re (nth b eigval Num.c0)) (Num.re (nth a eigval Num.c0)) = false)
       (eigen_sort_map n eigval)
  /\ length (eigen_sort_map n eigval) = n.
Proof.
  unfold eigen_sort_map.
  apply (sort_map_spec Num.lt (fun l => Num.re (nth l eigval Num.c0)) lt_trans lt_irrefl n).
Qed.

Lemma sorted_eigenvalues_spec (n : nat) (eigval : list Num.complex) :
  length eigval = n ->
  sorted_eigenvalues n eigval = map (fun l => nth l eigval Num.c0) (eigen_sort_map n eigval).
Proof.
  intro Hlen. unfold sorted_eigenvalues.
  destruct (eigen_sort_map_spec n eigval) as (_ & _ & Hn).
  rewrite <- Hn at 1.
  rewrite (fold_update_all (fun l => nth l eigval Num.c0) (eigen_sort_map n eigval) 0 eigval).
  - reflexivity.
  - rewrite Hn, Hlen. reflexivity.
Qed.

Lemma map_nth_all {A} (c : list A) (d : A) :
  map (fun i => nth i c d) (seq 0 (length c)) = c.
Proof.
  apply (nth_ext _ _ d d).
  - now rewrite length_map, length_seq.
  - intros i Hi. rewrite length_map, length_seq in Hi.
    apply (nth_map_seq (fun i => nth i c d) d (length c) i Hi).
Qed.









End EigenSortFacts.



(* ===================================================================== *)
(** * Part II, continued: the rest of the interface *)
(* ===================================================================== *)

(** ** More on the order of doubles *)

Ltac sf_order :=
  repeat match goal with
         | |- context [Pos.compare_cont Eq ?a ?b] =>
             change (Pos.compare_cont Eq a b) with (Pos.compare a b)
         | H : context [Pos.compare_cont Eq ?a ?b] |- _ =>
             change (Pos.compare_cont Eq a b) with (Pos.compare a b) in H
         end;
  repeat match goal with
         | |- context [Z.compare ?a ?b] => destruct (Z.compare_spec a b)
         | H : context [Z.compare ?a ?b] |- _ => destruct (Z.compare_spec a b)
         | |- context [Pos.compare ?a ?b] => destruct (Pos.compare_spec a b)
         | H : context [Pos.compare ?a ?b] |- _ => destruct (Pos.compare_spec a b)
         end;
  simpl in *; try reflexivity; try discriminate; try congruence; try lia.

Ltac sf_destruct x :=
  let s := fresh "s" in
  destruct x as [s|s| |s ? ?]; try destruct s.

Section FloatOrderMore.

Lemma SFltb_not_nan (x y : SpecFloat.spec_float) :
  SpecFloat.SFltb x y = true -> x <> SpecFloat.S754_nan /\ y <> SpecFloat.S754_nan.
Proof.
  unfold SpecFloat.SFltb, SpecFloat.SFcompare.
  sf_destruct x; sf_destruct y; simpl; intro H; try discriminate; split; discriminate.
Qed.

Lemma SFltb_leb (x y : SpecFloat.spec_float) :
  SpecFloat.SFltb x y = true -> SpecFloat.SFleb x y = true.
Proof.
  unfold SpecFloat.SFltb, SpecFloat.SFleb.
  destruct (SpecFloat.SFcompare x y) as [[| |]|]; intro H; try discriminate; reflexivity.
Qed.

Lemma SFleb_ltb_trans (x y z : SpecFloat.spec_float) :
  SpecFloat.SFleb x y = true -> SpecFloat.SFltb y z = true -> SpecFloat.SFltb x z = true.
Proof.
  unfold SpecFloat.SFltb, SpecFloat.SFleb, SpecFloat.SFcompare.
  sf_destruct x; sf_destruct y; sf_destruct z; simpl;
    try (intros; reflexivity); try (intros; discriminate);
    intros H1 H2; sf_order.
Qed.

Lemma SFleb_refl (x : SpecFloat.spec_float) :
  x <> SpecFloat.S754_nan -> SpecFloat.SFleb x x = true.
Proof.
  unfold SpecFloat.SFleb, SpecFloat.SFcompare.
  sf_destruct x; simpl; try reflexivity; try congruence; intros _; sf_order.
Qed.

Lemma SFeqb_refl (x : SpecFloat.spec_float) :
  x <> SpecFloat.S754_nan -> SpecFloat.SFeqb x x = true.
Proof.
  unfold SpecFloat.SFeqb, SpecFloat.SFcompare.
  sf_destruct x; simpl; try reflexivity; try congruence; intros _; sf_order.
Qed.

Lemma isnan_false_iff (a : float) :
  Num.isnan a = false <-> Prim2SF a <> SpecFloat.S754_nan.
Proof.
  split; [apply not_nan_spec|].
  intro H. unfold Num.isnan, PrimFloat.is_nan. rewrite eqb_spec, SFeqb_refl by exact H.
  reflexivity.
Qed.

Lemma lt_not_nan (a b : float) :
  Num.lt a b = true -> Num.isnan a = false /\ Num.isnan b = false.
Proof.
  unfold Num.lt. rewrite ltb_spec. intro H. apply SFltb_not_nan in H.
  split; apply isnan_false_iff; tauto.
Qed.

Lemma lt_le (a b : float) : Num.lt a b = true -> Num.le a b = true.
Proof. unfold Num.lt, Num.le. rewrite ltb_spec, leb_spec. apply SFltb_leb. Qed.

Lemma le_lt_trans (a b c : float) :
  Num.le a b = true -> Num.lt b c = true -> Num.lt a c = true.
Proof. unfold Num.lt, Num.le. rewrite !ltb_spec, leb_spec. apply SFleb_ltb_trans. Qed.

Lemma le_refl (a : float) : Num.isnan a = false -> Num.le a a = true.
Proof.
  intro H. unfold Num.le. rewrite leb_spec. apply SFleb_refl. now apply isnan_false_iff.
Qed.

End FloatOrderMore.

(** ** Convergence as [endIteration] reports it *)

Section EndIterationFacts.

(** The element [std::max_element] stops at, when the element it starts from
    is a number: a number of the list that no number of the list exceeds. *)
Lemma max_element_from_spec (l : list float) :
  forall (pre : list float) (best : nat) (bestv : float),
    best < length pre -> nth best pre 0%float = bestv -> Num.isnan bestv = false ->
    let v := nth (Util.max_element_from best bestv (length pre) l) (pre ++ l) 0%float in
    Num.isnan v = false /\ Num.le bestv v = true
    /\ (v = bestv \/ In v l)
    /\ Forall (fun x => Num.isnan x = true \/ Num.le x v = true) l.
Proof.
  induction l as [|x t IH]; intros pre best bestv Hb Hv Hn; cbn [Util.max_element_from].
  - cbv zeta. rewrite app_nil_r, Hv. repeat split; auto using le_refl.
  - destruct (Num.lt bestv x) eqn:E.
    + destruct (lt_not_nan _ _ E) as [_ Hx].
      specialize (IH (pre ++ [x]) (length pre) x).
      rewrite length_app in IH. cbn [length] in IH.
      replace (length pre + 1) with (S (length pre)) in IH by lia.
      rewrite <- app_assoc in IH. cbn [app] in IH.
      destruct IH as (H1 & H2 & H3 & H4); [lia | apply nth_middle | exact Hx |].
      cbv zeta. repeat split.
      * exact H1.
      * destruct (Num.lt (nth (Util.max_element_from (length pre) x (S (length pre)) t)
                               (pre ++ x :: t) 0%float) bestv) eqn:E2.
        -- pose proof (le_lt_trans _ _ _ H2 E2) as H.
           pose proof (lt_trans _ _ _ E H) as H'. now rewrite lt_irrefl in H'.
        -- apply le_of_not_lt; assumption.
      * right. destruct H3 as [-> | H3]; [now left | now right].
      * constructor; [right; exact H2 | exact H4].
    + specialize (IH (pre ++ [x]) best bestv).
      rewrite length_app in IH. cbn [length] in IH.
      replace (length pre + 1) with (S (length pre)) in IH by lia.
      rewrite <- app_assoc in IH. cbn [app] in IH.
      destruct IH as (H1 & H2 & H3 & H4);
        [lia | rewrite app_nth1 by exact Hb; exact Hv | exact Hn |].
      cbv zeta. repeat split.
      * exact H1.
      * exact H2.
      * destruct H3 as [H3 | H3]; [now left | right; now right].
      * constructor; [| exact H4].
        destruct (Num.isnan x) eqn:Ex; [now left | right].
        destruct (Num.lt (nth (Util.max_element_from best bestv (S (length pre)) t)
                               (pre ++ x :: t) 0%float) x) eqn:E2.
        -- pose proof (le_lt_trans _ _ _ H2 E2) as H. congruence.
        -- apply le_of_not_lt; assumption.
Qed.

(** When it starts from NaN, [std::max_element] stays there. *)
Lemma max_element_from_nan (l : list float) :
  forall (best : nat) (bestv : float) (i : nat),
    Num.isnan bestv = true -> Util.max_element_from best bestv i l = best.
Proof.
  induction l as [|x t IH]; intros best bestv i Hn; cbn [Util.max_element_from];
    [reflexivity|].
  destruct (Num.lt bestv x) eqn:E; [|now apply IH].
  apply lt_not_nan in E. destruct E; congruence.
Qed.

End EndIterationFacts.

(** X1.  [endIteration] of the base class reports convergence as follows.
    With no errors recorded it reports none.  With a NaN as the first error
    it reports none.  Otherwise it reports convergence exactly when every
    error that is a number is below the threshold: an error that is NaN, in
    any place but the first, is passed over. *)
Theorem endIteration_converged :
  forall (T : Type) (s : Solver T),
    (m_errors s = [] -> endIteration s = false)
    /\ (forall e0 rest, m_errors s = e0 :: rest -> Num.isnan e0 = true ->
                        endIteration s = false)
    /\ (forall e0 rest, m_errors s = e0 :: rest -> Num.isnan e0 = false ->
          (endIteration s = true <->
           Forall (fun e => Num.isnan e = true \/ Num.lt e (m_thresh s) = true)
                  (e0 :: rest))).
Proof.
  intros T s. unfold endIteration. split; [|split].
  - intros ->. reflexivity.
  - intros e0 rest -> Hn. cbn [Util.max_element].
    rewrite max_element_from_nan by exact Hn. cbn [nth].
    destruct (Num.lt e0 (m_thresh s)) eqn:E; [|reflexivity].
    apply lt_not_nan in E. destruct E; congruence.
  - intros e0 rest -> Hn. cbn [Util.max_element].
    destruct (max_element_from_spec rest [e0] 0 e0) as (H1 & H2 & H3 & H4);
      [cbn; lia | reflexivity | exact Hn |].
    cbn [length app] in H1, H2, H3, H4.
    set (v := nth (Util.max_element_from 0 e0 1 rest) (e0 :: rest) 0%float) in *.
    split.
    + intro Hv. constructor.
      * right. now apply le_lt_trans with v.
      * rewrite Forall_forall in *. intros x Hx.
        destruct (H4 x Hx) as [Hx' | Hx']; [now left | right].
        now apply le_lt_trans with v.
    + intro Hall. rewrite Forall_forall in Hall.
      destruct (Hall v) as [Hv | Hv]; [| congruence | exact Hv].
      destruct H3 as [-> | H3]; [now left | now right].
Qed.

(** ** The eigenvalues handed to the caller *)

Section EigenvaluesFacts.

Lemma map_nth_firstn {A B} (f : A -> B) (d : A) (l : list A) :
  forall r, map (fun i => f (nth i l d)) (seq 0 (Nat.min r (length l))) = map f (firstn r l).
Proof.
  induction l as [|x t IH]; intros [|r]; cbn [length Nat.min seq map firstn]; try reflexivity.
  f_equal. rewrite <- seq_shift, map_map. apply IH.
Qed.

Lemma sorted_eigenvalues_permutation (n : nat) (eigval : list Num.complex) :
  length eigval = n -> Permutation (sorted_eigenvalues n eigval) eigval.
Proof.
  intro Hlen. rewrite sorted_eigenvalues_spec by exact Hlen.
  destruct (eigen_sort_map_spec n eigval) as (Hperm & _ & _).
  rewrite <- (map_nth_all eigval Num.c0) at 2. rewrite Hlen.
  apply Permutation_map. exact Hperm.
Qed.

Lemma sorted_eigenvalues_sorted (n : nat) (eigval : list Num.complex) :
  length eigval = n ->
  StronglySorted (fun a b => Num.lt b a = false)
                 (map Num.re (sorted_eigenvalues n eigval)).
Proof.
  intro Hlen. rewrite sorted_eigenvalues_spec by exact Hlen.
  destruct (eigen_sort_map_spec n eigval) as (_ & Hsorted & _).
  apply StronglySorted_map. apply StronglySorted_map. exact Hsorted.
Qed.

End EigenvaluesFacts.

(** X2.  After a reduced solve of the eigensolver whose kernel returned as
    many eigenvalues as the rank, [eigenvalues()] returns min(nRoots, rank)
    numbers: they are the real parts of the lowest eigenvalues of the reduced
    problem, in ascending order.  Together with the real parts left out,
    which come after them in the order, they are the real parts of all
    eigenvalues, each as often as it occurs. *)
Theorem eigenvalues_lowest_ascending :
  forall (T : Type) (ops : VectorOps T) (K : Platform) (s s' : Solver T) (b : bool),
    length (red_eigenvalues (reduce K s)) = red_rank (reduce K s) ->
    LinearEigensystem_solveReducedProblem K s = Ok (b, s') ->
    exists rest : list float,
      Permutation (eigenvalues s' ++ rest) (map Num.re (red_eigenvalues (reduce K s)))
      /\ StronglySorted (fun x y => Num.lt y x = false) (eigenvalues s' ++ rest)
      /\ length (eigenvalues s') = Nat.min (m_roots s) (red_rank (reduce K s)).
Proof.
  intros T ops K s s' b Hlen Hrun.
  unfold LinearEigensystem_solveReducedProblem, diagonalizeSubspaceMatrix in Hrun.
  destruct (m_rspt s); [discriminate|].
  destruct (unsorted_eigenvectors K (reduce K s)) as [eigvec|e]; [|discriminate].
  cbn [bind] in Hrun.
  set (n := red_rank (reduce K s)) in *.
  set (eigval := red_eigenvalues (reduce K s)) in *.
  set (ev := sorted_eigenvalues n eigval) in *.
  assert (Hev : m_subspaceEigenvalues s' = ev /\ m_roots s' = m_roots s).
  { injection Hrun as _ <-. split; reflexivity. }
  destruct Hev as [Hev Hroots].
  assert (Hlev : length ev = n).
  { unfold ev. rewrite sorted_eigenvalues_spec by exact Hlen.
    rewrite length_map. apply eigen_sort_map_spec. }
  assert (He : eigenvalues s' = map Num.re (firstn (m_roots s) ev)).
  { unfold eigenvalues. rewrite Hev, Hroots. apply map_nth_firstn. }
  exists (map Num.re (skipn (m_roots s) ev)).
  rewrite He, <- map_app, firstn_skipn. split; [|split].
  - apply Permutation_map. now apply sorted_eigenvalues_permutation.
  - now apply sorted_eigenvalues_sorted.
  - rewrite length_map, length_firstn, Hlev. reflexivity.
Qed.

(** X2 on the eigensolver for diag(3, 1, 2): [eigenvalues()] returns 1, 2, 3. *)
Lemma eigenvalues_lowest_ascending_witness :
  exists rest : list float,
    StronglySorted (fun x y => Num.lt y x = false) (eigenvalues Cases.sorted_state ++ rest)
    /\ length (eigenvalues Cases.sorted_state) = 3
    /\ eigenvalues Cases.sorted_state = [1; 2; 3]%float.
Proof.
  destruct (eigenvalues_lowest_ascending DenseVector.t DenseVector_ops Scenario.K
              Scenario.unsorted_state Cases.sorted_state true)
    as (rest & _ & Hs & Hl).
  - vm_compute. reflexivity.
  - vm_compute. reflexivity.
  - exists rest. split; [exact Hs|]. split; [|reflexivity].
    rewrite Hl. vm_compute. reflexivity.
Defined.

(** ** What the conditioning loop keeps *)

Section EvictionFacts.
Context {T : Type} {ops : VectorOps T}.
Variable K : Platform.

Lemma in_remove_nth {A} (l : list A) (i : nat) (x : A) :
  In x (Util.remove_nth i l) -> In x l.
Proof.
  revert i; induction l as [|y l IH]; intros [|i]; cbn [Util.remove_nth]; intro H;
    try contradiction.
  - now right.
  - destruct H as [H | H]; [now left | right; eauto].
Qed.

Lemma in_remove_nth_other {A} (l : list A) (i : nat) (x : A) :
  In x l -> nth_error l i <> Some x -> In x (Util.remove_nth i l).
Proof.
  revert i; induction l as [|y l IH]; intros [|i]; cbn [Util.remove_nth nth_error];
    intros Hin Hne; try contradiction.
  - destruct Hin as [-> | Hin]; [congruence | exact Hin].
  - destruct Hin as [-> | Hin]; [now left | right; now apply IH].
Qed.

Lemma buildSubspace_entries (n : nat) :
  forall s : Solver T,
    QSpace.size (m_qspace s) = n ->
    (forall e, In e (QSpace.entries (m_qspace (buildSubspace K s))) ->
               In e (QSpace.entries (m_qspace s)))
    /\ (forall root e,
          In (root, QSpace.key e) (m_q_solutions s) ->
          In e (QSpace.entries (m_qspace s)) ->
          In e (QSpace.entries (m_qspace (buildSubspace K s)))).
Proof.
  induction n as [n IH] using lt_wf_ind. intros s Hn.
  rewrite buildSubspace_equation.
  destruct (0 <? QSpace.size (m_qspace s)) eqn:E; [|split; auto].
  destruct (proposed_deletion K (assemble s)) as [del|] eqn:Ed; [|split; auto].
  pose proof (proposed_deletion_in_Q K _ _ Ed) as [_ Hlt].
  pose proof (proposed_deletion_candidate K _ _ Ed) as Hc.
  apply candidates_keys in Hc. destruct Hc as (a & Hdel & Ha & Hfree).
  pose proof (size_evict (assemble s) del Hlt) as Hs.
  change (m_qspace (assemble s)) with (m_qspace s) in Hs, Hlt, Ha, Hfree.
  change (m_pspace (assemble s)) with (m_pspace s) in Hdel, Hlt.
  change (m_q_solutions (assemble s)) with (m_q_solutions s) in Hfree.
  assert (Hm : QSpace.size (m_qspace (evict (assemble s) del)) < n) by lia.
  destruct (IH _ Hm (evict (assemble s) del) eq_refl) as [H1 H2].
  assert (Hq : QSpace.entries (m_qspace (evict (assemble s) del))
               = Util.remove_nth a (QSpace.entries (m_qspace s))).
  { replace a with (del - length (m_pspace s)) by lia. reflexivity. }
  rewrite Hq in H1, H2.
  change (m_q_solutions (evict (assemble s) del)) with (m_q_solutions s) in H2.
  split.
  - intros e He. apply H1 in He. now apply in_remove_nth in He.
  - intros root e Hrec He. apply (H2 root e Hrec).
    apply in_remove_nth_other; [exact He|].
    intro Hnth. apply (Hfree root). unfold QSpace.keys.
    rewrite (nth_error_nth _ _ 0 (map_nth_error QSpace.key _ _ Hnth)). exact Hrec.
Qed.

End EvictionFacts.

(** X3.  [buildSubspace] never adds to the Q space and never evicts a
    converged solution: every Q vector it leaves was there before, with the
    same parameter and action vectors, and every Q vector whose key is
    recorded in [m_q_solutions] is still there afterwards.  The record of the
    converged solutions and the P space are not touched. *)
Theorem buildSubspace_keeps_solutions :
  forall (T : Type) (ops : VectorOps T) (K : Platform) (s : Solver T),
    (forall e, In e (QSpace.entries (m_qspace (buildSubspace K s))) ->
               In e (QSpace.entries (m_qspace s)))
    /\ (forall root e,
          In (root, QSpace.key e) (m_q_solutions s) ->
          In e (QSpace.entries (m_qspace s)) ->
          In e (QSpace.entries (m_qspace (buildSubspace K s))))
    /\ QSpace.size (m_qspace (buildSubspace K s)) <= QSpace.size (m_qspace s)
    /\ m_q_solutions (buildSubspace K s) = m_q_solutions s
    /\ m_pspace (buildSubspace K s) = m_pspace s.
Proof.
  intros T ops K s.
  destruct (buildSubspace_entries K _ s eq_refl) as [H1 H2].
  destruct (buildSubspace_settled K _ s eq_refl) as (_ & H3 & _ & H4 & H5 & _).
  repeat split; assumption.
Qed.

(** ** [solution] *)

Section SolutionFacts.
Context {T : Type} {ops : VectorOps T}.
Variable K : Platform.

(** The conditioning loop leaves the errors alone, unless it evicts: then it
    sets all of them to 1e20. *)
Lemma buildSubspace_errors (n : nat) :
  forall s : Solver T,
    QSpace.size (m_qspace s) = n ->
    (QSpace.size (m_qspace (buildSubspace K s)) = n
     /\ m_errors (buildSubspace K s) = m_errors s)
    \/ (QSpace.size (m_qspace (buildSubspace K s)) < n
        /\ m_errors (buildSubspace K s) = repeat 1e20%float (m_roots s)).
Proof.
  induction n as [n IH] using lt_wf_ind. intros s Hn.
  rewrite buildSubspace_equation.
  destruct (0 <? QSpace.size (m_qspace s)) eqn:E; [|left; split; [exact Hn | reflexivity]].
  destruct (proposed_deletion K (assemble s)) as [del|] eqn:Ed;
    [|left; split; [exact Hn | reflexivity]].
  pose proof (proposed_deletion_in_Q K _ _ Ed) as [_ Hlt].
  pose proof (size_evict (assemble s) del Hlt) as Hs.
  change (m_qspace (assemble s)) with (m_qspace s) in Hs, Hlt.
  assert (Hm : QSpace.size (m_qspace (evict (assemble s) del)) < n) by lia.
  right.
  destruct (IH _ Hm (evict (assemble s) del) eq_refl) as [[H1 H2] | [H1 H2]].
  - split; [lia|]. rewrite H2. reflexivity.
  - split; [lia|]. rewrite H2. reflexivity.
Qed.

End SolutionFacts.

(** X4.  A call of [solution] that returns has put the working set back as it
    was.  It has not touched the record of converged solutions, the P space,
    the number of roots or the thresholds; the Q space has not grown.  The
    errors are as before when the Q space has kept its size; otherwise the
    conditioning loop has evicted Q vectors and set every error to 1e20.  The
    caller gets back as many parameter and residual vectors as were passed,
    and there were at least as many as roots asked for. *)
Theorem solution_restores_working_set :
  forall (T : Type) (ops : VectorOps T) (K : Platform) (s s' : Solver T)
         (roots : list nat) (params residual : list T) (paramsP : list (list float))
         (cv' : caller_vectors T),
    solution K s roots params residual paramsP = Ok (s', cv') ->
    m_working_set s' = m_working_set s
    /\ m_q_solutions s' = m_q_solutions s /\ m_pspace s' = m_pspace s
    /\ m_roots s' = m_roots s /\ m_thresh s' = m_thresh s /\ m_maxQ s' = m_maxQ s
    /\ ((QSpace.size (m_qspace s') = QSpace.size (m_qspace s) /\ m_errors s' = m_errors s)
        \/ (QSpace.size (m_qspace s') < QSpace.size (m_qspace s)
            /\ m_errors s' = repeat 1e20%float (m_roots s)))
    /\ length (parameters cv') = length params
    /\ length (action cv') = length residual
    /\ length roots <= length params /\ length roots <= length residual.
Proof.
  intros T ops K s s' roots params residual paramsP cv' H.
  unfold solution in H.
  set (s0 := set_s_rr [] (set_working_set roots s)) in H.
  destruct (solveReducedProblem K (buildSubspace K s0)) as [[b s2]|e] eqn:E2;
    [|discriminate].
  cbn [bind] in H.
  destruct (doInterpolation s2 (mkCaller params residual paramsP []) false) as [cv2|e] eqn:E3;
    [|discriminate].
  cbn [bind] in H. injection H as <- <-.
  destruct (solveReducedProblem_frame K _ _ _ E2)
    as (Hq & Hqs & Hmq & Hp & Hr & _ & Ht & He & Hw).
  destruct (buildSubspace_settled K _ s0 eq_refl)
    as (_ & _ & Hmq' & Hqs' & Hp' & Hr' & _ & Ht' & Hw' & _).
  destruct (doInterpolation_lengths _ _ _ _ E3) as [Hl1 Hl2].
  destruct (doInterpolation_reach _ _ _ _ E3) as [Hr1 Hr2].
  cbn [parameters action] in Hl1, Hl2, Hr1, Hr2.
  rewrite Hw, Hw' in Hr1, Hr2.
  change (m_working_set s0) with roots in Hr1, Hr2.
  assert (Herr : (QSpace.size (m_qspace s2) = QSpace.size (m_qspace s)
                  /\ m_errors s2 = m_errors s)
                 \/ (QSpace.size (m_qspace s2) < QSpace.size (m_qspace s)
                     /\ m_errors s2 = repeat 1e20%float (m_roots s))).
  { rewrite Hq, He. exact (buildSubspace_errors K _ s0 eq_refl). }
  split; [reflexivity|].
  split; [change (m_q_solutions s2 = m_q_solutions s); now rewrite Hqs, Hqs'|].
  split; [change (m_pspace s2 = m_pspace s); now rewrite Hp, Hp'|].
  split; [change (m_roots s2 = m_roots s); now rewrite Hr, Hr'|].
  split; [change (m_thresh s2 = m_thresh s); now rewrite Ht, Ht'|].
  split; [change (m_maxQ s2 = m_maxQ s); now rewrite Hmq, Hmq'|].
  split; [exact Herr|].
  repeat split; assumption.
Qed.

(** X4 on the eigensolver for diag(1, 2, 3) after its first call, in which all
    three roots converged: [solution] for the roots 0 and 2 returns the first
    and the third unit vector, and the working set is empty as before. *)
Lemma solution_restores_working_set_witness :
  exists (s' : Solver DenseVector.t),
    solution Scenario.K (snd (fst Scenario.eigen3)) [0; 2]
             [[0; 0; 0]; [0; 0; 0]]%float [[0; 0; 0]; [0; 0; 0]]%float []
    = Ok (s', mkCaller [[1; 0; 0]; [0; 0; 1]]%float [[0; 0; 0]; [0; 0; 0]]%float [] [])
    /\ m_working_set s' = m_working_set (snd (fst Scenario.eigen3))
    /\ m_working_set s' = [].
Proof.
  destruct (solution Scenario.K (snd (fst Scenario.eigen3)) [0; 2]
              [[0; 0; 0]; [0; 0; 0]]%float [[0; 0; 0]; [0; 0; 0]]%float [])
    as [[s' cv']|e] eqn:E.
  - exists s'.
    pose proof (solution_restores_working_set _ _ _ _ _ _ _ _ _ _ E) as (Hw & _).
    assert (Hcv : cv' = mkCaller [[1; 0; 0]; [0; 0; 1]]%float
                                 [[0; 0; 0]; [0; 0; 0]]%float [] []).
    { vm_compute in E. injection E as _ <-. reflexivity. }
    rewrite Hcv. split; [reflexivity|]. split; [exact Hw|]. rewrite Hw. reflexivity.
  - vm_compute in E. discriminate.
Defined.

(** ** The caller's buffers in [addVector] *)

Section BufferFacts.
Context {T : Type} {ops : VectorOps T}.
Variable K : Platform.

Lemma length_overwrite_front {A} (front l : list A) :
  length front <= length l -> length (overwrite_front front l) = length l.
Proof.
  intro H. unfold overwrite_front. rewrite length_app, length_skipn. lia.
Qed.

Lemma addVector_enter_lengths (s s1 : Solver T) (cv cv1 : caller_vectors T) :
  addVector_enter s cv = Ok (s1, cv1) ->
  length (m_working_set s) <= length (parameters cv)
  /\ length (action cv) = length (parameters cv)
  /\ length (parameters cv1) = length (parameters cv)
  /\ length (action cv1) = length (action cv).
Proof.
  unfold addVector_enter.
  destruct (length (m_working_set s) <=? length (parameters cv)) eqn:E1;
    [|discriminate].
  cbn [assert bind].
  destruct (length (parameters cv) =? length (action cv)) eqn:E2; [|discriminate].
  cbn [assert bind].
  apply Nat.leb_le in E1. apply Nat.eqb_eq in E2.
  match goal with
  | |- bind ?r _ = _ -> _ => destruct r as [s2|]; [|discriminate]
  end.
  cbn [bind]. intro H. injection H as _ <-. cbn [parameters action].
  split; [exact E1|]. split; [now symmetry|].
  split; apply length_overwrite_front;
    rewrite length_map, length_map, length_combine, !length_firstn; lia.
Qed.

Lemma length_nullify (s s' : Solver T) (cv cv' : caller_vectors T) :
  nullify s cv = (s', cv') ->
  length (parameters cv') = length (parameters cv)
  /\ length (action cv') = length (action cv).
Proof.
  unfold nullify. destruct (m_nullify_solution_before_update s); intro H;
    injection H as _ <-; [|split; reflexivity].
  cbn [parameters action]. split; [|reflexivity].
  apply length_overwrite_front. rewrite length_map, length_firstn. lia.
Qed.

Lemma addVector_leave_lengths (s s' : Solver T) (cv cv' : caller_vectors T) (n : nat) :
  addVector_leave s cv = Ok (n, s', cv') ->
  m_roots s <= length (parameters cv)
  /\ length (parameters cv') = length (parameters cv)
  /\ length (action cv') = length (action cv).
Proof.
  unfold addVector_leave.
  destruct (length (parameters cv) <? m_roots s) eqn:Eroots; [discriminate|].
  apply Nat.ltb_ge in Eroots.
  set (s1 := set_working_set _ (set_errors _ s)).
  destruct (if m_linear s1 then doInterpolation s1 cv false else Ok cv) as [cv1|] eqn:E1;
    [|discriminate].
  cbn [bind].
  set (s2 := set_errors _ s1).
  destruct (doInterpolation s2 cv1 true) as [cv2|] eqn:E2; [|discriminate].
  cbn [bind].
  set (s3 := set_last_hd [] (set_last_d [] s2)).
  set (st := retire_loop (m_working_set s3) 0 (mkRetiring s3 (parameters cv2) (action cv2))).
  destruct (assert _ "m_last_d.size() == m_working_set.size()"); [|discriminate].
  cbn [bind].
  destruct (doInterpolation (rt_solver st) _ false) as [cv3|] eqn:E3; [|discriminate].
  cbn [bind].
  destruct (nullify (rt_solver st) cv3) as [s4 cv4] eqn:En.
  intro H. injection H as _ _ <-.
  apply length_nullify in En. destruct En as [N1 N2].
  assert (Hl1 : length (parameters cv1) = length (parameters cv)
                /\ length (action cv1) = length (action cv)).
  { destruct (m_linear s1); [now apply doInterpolation_lengths in E1|].
    injection E1 as <-. auto. }
  pose proof (doInterpolation_reach _ _ _ _ E2) as [Hreach1 Hreach].
  apply doInterpolation_lengths in E2.
  change (length (m_working_set s2)) with (length (seq 0 (m_roots s))) in Hreach, Hreach1.
  rewrite length_seq in Hreach, Hreach1.
  pose proof (retire_loop_spec (seq 0 (m_roots s)) []
                (mkRetiring s3 (parameters cv2) (action cv2))) as Hloop.
  cbv zeta in Hloop. solver_simpl_in Hloop.
  specialize (Hloop eq_refl).
  cbn [app length] in Hloop. rewrite length_seq in Hloop.
  change (retire_loop (seq 0 (m_roots s)) 0
                      (mkRetiring s3 (parameters cv2) (action cv2))) with st in Hloop.
  destruct Hloop as (_ & Lp & La & _); [lia | lia |].
  apply doInterpolation_lengths in E3. cbn [parameters action] in E3.
  split; [exact Eroots|]. split; intuition congruence.
Qed.

End BufferFacts.

(** X5.  A call of [addVector] that goes past the early return and returns
    was given as many action vectors as parameter vectors, at least as many
    as the working set is long and at least as many as there are roots; it
    hands the same number of each back, and the value it returns is at most
    the number of roots. *)
Theorem addVector_buffers :
  forall (T : Type) (ops : VectorOps T) (K : Platform)
         (s s' : Solver T) (cv cv' : caller_vectors T) (n : nat),
    addVector K s cv = Ok (n, s', cv') ->
    m_working_set (initialise s cv) <> [] ->
    length (action cv) = length (parameters cv)
    /\ length (m_working_set (initialise s cv)) <= length (parameters cv)
    /\ m_roots s' <= length (parameters cv)
    /\ length (parameters cv') = length (parameters cv)
    /\ length (action cv') = length (action cv)
    /\ n <= m_roots s'.
Proof.
  intros T ops K s s' cv cv' n H Hne.
  destruct (addVector_stages K _ _ _ _ _ H Hne) as (s_in & cv_in & s_solved & b & He & Hs & Hl).
  destruct (addVector_enter_lengths _ _ _ _ He) as (E1 & E2 & E3 & E4).
  destruct (addVector_leave_lengths _ _ _ _ _ Hl) as (L1 & L2 & L3).
  destruct (addVector_leave_spec _ _ _ _ _ Hl) as (Hn & Hws & Hr & _).
  split; [exact E2|]. split; [exact E1|].
  split; [rewrite Hr; lia|]. split; [congruence|]. split; [congruence|].
  rewrite Hn, Hws.
  etransitivity; [apply filter_length_le | rewrite length_seq; lia].
Qed.

(** X5 on the first call of the eigensolver for diag(1, 2, 3). *)
Lemma addVector_buffers_witness :
  length (action (Scenario.eigen_caller 3)) = length (parameters (Scenario.eigen_caller 3))
  /\ length (parameters (snd Scenario.eigen3)) = 3
  /\ fst (fst Scenario.eigen3) <= m_roots (snd (fst Scenario.eigen3)).
Proof.
  destruct (addVector_buffers DenseVector.t DenseVector_ops Scenario.K
              new_LinearEigensystem (snd (fst Scenario.eigen3))
              (Scenario.eigen_caller 3) (snd Scenario.eigen3) (fst (fst Scenario.eigen3)))
    as (H1 & _ & _ & H4 & _ & H6).
  - vm_compute. reflexivity.
  - vm_compute. discriminate.
  - split; [exact H1|]. split; [rewrite H4; reflexivity | exact H6].
Defined.

(** ** [find_ref] on any references and on part of a vector *)

Section FindRefFacts.
Import Wrap.

Lemma find_ref_as_filter (ws : list reference) (first last : nat) :
  find_ref ws first last
  = filter (fun i => existsb (Nat.eqb (first + i)) ws) (seq 0 (last - first)).
Proof.
  unfold find_ref. rewrite find_ref_loop_spec by lia.
  replace (first - first) with 0 by lia.
  apply filter_ext. intro i. apply eq_true_iff_eq.
  rewrite found_true_iff, existsb_exists. split.
  - intro H. exists (first + i). split; [exact H | apply Nat.eqb_refl].
  - intros (x & Hx & E). apply Nat.eqb_eq in E. now subst.
Qed.

Lemma existsb_eqb_in (r : nat) (ws : list nat) :
  existsb (Nat.eqb r) ws = true <-> In r ws.
Proof.
  rewrite existsb_exists. split.
  - intros (x & Hx & E). apply Nat.eqb_eq in E. now subst.
  - intro H. exists r. split; [exact H | apply Nat.eqb_refl].
Qed.

Lemma filter_none {A} (p : A -> bool) (l : list A) :
  (forall x, In x l -> p x = false) -> filter p l = [].
Proof.
  induction l as [|x l IH]; intro H; cbn [filter]; [reflexivity|].
  rewrite (H x (or_introl eq_refl)). apply IH. intros y Hy. apply H. now right.
Qed.

End FindRefFacts.

(** X6.  For any references whatever, [find_ref] returns, in strictly
    ascending order, exactly the positions, counted from [begin], of the
    elements of the range [begin, end) that some reference points to.  So the
    result depends only on which elements of the range are referred to: the
    order of the references, repeated references and references to objects
    outside the range make no difference. *)
Theorem find_ref_any_references :
  forall (ws : list Wrap.reference) (first last : nat),
    StronglySorted lt (Wrap.find_ref ws first last)
    /\ (forall i, In i (Wrap.find_ref ws first last) <->
                  i < last - first /\ In (first + i) ws)
    /\ (forall ws' : list Wrap.reference,
          (forall r, first <= r < last -> (In r ws <-> In r ws')) ->
          Wrap.find_ref ws' first last = Wrap.find_ref ws first last).
Proof.
  intros ws first last. rewrite find_ref_as_filter. split; [|split].
  - apply filter_seq_sorted.
  - intro i. rewrite filter_In, in_seq, existsb_eqb_in. split; intros [H1 H2];
      (split; [lia | exact H2]).
  - intros ws' Hsame. rewrite find_ref_as_filter.
    apply filter_ext_in. intros i Hi. apply in_seq in Hi.
    apply eq_true_iff_eq. rewrite !existsb_eqb_in. symmetry. apply Hsame. lia.
Qed.

(** X7.  Part of a vector.  The references that [wrap(begin + a, begin + b)]
    makes of the elements [a .. b-1] of a vector are found at the positions
    [a .. b-1] of the whole vector; and all references of the vector, looked up
    in the range from [begin + a] to [begin + b] only, are found at the
    positions [0 .. b-a-1]: positions are counted from the start of the range
    handed to [find_ref], not from the start of the vector. *)
Theorem find_ref_part_of_vector :
  forall (R : Type) (v : Wrap.vector R) (a b : nat),
    a <= b -> b <= length (Wrap.elems v) ->
    Wrap.find_ref (WrapRange.wrap (Wrap.begin v + a) (Wrap.begin v + b))
                  (Wrap.begin v) (Wrap.end_ v)
    = seq a (b - a)
    /\ Wrap.find_ref (Wrap.wrap v) (Wrap.begin v + a) (Wrap.begin v + b)
       = seq 0 (b - a).
Proof.
  intros R v a b Hab Hb. unfold WrapRange.wrap, Wrap.begin, Wrap.end_, Wrap.wrap.
  rewrite !find_ref_as_filter, wrap_from_seq. split.
  - replace (Wrap.data v + length (Wrap.elems v) - Wrap.data v)
      with (a + ((b - a) + (length (Wrap.elems v) - b))) by lia.
    replace (Wrap.data v + b - (Wrap.data v + a)) with (b - a) by lia.
    rewrite !seq_app, !filter_app.
    rewrite (filter_none _ (seq 0 a)), (filter_none _ (seq (a + (b - a)) _)).
    + rewrite app_nil_r. cbn [app Nat.add].
      apply forallb_filter_id. apply forallb_forall. intros i Hi. apply in_seq in Hi.
      apply existsb_eqb_in. apply in_seq. lia.
    + intros i Hi. apply in_seq in Hi.
      destruct (existsb _ _) eqn:E; [|reflexivity].
      apply existsb_eqb_in, in_seq in E. lia.
    + intros i Hi. apply in_seq in Hi.
      destruct (existsb _ _) eqn:E; [|reflexivity].
      apply existsb_eqb_in, in_seq in E. lia.
  - replace (Wrap.data v + b - (Wrap.data v + a)) with (b - a) by lia.
    apply forallb_filter_id. apply forallb_forall. intros i Hi. apply in_seq in Hi.
    apply existsb_eqb_in. apply in_seq. lia.
Qed.

(** X7 on the elements 1 and 2 of a vector of five stored from address 1000. *)
Lemma find_ref_part_of_vector_witness :
  Wrap.find_ref (WrapRange.wrap 1001 1003) 1000 1005 = [1; 2]
  /\ Wrap.find_ref (Wrap.wrap (Wrap.mkVector 1000 [10; 20; 30; 40; 50])) 1001 1003 = [0; 1].
Proof.
  apply (find_ref_part_of_vector nat (Wrap.mkVector 1000 [10; 20; 30; 40; 50]) 1 3);
    cbn; lia.
Defined.

(** ** subspace/util.h: overlap matrices *)

Section SweepFacts.

Lemma coeff_set {A} (zero : A) (m : Mat.t A) (i j : nat) (x : A) (a b : nat) :
  a < Mat.rows m -> b < Mat.cols m ->
  Mat.coeff zero (Mat.set zero m i j x) a b
  = if (a =? i) && (b =? j) then x else Mat.coeff zero m a b.
Proof. intros Ha Hb. unfold Mat.set. now rewrite coeff_build. Qed.

(** Two nested loops as one loop over the pairs of indices. *)
Lemma nested_loops {S} (f : S -> nat * nat -> S) (js : nat -> list nat) (l : list nat) :
  forall s,
    fold_left (fun s i => fold_left (fun s j => f s (i, j)) (js i) s) l s
    = fold_left f (flat_map (fun i => map (pair i) (js i)) l) s.
Proof.
  induction l as [|i l IH]; intro s; cbn [fold_left flat_map]; [reflexivity|].
  rewrite fold_left_app, IH. f_equal.
  generalize (js i) s. clear. intro l. induction l as [|j l IH]; intro s; cbn; auto.
Qed.

Lemma in_pairs (js : nat -> list nat) (l : list nat) (i j : nat) :
  In (i, j) (flat_map (fun i => map (pair i) (js i)) l) <-> In i l /\ In j (js i).
Proof.
  rewrite in_flat_map. split.
  - intros (i' & Hi & Hj). apply in_map_iff in Hj. destruct Hj as (j' & E & Hj).
    injection E as -> ->. auto.
  - intros [Hi Hj]. exists i. split; [exact Hi|]. now apply in_map.
Qed.

Lemma NoDup_pairs (js : nat -> list nat) (l : list nat) :
  NoDup l -> (forall i, NoDup (js i)) ->
  NoDup (flat_map (fun i => map (pair i) (js i)) l).
Proof.
  intros Hl Hjs. induction Hl as [|i l Hi Hl IH]; cbn [flat_map]; [constructor|].
  apply NoDup_app.
  - apply Finite.Injective_map_NoDup; [|apply Hjs]. intros a b E. now injection E.
  - exact IH.
  - intros [a b] Hab Hab'. apply in_map_iff in Hab. destruct Hab as (j & E & _).
    injection E as <- <-. apply in_pairs in Hab'. tauto.
Qed.

(** A loop that gives the elements (i, j) and (j, i) one value each turn, for
    pairs with [j <= i] none of which comes twice: every pair of the list ends
    with the value computed from the matrix the loop started from, provided
    that value depends on nothing another turn writes. *)
Lemma sweep_spec (n : nat) (val : Mat.real -> nat -> nat -> option float)
      (stable : forall m i j i0 j0 x,
          Mat.rows m = n -> Mat.cols m = n ->
          (i, j) <> (i0, j0) -> j <= i -> j0 <= i0 -> i < n -> i0 < n ->
          val (Mat.set 0%float (Mat.set 0%float m j0 i0 x) i0 j0 x) i j = val m i j)
      (L : list (nat * nat)) :
  forall m : Mat.real,
    Mat.rows m = n -> Mat.cols m = n -> NoDup L ->
    (forall i j, In (i, j) L -> j <= i /\ i < n) ->
    let m' := fold_left (fun m ij =>
                match val m (fst ij) (snd ij) with
                | Some x => Mat.set 0%float (Mat.set 0%float m (snd ij) (fst ij) x)
                                    (fst ij) (snd ij) x
                | None => m
                end) L m in
    Mat.rows m' = n /\ Mat.cols m' = n
    /\ (forall i j x, In (i, j) L -> val m i j = Some x ->
                      Mat.rcoeff m' i j = x /\ Mat.rcoeff m' j i = x)
    /\ (forall a b, a < n -> b < n -> ~ In (a, b) L -> ~ In (b, a) L ->
                    Mat.rcoeff m' a b = Mat.rcoeff m a b).
Proof.
  induction L as [|[i0 j0] L IH]; intros m Hr Hc Hnd Hin; cbn [fold_left fst snd].
  - cbv zeta. split; [exact Hr|]. split; [exact Hc|].
    split; [intros i j x []|]. intros; reflexivity.
  - apply NoDup_cons_iff in Hnd. destruct Hnd as [Hnotin Hnd'].
    destruct (Hin i0 j0 (or_introl eq_refl)) as [Hj0 Hi0].
    assert (Hin' : forall i j, In (i, j) L -> j <= i /\ i < n)
      by (intros i j H; apply Hin; now right).
    assert (Hrev : ~ In (j0, i0) L \/ i0 = j0).
    { destruct (Nat.eq_dec i0 j0) as [E|E]; [now right | left].
      intro H. apply Hin' in H. lia. }
    destruct (val m i0 j0) as [x0|] eqn:E0.
    + set (m1 := Mat.set 0%float (Mat.set 0%float m j0 i0 x0) i0 j0 x0).
      destruct (IH m1 Hr Hc Hnd' Hin') as (H1 & H2 & H3 & H4).
      assert (Hval : forall i j, In (i, j) L -> val m1 i j = val m i j).
      { intros i j H. destruct (Hin' i j H). apply stable; auto. congruence. }
      assert (Hm1 : forall a b, a < n -> b < n ->
                Mat.rcoeff m1 a b
                = if ((a =? i0) && (b =? j0)) || ((a =? j0) && (b =? i0)) then x0
                  else Mat.rcoeff m a b).
      { intros a b Ha Hb. unfold m1, Mat.rcoeff.
        rewrite coeff_set by (cbn [Mat.set Mat.build Mat.rows Mat.cols]; lia).
        destruct ((a =? i0) && (b =? j0)); [reflexivity|].
        rewrite coeff_set by lia. cbn [orb].
        destruct ((a =? j0) && (b =? i0)); reflexivity. }
      assert (Hhead : Mat.rcoeff m1 i0 j0 = x0 /\ Mat.rcoeff m1 j0 i0 = x0).
      { rewrite !Hm1 by lia. rewrite !Nat.eqb_refl. cbn [andb orb].
        split; [reflexivity|]. destruct ((j0 =? i0) && (i0 =? j0)); reflexivity. }
      assert (Hnotin' : ~ In (j0, i0) L)
        by (destruct Hrev as [H | ->]; assumption).
      cbv zeta. split; [exact H1|]. split; [exact H2|]. split.
      * intros i j x [E | Hi] Hx.
        -- injection E as <- <-. rewrite E0 in Hx. injection Hx as <-.
           rewrite !H4 by (assumption || lia). exact Hhead.
        -- apply H3; [exact Hi|]. now rewrite Hval.
      * intros a b Ha Hb Hx Hy.
        rewrite H4 by (try assumption; intro H; (apply Hx + apply Hy); now right).
        rewrite Hm1 by assumption.
        destruct (((a =? i0) && (b =? j0)) || ((a =? j0) && (b =? i0))) eqn:Eab;
          [|reflexivity].
        exfalso. apply orb_true_iff in Eab. destruct Eab as [E | E];
          apply andb_true_iff in E; destruct E as [E1 E2];
          apply Nat.eqb_eq in E1, E2; subst; [apply Hx | apply Hy]; now left.
    + destruct (IH m Hr Hc Hnd' Hin') as (H1 & H2 & H3 & H4).
      cbv zeta. split; [exact H1|]. split; [exact H2|]. split.
      * intros i j x [E | Hi] Hx; [injection E as <- <-; congruence | now apply H3].
      * intros a b Ha Hb Hx Hy. apply H4; try assumption;
          intro H; [apply Hx | apply Hy]; now right.
Qed.

End SweepFacts.

Section OverlapFacts.
Context {R : Type}.
Variable handler_dot : R -> R -> float.

Lemma fold_left_ext_in {S E} (f g : S -> E -> S) (l : list E) :
  (forall s e, In e l -> f s e = g s e) -> forall s, fold_left f l s = fold_left g l s.
Proof.
  induction l as [|e l IH]; intros H s; cbn [fold_left]; [reflexivity|].
  rewrite H by now left. apply IH. intros s' e' He. apply H. now right.
Qed.

Lemma lower_triangle (n i j : nat) :
  In (i, j) (flat_map (fun i => map (pair i) (seq 0 (S i))) (seq 0 n)) <-> j <= i /\ i < n.
Proof. rewrite in_pairs, !in_seq. lia. Qed.

Lemma strict_lower_triangle (n i j : nat) :
  In (i, j) (flat_map (fun i => map (pair i) (seq 0 i)) (seq 0 n)) <-> j < i /\ i < n.
Proof. rewrite in_pairs, !in_seq. lia. Qed.

Lemma overlap_entries (params : list R) :
  let m := SubspaceUtil.overlap handler_dot params in
  Mat.rows m = length params /\ Mat.cols m = length params
  /\ forall i j pi pj,
       nth_error params i = Some pi -> nth_error params j = Some pj -> j <= i ->
       Mat.rcoeff m i j = handler_dot pi pj /\ Mat.rcoeff m j i = handler_dot pi pj.
Proof.
  set (n := length params).
  set (val := fun (_ : Mat.real) i j =>
                match nth_error params i, nth_error params j with
                | Some pi, Some pj => Some (handler_dot pi pj)
                | _, _ => None
                end).
  set (L := flat_map (fun i => map (pair i) (seq 0 (S i))) (seq 0 n)).
  assert (E : SubspaceUtil.overlap handler_dot params
              = fold_left (fun m ij =>
                  match val m (fst ij) (snd ij) with
                  | Some x => Mat.set 0%float (Mat.set 0%float m (snd ij) (fst ij) x)
                                      (fst ij) (snd ij) x
                  | None => m
                  end) L (SubspaceUtil.new_matrix n n)).
  { unfold SubspaceUtil.overlap.
    etransitivity;
      [exact (nested_loops
                (fun m ij =>
                   match nth_error params (fst ij), nth_error params (snd ij) with
                   | Some pi, Some pj =>
                       let x := handler_dot pi pj in
                       Mat.set 0%float (Mat.set 0%float m (snd ij) (fst ij) x)
                               (fst ij) (snd ij) x
                   | _, _ => m
                   end) (fun i => seq 0 (S i)) (seq 0 n) (SubspaceUtil.new_matrix n n))|].
    apply fold_left_ext_in. intros m [i j] _. unfold val. cbn [fst snd].
    destruct (nth_error params i), (nth_error params j); reflexivity. }
  cbv zeta. rewrite E.
  destruct (sweep_spec n val) with (L := L) (m := SubspaceUtil.new_matrix n n)
    as (H1 & H2 & H3 & _).
  - intros. reflexivity.
  - reflexivity.
  - reflexivity.
  - apply NoDup_pairs; intros; apply seq_NoDup.
  - intros i j H. now apply lower_triangle in H.
  - split; [exact H1|]. split; [exact H2|].
    intros i j pi pj Hi Hj Hle. apply H3.
    + apply lower_triangle. split; [exact Hle|].
      apply nth_error_Some. congruence.
    + unfold val. now rewrite Hi, Hj.
Qed.

End OverlapFacts.

Section BetweenFacts.
Context {R Q : Type}.
Variable handler_dot : R -> Q -> float.

(** A loop that assigns one element each turn, a value that does not depend
    on the matrix. *)
Lemma fill_spec (r c : nat) (val : nat -> nat -> option float) (L : list (nat * nat)) :
  forall m : Mat.real,
    Mat.rows m = r -> Mat.cols m = c ->
    (forall i j, In (i, j) L -> i < r /\ j < c) ->
    let m' := fold_left (fun m ij =>
                match val (fst ij) (snd ij) with
                | Some x => Mat.set 0%float m (fst ij) (snd ij) x
                | None => m
                end) L m in
    Mat.rows m' = r /\ Mat.cols m' = c
    /\ (forall i j x, In (i, j) L -> val i j = Some x -> Mat.rcoeff m' i j = x)
    /\ (forall a b, a < r -> b < c -> ~ In (a, b) L -> Mat.rcoeff m' a b = Mat.rcoeff m a b).
Proof.
  induction L as [|[i0 j0] L IH]; intros m Hr Hc Hin; cbn [fold_left fst snd].
  - cbv zeta. split; [exact Hr|]. split; [exact Hc|].
    split; [intros i j x []|]. intros; reflexivity.
  - destruct (Hin i0 j0 (or_introl eq_refl)) as [Hi0 Hj0].
    assert (Hin' : forall i j, In (i, j) L -> i < r /\ j < c)
      by (intros i j H; apply Hin; now right).
    assert (Hdec : forall a b, In (a, b) L \/ ~ In (a, b) L).
    { intros a b. destruct (in_dec (fun x y : nat * nat =>
        ltac:(decide equality; apply Nat.eq_dec)) (a, b) L); auto. }
    destruct (val i0 j0) as [x0|] eqn:E0.
    + set (m1 := Mat.set 0%float m i0 j0 x0).
      destruct (IH m1 Hr Hc Hin') as (H1 & H2 & H3 & H4).
      cbv zeta. split; [exact H1|]. split; [exact H2|]. split.
      * intros i j x Hi Hx. destruct (Hdec i j) as [Hl | Hl]; [now apply H3|].
        destruct Hi as [E | Hi]; [|contradiction].
        injection E as <- <-. rewrite H4 by assumption.
        unfold m1, Mat.rcoeff. rewrite coeff_set by lia.
        rewrite !Nat.eqb_refl. cbn [andb]. congruence.
      * intros a b Ha Hb Hab.
        rewrite H4 by (try assumption; intro H; apply Hab; now right).
        unfold m1, Mat.rcoeff. rewrite coeff_set by lia.
        destruct ((a =? i0) && (b =? j0)) eqn:E; [|reflexivity].
        exfalso. apply andb_true_iff in E. destruct E as [E1 E2].
        apply Nat.eqb_eq in E1, E2. subst. apply Hab. now left.
    + destruct (IH m Hr Hc Hin') as (H1 & H2 & H3 & H4).
      cbv zeta. split; [exact H1|]. split; [exact H2|]. split.
      * intros i j x [E | Hi] Hx; [injection E as <- <-; congruence | now apply H3].
      * intros a b Ha Hb Hab. apply H4; try assumption. intro H. apply Hab. now right.
Qed.

Lemma overlap_between_entries (left : list R) (right : list Q) :
  let m := SubspaceUtil.overlap_between handler_dot left right in
  Mat.rows m = length left /\ Mat.cols m = length right
  /\ forall i j l r,
       nth_error left i = Some l -> nth_error right j = Some r ->
       Mat.rcoeff m i j = handler_dot l r.
Proof.
  set (nr := length left). set (nc := length right).
  set (val := fun i j =>
                match nth_error left i, nth_error right j with
                | Some l, Some r => Some (handler_dot l r)
                | _, _ => None
                end).
  set (L := flat_map (fun i => map (pair i) (seq 0 nc)) (seq 0 nr)).
  assert (E : SubspaceUtil.overlap_between handler_dot left right
              = fold_left (fun m ij =>
                  match val (fst ij) (snd ij) with
                  | Some x => Mat.set 0%float m (fst ij) (snd ij) x
                  | None => m
                  end) L (SubspaceUtil.new_matrix nr nc)).
  { unfold SubspaceUtil.overlap_between.
    etransitivity;
      [exact (nested_loops
                (fun m ij =>
                   match nth_error left (fst ij), nth_error right (snd ij) with
                   | Some l, Some r => Mat.set 0%float m (fst ij) (snd ij) (handler_dot l r)
                   | _, _ => m
                   end) (fun _ => seq 0 nc) (seq 0 nr) (SubspaceUtil.new_matrix nr nc))|].
    apply fold_left_ext_in. intros m [i j] _. unfold val. cbn [fst snd].
    destruct (nth_error left i), (nth_error right j); reflexivity. }
  cbv zeta. rewrite E.
  destruct (fill_spec nr nc val L (SubspaceUtil.new_matrix nr nc)) as (H1 & H2 & H3 & _).
  - reflexivity.
  - reflexivity.
  - intros i j H. apply in_pairs in H. rewrite !in_seq in H. lia.
  - split; [exact H1|]. split; [exact H2|].
    intros i j l r Hi Hj. apply H3.
    + apply in_pairs. rewrite !in_seq. split.
      * split; [lia|]. apply nth_error_Some. congruence.
      * split; [lia|]. apply nth_error_Some. congruence.
    + unfold val. now rewrite Hi, Hj.
Qed.

End BetweenFacts.

(** X8.  [overlap(params, handler)] returns a square matrix of the size of
    [params] that is symmetric by construction: the elements (i, j) and (j, i)
    with [j <= i] are both [handler.dot(params[i], params[j])], whether the
    handler's [dot] is symmetric or not.  So it agrees with
    [overlap(params, params, handler)], whose element (i, j) is
    [handler.dot(params[i], params[j])] everywhere, on and below the diagonal;
    and with the specialisation for a handler that takes its arguments the
    other way round, on and above it. *)
Theorem overlap_symmetric_by_construction :
  forall (R : Type) (handler_dot : R -> R -> float) (params : list R),
    let m := SubspaceUtil.overlap handler_dot params in
    let full := SubspaceUtil.overlap_between handler_dot params params in
    let swapped := SubspaceUtil.overlap_between_swapped handler_dot params params in
    let n := length params in
    Mat.rows m = n /\ Mat.cols m = n
    /\ (forall i j, i < n -> j < n -> Mat.rcoeff m i j = Mat.rcoeff m j i)
    /\ (forall i j pi pj,
          nth_error params i = Some pi -> nth_error params j = Some pj -> j <= i ->
          Mat.rcoeff m i j = handler_dot pi pj /\ Mat.rcoeff m j i = handler_dot pi pj)
    /\ (forall i j, j <= i -> i < n -> Mat.rcoeff full i j = Mat.rcoeff m i j)
    /\ (forall i j, i <= j -> j < n -> Mat.rcoeff swapped i j = Mat.rcoeff m i j).
Proof.
  intros R handler_dot params m full swapped n.
  destruct (overlap_entries handler_dot params) as (H1 & H2 & H3).
  destruct (overlap_between_entries handler_dot params params) as (_ & _ & F3).
  destruct (overlap_between_entries (fun l r => handler_dot r l) params params)
    as (_ & _ & S3).
  fold m in H1, H2, H3. fold full in F3.
  assert (Hget : forall i, i < n -> exists p, nth_error params i = Some p).
  { intros i Hi. destruct (nth_error params i) as [p|] eqn:E; [now exists p|].
    apply nth_error_None in E. unfold n in Hi. lia. }
  split; [exact H1|]. split; [exact H2|]. split; [|split; [exact H3|split]].
  - intros i j Hi Hj. destruct (Hget i Hi) as [pi Ei], (Hget j Hj) as [pj Ej].
    destruct (Nat.le_ge_cases j i) as [Hle | Hle].
    + destruct (H3 i j pi pj Ei Ej Hle) as [-> ->]. reflexivity.
    + destruct (H3 j i pj pi Ej Ei Hle) as [-> ->]. reflexivity.
  - intros i j Hle Hi. destruct (Hget i Hi) as [pi Ei], (Hget j) as [pj Ej]; [lia|].
    rewrite (F3 i j pi pj Ei Ej). now destruct (H3 i j pi pj Ei Ej Hle) as [-> _].
  - intros i j Hle Hj. destruct (Hget j Hj) as [pj Ej], (Hget i) as [pi Ei]; [lia|].
    unfold swapped, SubspaceUtil.overlap_between_swapped.
    rewrite (S3 i j pi pj Ei Ej). now destruct (H3 j i pj pi Ej Ei Hle) as [_ ->].
Qed.

(** ** subspace/util.h: [matrix_symmetrize] *)

(** X9.  [matrix_symmetrize] fails its assertion on a matrix that is not
    square.  On a square matrix it leaves the size and the diagonal alone, and
    gives the elements (i, j) and (j, i), for [j < i], the value
    [0.5 * (mat(i, j) + mat(j, i))] computed from the matrix as it was passed:
    the result is symmetric. *)
Theorem matrix_symmetrize_symmetric :
  forall mat : Mat.real,
    (Mat.rows mat <> Mat.cols mat ->
     SubspaceUtil.matrix_symmetrize mat = Throw (assertion_failed "must be a square matrix"))
    /\ (Mat.rows mat = Mat.cols mat ->
        exists m' : Mat.real,
          SubspaceUtil.matrix_symmetrize mat = Ok m'
          /\ Mat.rows m' = Mat.rows mat /\ Mat.cols m' = Mat.cols mat
          /\ (forall i j, j < i -> i < Mat.rows mat ->
                Mat.rcoeff m' i j = (0.5 * (Mat.rcoeff mat i j + Mat.rcoeff mat j i))%float
                /\ Mat.rcoeff m' j i = (0.5 * (Mat.rcoeff mat i j + Mat.rcoeff mat j i))%float)
          /\ (forall i, i < Mat.rows mat -> Mat.rcoeff m' i i = Mat.rcoeff mat i i)
          /\ (forall i j, i < Mat.rows mat -> j < Mat.rows mat ->
                Mat.rcoeff m' i j = Mat.rcoeff m' j i)).
Proof.
  intro mat. unfold SubspaceUtil.matrix_symmetrize. split.
  - intro Hne. apply Nat.eqb_neq in Hne. now rewrite Hne.
  - intro Hsq. rewrite (proj2 (Nat.eqb_eq _ _) Hsq). cbn [assert bind].
    set (n := Mat.rows mat).
    set (val := fun (m : Mat.real) i j =>
                  Some (0.5 * (Mat.rcoeff m i j + Mat.rcoeff m j i))%float).
    set (L := flat_map (fun i => map (pair i) (seq 0 i)) (seq 0 n)).
    eexists. split; [reflexivity|].
    match goal with
    | |- context [fold_left ?F (seq 0 n) mat] => set (m' := fold_left F (seq 0 n) mat)
    end.
    assert (E : m' = fold_left (fun m ij =>
                  match val m (fst ij) (snd ij) with
                  | Some x => Mat.set 0%float (Mat.set 0%float m (snd ij) (fst ij) x)
                                      (fst ij) (snd ij) x
                  | None => m
                  end) L mat).
    { exact (nested_loops
               (fun m ij =>
                  let x := (0.5 * (Mat.rcoeff m (fst ij) (snd ij)
                                   + Mat.rcoeff m (snd ij) (fst ij)))%float in
                  Mat.set 0%float (Mat.set 0%float m (snd ij) (fst ij) x)
                          (fst ij) (snd ij) x) (fun i => seq 0 i) (seq 0 n) mat). }
    destruct (sweep_spec n val) with (L := L) (m := mat) as (H1 & H2 & H3 & H4).
    + intros m i j i0 j0 x Hr Hc Hne Hji Hj0 Hi Hi0. unfold val, Mat.rcoeff.
      rewrite !coeff_set by (cbn [Mat.set Mat.build Mat.rows Mat.cols]; lia).
      assert (B1 : (i =? i0) && (j =? j0) = false).
      { apply andb_false_iff. destruct (Nat.eq_dec i i0) as [->|];
          [right | left]; apply Nat.eqb_neq; congruence. }
      assert (B2 : (i =? j0) && (j =? i0) = false).
      { apply andb_false_iff. destruct (Nat.eq_dec i j0) as [->|];
          [right | left]; apply Nat.eqb_neq; [|assumption].
        intros ->. apply Hne. f_equal; lia. }
      assert (B3 : (j =? i0) && (i =? j0) = false) by (now rewrite andb_comm).
      assert (B4 : (j =? j0) && (i =? i0) = false) by (now rewrite andb_comm).
      now rewrite B1, B2, B3, B4.
    + reflexivity.
    + symmetry. exact Hsq.
    + apply NoDup_pairs; intros; apply seq_NoDup.
    + intros i j H. apply strict_lower_triangle in H. lia.
    + rewrite <- E in H1, H2, H3, H4.
      assert (Hlow : forall i j, j < i -> i < n ->
                Mat.rcoeff m' i j = (0.5 * (Mat.rcoeff mat i j + Mat.rcoeff mat j i))%float
                /\ Mat.rcoeff m' j i
                   = (0.5 * (Mat.rcoeff mat i j + Mat.rcoeff mat j i))%float).
      { intros i j Hj Hi. apply H3; [|reflexivity]. apply strict_lower_triangle. lia. }
      split; [exact H1|]. split; [now rewrite H2|]. split; [exact Hlow|]. split.
      * intros i Hi. apply H4; try assumption;
          intro H; apply strict_lower_triangle in H; lia.
      * intros i j Hi Hj.
        destruct (Nat.lt_trichotomy i j) as [Hlt | [-> | Hlt]]; [|reflexivity|].
        -- destruct (Hlow j i Hlt Hj) as [-> ->]. reflexivity.
        -- destruct (Hlow i j Hlt Hi) as [-> ->]. reflexivity.
Qed.

(** ** subspace/util.h: [max_element_index] and [eye_order] *)

Section EyeOrderFacts.
Variable mat : Mat.real.

Lemma gt_asym (a b : float) : Num.gt a b = true -> Num.gt b a = false.
Proof.
  unfold Num.gt. intro H. destruct (PrimFloat.ltb a b) eqn:E; [|reflexivity].
  pose proof (lt_trans _ _ _ E H) as H'. now rewrite lt_irrefl in H'.
Qed.

Lemma gt_trans (a b c : float) :
  Num.gt a b = true -> Num.gt b c = true -> Num.gt a c = true.
Proof. unfold Num.gt. intros H1 H2. exact (lt_trans _ _ _ H2 H1). Qed.

(** The scan for the greatest element, over a list of places. *)
Lemma max_scan (L : list (nat * nat)) :
  forall st : float * (nat * nat),
    let st' := fold_left (fun st ij =>
                 if Num.gt (Mat.rcoeff mat (fst ij) (snd ij)) (fst st)
                 then (Mat.rcoeff mat (fst ij) (snd ij), ij) else st) L st in
    (st' = st
     /\ forall ij, In ij L -> Num.gt (Mat.rcoeff mat (fst ij) (snd ij)) (fst st) = false)
    \/ (In (snd st') L
        /\ fst st' = Mat.rcoeff mat (fst (snd st')) (snd (snd st'))
        /\ Num.gt (fst st') (fst st) = true
        /\ forall ij, In ij L -> Num.gt (Mat.rcoeff mat (fst ij) (snd ij)) (fst st') = false).
Proof.
  induction L as [|ij0 L IH]; intro st; cbn [fold_left].
  - left. split; [reflexivity | intros ij []].
  - set (x := Mat.rcoeff mat (fst ij0) (snd ij0)).
    destruct (Num.gt x (fst st)) eqn:E.
    + right. destruct (IH (x, ij0)) as [[H1 H2] | (H1 & H2 & H3 & H4)]; cbv zeta in *.
      * rewrite H1. cbn [fst snd] in *. split; [now left|]. split; [reflexivity|].
        split; [exact E|]. intros ij [<- | Hij]; [apply lt_irrefl | now apply H2].
      * cbn [fst snd] in H3. split; [now right|]. split; [exact H2|].
        split; [exact (gt_trans _ _ _ H3 E)|].
        intros ij [<- | Hij]; [now apply gt_asym | now apply H4].
    + destruct (IH st) as [[H1 H2] | (H1 & H2 & H3 & H4)]; cbv zeta in *.
      * left. split; [exact H1|]. intros ij [<- | Hij]; [exact E | now apply H2].
      * right. split; [now right|]. split; [exact H2|]. split; [exact H3|].
        intros ij [<- | Hij]; [|now apply H4].
        fold x.
        match goal with
        | |- Num.gt x ?v = false => destruct (Num.gt x v) eqn:E'; [|reflexivity]
        end.
        pose proof (gt_trans _ _ _ E' H3). congruence.
Qed.

Lemma max_element_index_scan (rows cols : list nat) :
  SubspaceUtil.max_element_index rows cols mat
  = snd (fold_left (fun st ij =>
                 if Num.gt (Mat.rcoeff mat (fst ij) (snd ij)) (fst st)
                 then (Mat.rcoeff mat (fst ij) (snd ij), ij) else st)
               (flat_map (fun i => map (pair i) cols) rows)
               (SubspaceUtil.lowest, (0, 0))).
Proof.
  unfold SubspaceUtil.max_element_index. f_equal.
  exact (nested_loops
           (fun st ij =>
              if Num.gt (Mat.rcoeff mat (fst ij) (snd ij)) (fst st)
              then (Mat.rcoeff mat (fst ij) (snd ij), ij) else st)
           (fun _ => cols) rows (SubspaceUtil.lowest, (0, 0))).
Qed.

Lemma max_element_index_found (rows cols : list nat) (i j : nat) :
  In i rows -> In j cols -> Num.gt (Mat.rcoeff mat i j) SubspaceUtil.lowest = true ->
  let ij := SubspaceUtil.max_element_index rows cols mat in
  In (fst ij) rows /\ In (snd ij) cols
  /\ Num.gt (Mat.rcoeff mat (fst ij) (snd ij)) SubspaceUtil.lowest = true
  /\ forall i' j', In i' rows -> In j' cols ->
                   Num.gt (Mat.rcoeff mat i' j') (Mat.rcoeff mat (fst ij) (snd ij)) = false.
Proof.
  intros Hi Hj Hgt. cbv zeta. rewrite max_element_index_scan.
  destruct (max_scan (flat_map (fun i => map (pair i) cols) rows)
                     (SubspaceUtil.lowest, (0, 0)))
    as [[_ H2] | (H1 & H2 & H3 & H4)]; cbv zeta in *.
  - specialize (H2 (i, j)). cbn [fst snd] in H2.
    rewrite H2 in Hgt; [discriminate | apply in_pairs; auto].
  - set (st' := fold_left _ _ _) in *. destruct st' as [v [a b]]. cbn [fst snd] in *.
    apply in_pairs in H1. destruct H1 as [Ha Hb]. subst v.
    split; [exact Ha|]. split; [exact Hb|]. split; [exact H3|].
    intros i' j' Hi' Hj'. apply (H4 (i', j')). apply in_pairs. auto.
Qed.

Lemma max_element_index_none (rows cols : list nat) :
  (forall i j, In i rows -> In j cols ->
               Num.gt (Mat.rcoeff mat i j) SubspaceUtil.lowest = false) ->
  SubspaceUtil.max_element_index rows cols mat = (0, 0).
Proof.
  intro Hall. rewrite max_element_index_scan.
  destruct (max_scan (flat_map (fun i => map (pair i) cols) rows)
                     (SubspaceUtil.lowest, (0, 0)))
    as [[H1 _] | (H1 & H2 & H3 & _)]; cbv zeta in *.
  - now rewrite H1.
  - set (st' := fold_left _ _ _) in *. destruct st' as [v [a b]]. cbn [fst snd] in *.
    apply in_pairs in H1. destruct H1 as [Ha Hb]. subst v.
    rewrite (Hall a b Ha Hb) in H3. discriminate.
Qed.

Lemma erase_found_spec (x : nat) (l : list nat) :
  In x l -> exists l', SubspaceUtil.erase_found x l = Some l' /\ Permutation l (x :: l').
Proof.
  induction l as [|y l IH]; intro H; [contradiction|]. cbn [SubspaceUtil.erase_found].
  destruct (x =? y) eqn:E.
  - apply Nat.eqb_eq in E. subst. now exists l.
  - apply Nat.eqb_neq in E. destruct H as [H | H]; [congruence|].
    destruct (IH H) as (l' & -> & Hp). exists (y :: l'). split; [reflexivity|].
    rewrite Hp. apply perm_swap.
Qed.

Lemma NoDup_app_disjoint {A} (l l' : list A) :
  NoDup (l ++ l') -> forall x, In x l -> ~ In x l'.
Proof.
  induction l as [|y l IH]; intros Hnd x Hx Hx'; [contradiction|].
  cbn [app] in Hnd. apply NoDup_cons_iff in Hnd. destruct Hnd as [Hy Hnd].
  destruct Hx as [-> | Hx]; [apply Hy, in_or_app; now right | exact (IH Hnd x Hx Hx')].
Qed.

Hypothesis above_lowest :
  forall i j, i < Mat.rows mat -> j < Mat.rows mat ->
              Num.gt (Mat.rcoeff mat i j) SubspaceUtil.lowest = true.

Lemma eye_order_loop_permutation (fuel : nat) :
  forall rows cols order done,
    length rows < fuel -> length rows = length cols -> length order = Mat.rows mat ->
    (forall i, In i rows -> i < Mat.rows mat) ->
    Permutation (done ++ cols) (seq 0 (Mat.rows mat)) ->
    Permutation (map (fun j => nth j order 0) done ++ rows) (seq 0 (Mat.rows mat)) ->
    exists order',
      SubspaceUtil.eye_order_loop fuel mat rows cols order = Returns order'
      /\ length order' = Mat.rows mat
      /\ Permutation order' (seq 0 (Mat.rows mat))
      /\ (forall d, In d done -> nth d order' 0 = nth d order 0)
      /\ (rows <> [] ->
          nth (snd (SubspaceUtil.max_element_index rows cols mat)) order' 0
          = fst (SubspaceUtil.max_element_index rows cols mat)).
Proof.
  set (n := Mat.rows mat) in *.
  induction fuel as [|fuel IH]; intros rows cols order done Hf Hlen Hord Hrows Hc Hr;
    [lia|].
  destruct rows as [|r rs].
  - destruct cols as [|c cs]; [|discriminate]. exists order.
    split; [reflexivity|]. split; [exact Hord|].
    split; [|split; [reflexivity | congruence]].
    rewrite !app_nil_r in *.
    rewrite <- (map_nth_all order 0), Hord.
    transitivity (map (fun j => nth j order 0) done);
      [apply Permutation_map; now symmetry | exact Hr].
  - destruct cols as [|c cs]; [discriminate|].
    cbn [SubspaceUtil.eye_order_loop].
    assert (Hcols : forall j, In j (c :: cs) -> j < n).
    { intros j Hj. apply (in_seq n 0 j). apply (Permutation_in _ Hc).
      apply in_or_app. now right. }
    destruct (max_element_index_found (r :: rs) (c :: cs) r c) as (Hi & Hj & _);
      [now left | now left | apply above_lowest; [apply Hrows | apply Hcols]; now left |].
    cbv zeta in Hi, Hj.
    destruct (SubspaceUtil.max_element_index (r :: rs) (c :: cs) mat) as [i j].
    cbn [fst snd] in Hi, Hj.
    rewrite (proj2 (Nat.ltb_lt j (length order))) by (rewrite Hord; now apply Hcols).
    destruct (erase_found_spec i _ Hi) as (rows' & -> & Hpr).
    destruct (erase_found_spec j _ Hj) as (cols' & -> & Hpc).
    pose proof (Permutation_length Hpr) as Hlr.
    pose proof (Permutation_length Hpc) as Hlc.
    cbn [length] in Hlr, Hlc, Hf, Hlen.
    assert (Hji : nth j (Util.update_nth j i order) 0 = i).
    { apply nth_error_nth, nth_error_update_nth_eq. rewrite Hord. now apply Hcols. }
    assert (Hnd : NoDup (done ++ c :: cs)).
    { apply (Permutation_NoDup (Permutation_sym Hc)). apply seq_NoDup. }
    assert (Hjd : ~ In j done).
    { intro H. exact (NoDup_app_disjoint _ _ Hnd j H Hj). }
    cbn [fst snd].
    destruct (IH rows' cols' (Util.update_nth j i order) (j :: done))
      as (order' & E & H1 & H2 & H3 & _);
      [| | | | | | exists order'; split; [exact E|]; split; [exact H1|];
                 split; [exact H2|]; split;
                 [intros d Hd; rewrite H3 by (now right);
                  apply nth_update_nth_neq; congruence
                 |intros _; rewrite H3 by (now left); exact Hji]].
    + lia.
    + lia.
    + now rewrite length_update_nth.
    + intros k Hk. apply Hrows. apply (Permutation_in _ (Permutation_sym Hpr)). now right.
    + cbn [app]. rewrite Permutation_middle, <- Hpc. exact Hc.
    + cbn [map app]. rewrite Hji.
      rewrite (map_ext_in (fun k => nth k (Util.update_nth j i order) 0)
                          (fun k => nth k order 0)).
      * rewrite Permutation_middle, <- Hpr. exact Hr.
      * intros k Hk. apply nth_update_nth_neq. congruence.
Qed.

End EyeOrderFacts.

(** X10.  [max_element_index(rows, cols, mat)]: when some element of the given
    rows and columns exceeds [lowest()], the place returned is one of the given
    rows and one of the given columns, and no element of them exceeds the
    element at that place.  When none does (no row, no column, or nothing but
    NaN, minus infinity and [lowest()] itself) the place returned is {0, 0},
    whether row 0 and column 0 were given or not. *)
Theorem max_element_index_greatest :
  forall (rows cols : list nat) (mat : Mat.real),
    (forall i j,
        In i rows -> In j cols ->
        Num.gt (Mat.rcoeff mat i j) SubspaceUtil.lowest = true ->
        In (fst (SubspaceUtil.max_element_index rows cols mat)) rows
        /\ In (snd (SubspaceUtil.max_element_index rows cols mat)) cols
        /\ forall i' j', In i' rows -> In j' cols ->
             Num.gt (Mat.rcoeff mat i' j')
                    (Mat.rcoeff mat (fst (SubspaceUtil.max_element_index rows cols mat))
                                (snd (SubspaceUtil.max_element_index rows cols mat)))
             = false)
    /\ ((forall i j, In i rows -> In j cols ->
                     Num.gt (Mat.rcoeff mat i j) SubspaceUtil.lowest = false) ->
        SubspaceUtil.max_element_index rows cols mat = (0, 0)).
Proof.
  intros rows cols mat. split.
  - intros i j Hi Hj Hgt.
    destruct (max_element_index_found mat rows cols i j Hi Hj Hgt) as (H1 & H2 & _ & H4).
    auto.
  - apply max_element_index_none.
Qed.

(** X11.  [eye_order] on a matrix all of whose elements exceed [lowest()]
    returns, without throwing and without undefined behaviour, an order that
    holds every row number once.  The greatest element of the matrix decides
    the first assignment and keeps it: if it stands at (i, j), the order
    sends position j to row i. *)
Theorem eye_order_permutation :
  forall mat : Mat.real,
    (forall i j, i < Mat.rows mat -> j < Mat.rows mat ->
                 Num.gt (Mat.rcoeff mat i j) SubspaceUtil.lowest = true) ->
    exists order : list nat,
      SubspaceUtil.eye_order mat = Returns order
      /\ length order = Mat.rows mat
      /\ Permutation order (seq 0 (Mat.rows mat))
      /\ (0 < Mat.rows mat ->
          nth (snd (SubspaceUtil.max_element_index (seq 0 (Mat.rows mat))
                                                   (seq 0 (Mat.rows mat)) mat)) order 0
          = fst (SubspaceUtil.max_element_index (seq 0 (Mat.rows mat))
                                                (seq 0 (Mat.rows mat)) mat)).
Proof.
  intros mat Hall. unfold SubspaceUtil.eye_order.
  destruct (eye_order_loop_permutation mat Hall (S (Mat.rows mat))
              (seq 0 (Mat.rows mat)) (seq 0 (Mat.rows mat))
              (repeat 0 (Mat.rows mat)) [])
    as (order & E & H1 & H2 & _ & H4).
  - rewrite length_seq. lia.
  - reflexivity.
  - apply repeat_length.
  - intros i Hi. apply in_seq in Hi. lia.
  - reflexivity.
  - reflexivity.
  - exists order. split; [exact E|]. split; [exact H1|]. split; [exact H2|].
    intro Hn. apply H4. destruct (Mat.rows mat); [lia | discriminate].
Qed.

(** X11 on the matrix with the rows (0.1, 0.9) and (0.8, 0.2): the order is
    1, 0. *)
Lemma eye_order_permutation_witness :
  SubspaceUtil.eye_order (Mat.mk 2 2 [[0.1; 0.8]; [0.9; 0.2]]%float)
  = Returns [1; 0]
  /\ exists order,
       SubspaceUtil.eye_order (Mat.mk 2 2 [[0.1; 0.8]; [0.9; 0.2]]%float)
       = Returns order
       /\ Permutation order [0; 1].
Proof.
  split; [vm_compute; reflexivity|].
  destruct (eye_order_permutation (Mat.mk 2 2 [[0.1; 0.8]; [0.9; 0.2]]%float))
    as (order & E & _ & Hp & _).
  - intros i j Hi Hj. cbn [Mat.rows] in Hi, Hj.
    destruct i as [|[|i]]; destruct j as [|[|j]]; try lia; vm_compute; reflexivity.
  - exists order. split; [exact E | exact Hp].
Defined.

(** ** [suggestP] *)

Section ScalarMapFacts.
Import SuggestP.

Lemma find_assign (k k' : nat) (v : float) (m : scalar_map) :
  find k' (assign k v m) = if k' =? k then Some v else find k' m.
Proof.
  unfold find. induction m as [|[k0 v0] m IH]; cbn [assign List.find fst].
  - rewrite (Nat.eqb_sym k k'). destruct (k' =? k); reflexivity.
  - destruct (k =? k0) eqn:E0.
    + apply Nat.eqb_eq in E0. subst k0. cbn [List.find fst].
      rewrite (Nat.eqb_sym k k'). destruct (k' =? k); reflexivity.
    + destruct (k <? k0); cbn [List.find fst].
      * rewrite (Nat.eqb_sym k k'). destruct (k' =? k); reflexivity.
      * destruct (k0 =? k') eqn:E1.
        -- apply Nat.eqb_eq in E1. subst k'. rewrite (Nat.eqb_sym k0 k), E0. reflexivity.
        -- exact IH.
Qed.

Lemma keys_assign (k : nat) (v : float) (m : scalar_map) (x : nat) :
  In x (map fst (assign k v m)) <-> x = k \/ In x (map fst m).
Proof.
  induction m as [|[k0 v0] m IH]; cbn [assign map fst In].
  - intuition.
  - destruct (k =? k0) eqn:E0.
    + apply Nat.eqb_eq in E0. subst k0. cbn [map fst In]. intuition.
    + destruct (k <? k0); cbn [map fst In]; [intuition|]. rewrite IH. intuition.
Qed.

Lemma sorted_assign (k : nat) (v : float) (m : scalar_map) :
  StronglySorted lt (map fst m) -> StronglySorted lt (map fst (assign k v m)).
Proof.
  induction m as [|[k0 v0] m IH]; intro H; cbn [assign map fst].
  - repeat constructor.
  - cbn [map fst] in H. apply StronglySorted_inv in H. destruct H as [Hs Hall].
    destruct (k =? k0) eqn:E0.
    + apply Nat.eqb_eq in E0. subst k0. cbn [map fst]. now constructor.
    + apply Nat.eqb_neq in E0. destruct (k <? k0) eqn:E1; cbn [map fst].
      * apply Nat.ltb_lt in E1. constructor; [now constructor|].
        constructor; [exact E1|]. eapply Forall_impl; [|exact Hall]. intros; lia.
      * apply Nat.ltb_ge in E1. constructor; [now apply IH|].
        apply Forall_forall. intros x Hx. apply keys_assign in Hx.
        destruct Hx as [-> | Hx]; [lia|]. rewrite Forall_forall in Hall. now apply Hall.
Qed.

Lemma find_in (m : scalar_map) (k : nat) (v : float) :
  find k m = Some v -> In (k, v) m.
Proof.
  unfold find. destruct (List.find _ m) as [[k0 v0]|] eqn:E; [|discriminate].
  intro H. injection H as <-. apply find_some in E. destruct E as [Hin Hk].
  cbn [fst] in Hk. apply Nat.eqb_eq in Hk. now subst.
Qed.

Lemma in_find (m : scalar_map) (k : nat) (v : float) :
  StronglySorted lt (map fst m) -> In (k, v) m -> find k m = Some v.
Proof.
  unfold find. induction m as [|[k0 v0] m IH]; intros Hs Hin; [contradiction|].
  cbn [map fst] in Hs. apply StronglySorted_inv in Hs. destruct Hs as [Hs Hall].
  cbn [List.find fst]. destruct Hin as [E | Hin].
  - injection E as -> ->. now rewrite Nat.eqb_refl.
  - destruct (k0 =? k) eqn:E0; [|now apply IH].
    apply Nat.eqb_eq in E0. subst k0. rewrite Forall_forall in Hall.
    specialize (Hall k (in_map fst _ _ Hin)). lia.
Qed.

(** What the map holds after the pairs of [l] have been merged into it. *)
Lemma merge_fold (l : list (nat * float)) :
  let result := fold_left (fun r p => merge_one r (fst p) (snd p)) l [] in
  StronglySorted lt (map fst result)
  /\ (forall k v, find k result = Some v ->
                  In (k, v) l /\ forall v', In (k, v') l -> Num.lt v v' = false)
  /\ (forall k v', In (k, v') l -> exists v, find k result = Some v).
Proof.
  induction l as [|[idx v] l IH] using rev_ind; cbv zeta.
  - cbn. split; [constructor|]. split; [discriminate | contradiction].
  - rewrite fold_left_app. cbn [fold_left fst snd].
    cbv zeta in IH. destruct IH as (I1 & I2 & I3).
    set (result := fold_left (fun r p => merge_one r (fst p) (snd p)) l []) in *.
    assert (Hstep : exists new,
               merge_one result idx v = assign idx new result
               /\ In (idx, new) (l ++ [(idx, v)])
               /\ forall v', In (idx, v') (l ++ [(idx, v)]) -> Num.lt new v' = false).
    { unfold merge_one. destruct (find idx result) as [old|] eqn:E.
      - destruct (I2 idx old E) as [Hin Hmax]. unfold std_max.
        destruct (Num.lt old v) eqn:Elt.
        + exists v. split; [reflexivity|]. split; [apply in_or_app; right; now left|].
          intros v' Hv'. apply in_app_or in Hv'. destruct Hv' as [Hv' | [Hv' | []]].
          * destruct (Num.lt v v') eqn:E'; [|reflexivity].
            pose proof (lt_trans _ _ _ Elt E'). rewrite (Hmax v' Hv') in H. discriminate.
          * injection Hv' as <-. apply lt_irrefl.
        + exists old. split; [reflexivity|]. split; [apply in_or_app; now left|].
          intros v' Hv'. apply in_app_or in Hv'. destruct Hv' as [Hv' | [Hv' | []]].
          * now apply Hmax.
          * injection Hv' as <-. exact Elt.
      - exists v. split; [reflexivity|]. split; [apply in_or_app; right; now left|].
        intros v' Hv'. apply in_app_or in Hv'. destruct Hv' as [Hv' | [Hv' | []]].
        + destruct (I3 idx v' Hv') as [x Hx]. congruence.
        + injection Hv' as <-. apply lt_irrefl. }
    destruct Hstep as (new & -> & Hnew1 & Hnew2).
    split; [now apply sorted_assign|]. split.
    + intros k x. rewrite find_assign. destruct (k =? idx) eqn:E.
      * apply Nat.eqb_eq in E. subst k. intro H. injection H as <-. auto.
      * apply Nat.eqb_neq in E. intro H. destruct (I2 k x H) as [Hin Hmax].
        split; [apply in_or_app; now left|].
        intros v' Hv'. apply in_app_or in Hv'. destruct Hv' as [Hv' | [Hv' | []]].
        -- now apply Hmax.
        -- congruence.
    + intros k v' Hv'. rewrite find_assign. destruct (k =? idx) eqn:E; [eauto|].
      apply Nat.eqb_neq in E. apply in_app_or in Hv'.
      destruct Hv' as [Hv' | [Hv' | []]]; [eauto | congruence].
Qed.

Lemma merge_selection_fold (indices : list nat) :
  forall (values : list float) (result result' : scalar_map),
    merge_selection indices values result = Some result' ->
    result' = fold_left (fun r p => merge_one r (fst p) (snd p)) (combine indices values) result.
Proof.
  induction indices as [|idx indices IH]; intros values result result' H;
    cbn [merge_selection] in H.
  - injection H as <-. reflexivity.
  - destruct values as [|v values]; [discriminate|]. cbn [combine fold_left fst snd].
    now apply IH.
Qed.

Lemma multimap_insert_permutation (v : float) (k : nat) (l : list (float * nat)) :
  Permutation (multimap_insert v k l) ((v, k) :: l).
Proof.
  induction l as [|e l IH]; cbn [multimap_insert]; [reflexivity|].
  destruct (Num.gt v (fst e)); [reflexivity|]. rewrite IH. apply perm_swap.
Qed.

Lemma multimap_insert_sorted (v : float) (k : nat) (l : list (float * nat)) :
  StronglySorted (fun e1 e2 => Num.gt (fst e2) (fst e1) = false) l ->
  StronglySorted (fun e1 e2 => Num.gt (fst e2) (fst e1) = false) (multimap_insert v k l).
Proof.
  induction l as [|e l IH]; intro H; cbn [multimap_insert]; [repeat constructor|].
  apply StronglySorted_inv in H as H'. destruct H' as [Hs Hall].
  destruct (Num.gt v (fst e)) eqn:E.
  - constructor; [exact H|]. constructor; [cbn [fst]; now apply gt_asym|].
    eapply Forall_impl; [|exact Hall]. cbn [fst]. intros e' He'.
    destruct (Num.gt (fst e') v) eqn:E'; [|reflexivity].
    pose proof (gt_trans _ _ _ E' E). congruence.
  - constructor; [now apply IH|].
    apply Forall_forall. intros e' He'.
    apply (Permutation_in _ (multimap_insert_permutation v k l)) in He'.
    destruct He' as [<- | He']; [exact E|]. rewrite Forall_forall in Hall. now apply Hall.
Qed.

Lemma inverse_fold (result : scalar_map) :
  let inv := fold_left (fun inv kv => multimap_insert (snd kv) (fst kv) inv) result [] in
  Permutation inv (map (fun kv => (snd kv, fst kv)) result)
  /\ StronglySorted (fun e1 e2 => Num.gt (fst e2) (fst e1) = false) inv.
Proof.
  induction result as [|[k v] result IH] using rev_ind; cbv zeta.
  - split; [reflexivity | constructor].
  - rewrite fold_left_app, map_app. cbn [fold_left map fst snd].
    cbv zeta in IH. destruct IH as [IH1 IH2]. split.
    + rewrite multimap_insert_permutation, IH1. apply Permutation_cons_append.
    + now apply multimap_insert_sorted.
Qed.

Lemma StronglySorted_app_inv {A} (R : A -> A -> Prop) (l1 l2 : list A) :
  StronglySorted R (l1 ++ l2) ->
  StronglySorted R l1 /\ forall a b, In a l1 -> In b l2 -> R a b.
Proof.
  induction l1 as [|x l1 IH]; cbn [app]; intro H.
  - split; [constructor | contradiction].
  - apply StronglySorted_inv in H. destruct H as [Hs Hall].
    destruct (IH Hs) as [H1 H2]. split.
    + constructor; [exact H1|]. apply Forall_app in Hall. tauto.
    + intros a b [<- | Ha] Hb; [|now apply H2].
      rewrite Forall_forall in Hall. apply Hall, in_or_app. now right.
Qed.

End ScalarMapFacts.

Section SuggestPFacts.
Import SuggestP.
Context {T : Type}.
Variable select : T -> T -> nat -> float -> list nat * list float.

Lemma collect_loop (m_active : list bool) (solution residual : list T)
      (maximumNumber : nat) (threshold : float) (ks : list nat) :
  forall r0 result : scalar_map,
    fold_left (fun acc kkk =>
                 match acc with
                 | None => None
                 | Some result =>
                     match nth_error m_active kkk with
                     | None => None
                     | Some false => Some result
                     | Some true =>
                         match nth_error solution kkk, nth_error residual kkk with
                         | Some s, Some r =>
                             let '(indices, values) := select s r maximumNumber threshold in
                             merge_selection indices values result
                         | _, _ => None
                         end
                     end
                 end) ks (Some r0) = Some result ->
    result = fold_left (fun r p => merge_one r (fst p) (snd p))
               (flat_map (fun kkk =>
                  match nth_error m_active kkk, nth_error solution kkk,
                        nth_error residual kkk with
                  | Some true, Some s, Some r =>
                      combine (fst (select s r maximumNumber threshold))
                              (snd (select s r maximumNumber threshold))
                  | _, _, _ => []
                  end) ks) r0.
Proof.
  induction ks as [|kkk ks IH]; intros r0 result H; cbn [fold_left flat_map] in *.
  - now injection H as <-.
  - rewrite fold_left_app.
    match type of H with
    | fold_left ?body ks _ = _ =>
        assert (Hnone : forall l, fold_left body l None = None)
          by (intro l; induction l; cbn; auto)
    end.
    destruct (nth_error m_active kkk) as [[|]|]; [| |now rewrite Hnone in H].
    + destruct (nth_error solution kkk) as [s|]; [|now rewrite Hnone in H].
      destruct (nth_error residual kkk) as [r|]; [|now rewrite Hnone in H].
      destruct (select s r maximumNumber threshold) as [indices values]. cbn [fst snd].
      destruct (merge_selection indices values r0) as [r1|] eqn:E;
        [|now rewrite Hnone in H].
      apply merge_selection_fold in E. subst r1. now apply IH.
    + cbn [fold_left app]. now apply IH.
Qed.

Lemma collect_fold (m_active : list bool) (solution residual : list T)
      (maximumNumber : nat) (threshold : float) (result : scalar_map) :
  collect select m_active solution residual maximumNumber threshold = Some result ->
  result = fold_left (fun r p => merge_one r (fst p) (snd p))
                     (selections select m_active solution residual maximumNumber threshold)
                     [].
Proof. apply collect_loop. Qed.

End SuggestPFacts.

Section SuggestPOrder.

Lemma StronglySorted_lt_NoDup (l : list nat) : StronglySorted lt l -> NoDup l.
Proof.
  induction 1 as [|x l Hs IH Hall]; constructor; [|exact IH].
  intro Hx. rewrite Forall_forall in Hall. specialize (Hall x Hx). lia.
Qed.

Lemma nth_error_map_inv {A B} (f : A -> B) (l : list A) (i : nat) (y : B) :
  nth_error (map f l) i = Some y -> exists x, nth_error l i = Some x /\ f x = y.
Proof.
  revert i; induction l as [|x l IH]; intros [|i]; cbn; try discriminate.
  - intro H. injection H as <-. now exists x.
  - apply IH.
Qed.

End SuggestPOrder.

(** X12.  What [suggestP] returns, when its behaviour is defined.  Let the
    selections be the pairs of an index and a value that [select] proposes for
    the active roots.  The indices returned are at most [maximumNumber], all
    different, and each comes with a value, the greatest that was selected for
    it (none selected for it exceeds it); the values do not increase along the
    list.  An index that was selected and is not returned was cut off because
    the list is full, and its greatest value exceeds none of the values
    returned. *)
Theorem suggestP_best_first :
  forall (T : Type) (select : T -> T -> nat -> float -> list nat * list float)
         (m_active : list bool) (solution residual : list T)
         (maximumNumber : nat) (threshold : float) (indices : list nat),
    SuggestP.suggestP select m_active solution residual maximumNumber threshold
    = Some indices ->
    let sel := SuggestP.selections select m_active solution residual
                                   maximumNumber threshold in
    length indices <= maximumNumber /\ NoDup indices
    /\ exists values : list float,
         length values = length indices
         /\ StronglySorted (fun a b => Num.gt b a = false) values
         /\ (forall i idx v,
               nth_error indices i = Some idx -> nth_error values i = Some v ->
               In (idx, v) sel /\ forall v', In (idx, v') sel -> Num.lt v v' = false)
         /\ (forall idx v',
               In (idx, v') sel ->
               In idx indices
               \/ (length indices = maximumNumber
                   /\ exists vm,
                        In (idx, vm) sel
                        /\ (forall v'', In (idx, v'') sel -> Num.lt vm v'' = false)
                        /\ Forall (fun v => Num.gt vm v = false) values)).
Proof.
  intros T select m_active solution residual maximumNumber threshold indices H sel.
  unfold SuggestP.suggestP in H.
  destruct (SuggestP.collect select m_active solution residual maximumNumber threshold)
    as [result|] eqn:Ec; [|discriminate].
  apply collect_fold in Ec. fold sel in Ec.
  destruct (merge_fold sel) as (I1 & I2 & I3). cbv zeta in I1, I2, I3.
  rewrite <- Ec in I1, I2, I3.
  destruct (inverse_fold result) as [Hperm Hsorted]. cbv zeta in Hperm, Hsorted.
  set (inv := fold_left (fun inv kv => SuggestP.multimap_insert (snd kv) (fst kv) inv)
                        result []) in *.
  injection H as <-.
  set (kept := firstn maximumNumber inv).
  set (dropped := skipn maximumNumber inv).
  assert (Hinv : inv = kept ++ dropped) by (symmetry; apply firstn_skipn).
  assert (Hin_result : forall v idx, In (v, idx) inv -> SuggestP.find idx result = Some v).
  { intros v idx Hi. apply (Permutation_in _ Hperm) in Hi.
    apply in_map_iff in Hi. destruct Hi as ([k x] & E & Hi). cbn [fst snd] in E.
    injection E as <- <-. now apply in_find. }
  rewrite Hinv in Hsorted. apply StronglySorted_app_inv in Hsorted.
  destruct Hsorted as [Hs1 Hs2].
  split; [rewrite length_map; apply firstn_le_length|]. split.
  - assert (Hnd : NoDup (map snd inv)).
    { apply (Permutation_NoDup (l := map fst result)).
      - symmetry. rewrite (Permutation_map snd Hperm), map_map. cbn [snd]. reflexivity.
      - now apply StronglySorted_lt_NoDup. }
    rewrite Hinv, map_app in Hnd. now apply NoDup_app_remove_r in Hnd.
  - exists (map fst kept). split; [now rewrite !length_map|]. split.
    + apply StronglySorted_map. exact Hs1.
    + split.
      * intros i idx v Hi Hv.
        apply nth_error_map_inv in Hi. destruct Hi as ([v0 k0] & E1 & Hk).
        apply nth_error_map_inv in Hv. destruct Hv as ([v1 k1] & E2 & Hv1).
        rewrite E1 in E2. injection E2 as <- <-. cbn [fst snd] in Hk, Hv1. subst.
        apply I2. apply Hin_result. rewrite Hinv. apply in_or_app. left.
        exact (nth_error_In _ _ E1).
      * intros idx v' Hsel. destruct (I3 idx v' Hsel) as [vm Hvm].
        destruct (I2 idx vm Hvm) as [Hvm1 Hvm2].
        assert (Hi : In (vm, idx) inv).
        { apply (Permutation_in _ (Permutation_sym Hperm)).
          apply in_map_iff. exists (idx, vm). split; [reflexivity|].
          now apply find_in. }
        rewrite Hinv in Hi. apply in_app_or in Hi. destruct Hi as [Hi | Hi].
        -- left. apply in_map_iff. now exists (vm, idx).
        -- right. split.
           ++ rewrite length_map. unfold kept. rewrite length_firstn.
              assert (Hd : length dropped <> 0) by (destruct dropped; [contradiction | discriminate]).
              unfold dropped in Hd. rewrite length_skipn in Hd. lia.
           ++ exists vm. split; [exact Hvm1|]. split; [exact Hvm2|].
              apply Forall_forall. intros v Hv. apply in_map_iff in Hv.
              destruct Hv as ([v0 k0] & <- & Hk). exact (Hs2 _ _ Hk Hi).
Qed.

(** X12 for vectors held in memory whose [select] proposes every position
    with the residual there: two active roots with the residuals (1, 5) and
    (3, 2), and room for one index, give the index 1. *)
Lemma suggestP_best_first_witness :
  SuggestP.suggestP (fun (_ r : list float) (_ : nat) (_ : float) => (seq 0 (length r), r))
                    [true; true] [[0; 0]; [0; 0]]%float [[1; 5]; [3; 2]]%float 1 0%float
  = Some [1]
  /\ NoDup [1].
Proof.
  split; [vm_compute; reflexivity|].
  exact (proj1 (proj2 (suggestP_best_first (list float)
                  (fun (_ r : list float) (_ : nat) (_ : float) => (seq 0 (length r), r))
                  [true; true] [[0; 0]; [0; 0]]%float [[1; 5]; [3; 2]]%float 1 0%float [1]
                  ltac:(vm_compute; reflexivity)))).
Defined.

(* ===================================================================== *)
(** ** check_conditioning *)
(* ===================================================================== *)

Section CheckConditioningFacts.
Local Open Scope float_scope.

Lemma generate_pairs_flat_map (candidates : CheckConditioning.candidate_map) :
  CheckConditioning.generate_pairs candidates
  = flat_map (fun rc => map (fun c => (c, c)) (snd rc)) candidates.
Proof.
  unfold CheckConditioning.generate_pairs.
  assert (Hin : forall (l : list nat) (acc : list (nat * nat)),
             fold_left (fun pairs c => pairs ++ [(c, c)]) l acc
             = acc ++ map (fun c => (c, c)) l).
  { induction l as [|c l IH]; intro acc; cbn [fold_left map].
    - now rewrite app_nil_r.
    - rewrite IH, <- app_assoc. reflexivity. }
  assert (Hout : forall (m : CheckConditioning.candidate_map) (acc : list (nat * nat)),
             fold_left (fun pairs (rc : nat * list nat) =>
                          fold_left (fun pairs c => pairs ++ [(c, c)]) (snd rc) pairs) m acc
             = acc ++ flat_map (fun rc => map (fun c => (c, c)) (snd rc)) m).
  { induction m as [|rc m IH]; intro acc; cbn [fold_left flat_map].
    - now rewrite app_nil_r.
    - rewrite IH, Hin, <- app_assoc. reflexivity. }
  apply (Hout candidates []).
Qed.

Lemma empty_candidates_forallb (candidates : CheckConditioning.candidate_map) :
  CheckConditioning.empty_candidates candidates
  = forallb (fun rc => match snd rc with [] => true | _ => false end) candidates.
Proof.
  unfold CheckConditioning.empty_candidates.
  assert (H : forall (m : CheckConditioning.candidate_map) (acc : bool),
             fold_left (fun empty (c : nat * list nat) =>
                          andb empty (match snd c with [] => true | _ => false end)) m acc
             = andb acc (forallb (fun rc => match snd rc with [] => true | _ => false end) m)).
  { induction m as [|rc m IH]; intro acc; cbn [fold_left forallb].
    - now rewrite andb_true_r.
    - rewrite IH, andb_assoc. reflexivity. }
  apply (H candidates true).
Qed.

Lemma some_candidate_some_pair (candidates : CheckConditioning.candidate_map) :
  CheckConditioning.empty_candidates candidates = false ->
  CheckConditioning.generate_pairs candidates <> [].
Proof.
  rewrite empty_candidates_forallb, generate_pairs_flat_map.
  induction candidates as [|[root l] m IH]; cbn [forallb flat_map snd]; [discriminate|].
  destruct l as [|c l]; [cbn [andb map app]; exact IH|].
  intros _. cbn [map app]. discriminate.
Qed.

Lemma pair_norms_spec (v : list float) (oQ : nat) (pairs : list (nat * nat))
      (acc : list float) :
  CheckConditioning.pair_norms v oQ pairs acc
  = if forallb (fun p => andb (oQ + fst p <? length v)%nat (oQ + snd p <? length v)%nat) pairs
    then Returns (acc ++ map (fun p => nth (oQ + fst p) v 0 * nth (oQ + fst p) v 0
                                      + nth (oQ + snd p) v 0 * nth (oQ + snd p) v 0) pairs)
    else Raises (out_of_range "vector::at").
Proof.
  revert acc. induction pairs as [|p pairs IH]; intro acc;
    cbn [CheckConditioning.pair_norms forallb map].
  - now rewrite app_nil_r.
  - unfold CheckConditioning.at_.
    destruct (nth_error v (oQ + fst p)) as [a|] eqn:Ea.
    + pose proof (proj1 (nth_error_Some v (oQ + fst p)) ltac:(congruence)) as Hla.
      apply Nat.ltb_lt in Hla. rewrite Hla. cbn [andb].
      destruct (nth_error v (oQ + snd p)) as [b|] eqn:Eb.
      * pose proof (proj1 (nth_error_Some v (oQ + snd p)) ltac:(congruence)) as Hlb.
        apply Nat.ltb_lt in Hlb. rewrite Hlb. cbn [andb].
        rewrite IH. rewrite (nth_error_nth _ _ 0 Ea), (nth_error_nth _ _ 0 Eb).
        rewrite <- app_assoc. reflexivity.
      * apply nth_error_None in Eb. apply Nat.ltb_ge in Eb. rewrite Eb. reflexivity.
    + apply nth_error_None in Ea. apply Nat.ltb_ge in Ea. rewrite Ea. reflexivity.
Qed.

Lemma pair_norms_length (v : list float) (oQ : nat) (pairs : list (nat * nat))
      (norms : list float) :
  CheckConditioning.pair_norms v oQ pairs [] = Returns norms ->
  length norms = length pairs.
Proof.
  rewrite pair_norms_spec.
  destruct (forallb _ pairs); [|discriminate].
  intro H. injection H as <-. cbn [app]. apply length_map.
Qed.

Lemma lt_gt_exclusive (a b : float) : Num.lt a b = true -> Num.gt a b = false.
Proof.
  unfold Num.lt, Num.gt. intro H. destruct (PrimFloat.ltb b a) eqn:E; [|reflexivity].
  pose proof (lt_trans _ _ _ H E) as H'. now rewrite lt_irrefl in H'.
Qed.

End CheckConditioningFacts.

(** X13.  The norms that [check_conditioning] computes: [generate_pairs] pairs
    every candidate with itself, in the order of the roots, so the norm of a
    candidate [c] is the square of the component [oQ + c] of the singular
    vector, added to itself; a candidate for which [oQ + c] is beyond the
    vector makes [at] throw [out_of_range]. *)
Theorem check_conditioning_norms :
  forall (candidates : CheckConditioning.candidate_map) (v : list float) (oQ : nat),
    CheckConditioning.generate_pairs candidates
    = map (fun c => (c, c)) (flat_map snd candidates)
    /\ CheckConditioning.pair_norms v oQ (CheckConditioning.generate_pairs candidates) []
       = if forallb (fun c => (oQ + c <? length v)%nat) (flat_map snd candidates)
         then Returns (map (fun c => (nth (oQ + c) v 0 * nth (oQ + c) v 0
                                      + nth (oQ + c) v 0 * nth (oQ + c) v 0)%float)
                           (flat_map snd candidates))
         else Raises (out_of_range "vector::at").
Proof.
  intros candidates v oQ.
  assert (Hp : CheckConditioning.generate_pairs candidates
               = map (fun c => (c, c)) (flat_map snd candidates)).
  { rewrite generate_pairs_flat_map.
    induction candidates as [|rc m IH]; cbn [flat_map]; [reflexivity|].
    now rewrite map_app, IH. }
  split; [exact Hp|].
  rewrite pair_norms_spec, Hp. cbn [app].
  rewrite map_map. cbn [fst snd].
  replace (forallb (fun p => andb (oQ + fst p <? length v)%nat (oQ + snd p <? length v)%nat)
                   (map (fun c => (c, c)) (flat_map snd candidates)))
    with (forallb (fun c => (oQ + c <? length v)%nat) (flat_map snd candidates)).
  - reflexivity.
  - clear Hp. generalize (flat_map snd candidates) as l.
    induction l as [|c l IH]; cbn [forallb map fst snd]; [reflexivity|].
    rewrite andb_diag. now f_equal.
Qed.

(** X14.  [check_conditioning] leaves the subspace as it is and returns when
    no root has a candidate, when [svd_system] reports no singular value, or
    when the greatest norm is below [norm_threshold]. *)
Theorem check_conditioning_settles :
  forall (St : Type) (sp : CheckConditioning.Spaces St)
         (svd_threshold norm_threshold : float) (st : St),
    let candidates := CheckConditioning.generate_candidates St sp st in
    (CheckConditioning.empty_candidates candidates = true
     \/ CheckConditioning.svd_system St sp st svd_threshold = []
     \/ exists front rest norms,
         CheckConditioning.svd_system St sp st svd_threshold = front :: rest
         /\ CheckConditioning.pair_norms (snd front) (CheckConditioning.oQ St sp st)
              (CheckConditioning.generate_pairs candidates) [] = Returns norms
         /\ Num.lt (nth (Util.max_element norms) norms 0%float) norm_threshold = true) ->
    forall fuel,
      CheckConditioning.check_conditioning St sp svd_threshold norm_threshold (S fuel) st
      = Some (Returns st).
Proof.
  intros St sp svd_threshold norm_threshold st candidates H fuel.
  unfold CheckConditioning.check_conditioning. fold candidates.
  destruct (CheckConditioning.empty_candidates candidates) eqn:Ee.
  - cbn [CheckConditioning.check_conditioning_loop negb andb]. rewrite Ee. reflexivity.
  - destruct H as [H|[H|(front & rest & norms & Hs & Hn & Hlt)]]; [discriminate| |].
    + cbn [CheckConditioning.check_conditioning_loop negb andb]. rewrite Ee, H.
      cbn [negb andb]. destruct fuel; reflexivity.
    + cbn [CheckConditioning.check_conditioning_loop negb andb]. rewrite Ee, Hs, Hn.
      cbn [negb andb].
      destruct norms as [|x norms].
      * apply pair_norms_length in Hn. apply some_candidate_some_pair in Ee.
        destruct (CheckConditioning.generate_pairs candidates); [now elim Ee|discriminate].
      * rewrite (lt_gt_exclusive _ _ Hlt), Hlt. destruct fuel; reflexivity.
Qed.

Lemma check_conditioning_settles_witness :
  CheckConditioning.check_conditioning unit CheckConditioning.one_candidate
    0x1p-10%float 0.75%float 1 tt = Some (Returns tt).
Proof.
  apply (check_conditioning_settles unit CheckConditioning.one_candidate
           0x1p-10%float 0.75%float tt).
  right. right. exists (0%float, [0.5; 0.5]%float), [], [0.5%float].
  repeat split; vm_compute; reflexivity.
Defined.

(** X15.  When some root has a candidate, [svd_system] reports a singular
    value and the greatest norm is neither below nor above [norm_threshold]
    (it is equal to it, or is not a number), the loop of [check_conditioning]
    changes nothing and never ends: it is still running after any number of
    passes. *)
Theorem check_conditioning_stalls :
  forall (St : Type) (sp : CheckConditioning.Spaces St)
         (svd_threshold norm_threshold : float) (st : St)
         (front : float * list float) (rest : list (float * list float))
         (norms : list float),
    CheckConditioning.empty_candidates (CheckConditioning.generate_candidates St sp st) = false ->
    CheckConditioning.svd_system St sp st svd_threshold = front :: rest ->
    CheckConditioning.pair_norms (snd front) (CheckConditioning.oQ St sp st)
      (CheckConditioning.generate_pairs (CheckConditioning.generate_candidates St sp st)) []
    = Returns norms ->
    Num.lt (nth (Util.max_element norms) norms 0%float) norm_threshold = false ->
    Num.gt (nth (Util.max_element norms) norms 0%float) norm_threshold = false ->
    forall fuel,
      CheckConditioning.check_conditioning St sp svd_threshold norm_threshold fuel st = None.
Proof.
  intros St sp svd_threshold norm_threshold st front rest norms Ee Hs Hn Hlt Hgt fuel.
  unfold CheckConditioning.check_conditioning.
  induction fuel as [|fuel IH];
    cbn [CheckConditioning.check_conditioning_loop negb andb]; rewrite Ee; cbn [negb];
    [reflexivity|].
  rewrite Hs, Hn.
  destruct norms as [|x norms].
  - apply pair_norms_length in Hn. apply some_candidate_some_pair in Ee.
    destruct (CheckConditioning.generate_pairs _); [now elim Ee|discriminate].
  - rewrite Hgt, Hlt. exact IH.
Qed.

Lemma check_conditioning_stalls_witness :
  CheckConditioning.check_conditioning unit CheckConditioning.one_candidate
    0x1p-10%float 0.5%float 1000 tt = None.
Proof.
  apply (check_conditioning_stalls unit CheckConditioning.one_candidate
           0x1p-10%float 0.5%float tt (0%float, [0.5; 0.5]%float) [] [0.5%float]);
    vm_compute; reflexivity.
Defined.

(* ===================================================================== *)
(** ** XSpace::erase *)
(* ===================================================================== *)

(** X16.  [XSpace::erase(i)] compares the offset of a block with [i] the wrong
    way round ([oP >= i]): a call goes to a block whose offset is not below
    [i], and the index it hands on is [0] when [i] is the offset and has
    wrapped around, to [2^64 - (offset - i)], otherwise; when [i] is above the
    three offsets nothing is erased.  So no element but the first of a block
    is ever erased. *)
Theorem XSpace_erase_first_of_block_only :
  forall (m_dim : XSpaceImpl.Dimensions) (i : N),
    (i < XSpaceImpl.size_t_range)%N ->
    (XSpaceImpl.oP m_dim < XSpaceImpl.size_t_range)%N ->
    (XSpaceImpl.oQ m_dim < XSpaceImpl.size_t_range)%N ->
    (XSpaceImpl.oD m_dim < XSpaceImpl.size_t_range)%N ->
    match XSpaceImpl.erase m_dim i with
    | Some c =>
        (i <= XSpaceImpl.call_offset m_dim c)%N
        /\ XSpaceImpl.call_index c
           = (if (i =? XSpaceImpl.call_offset m_dim c)%N then 0
              else XSpaceImpl.size_t_range - (XSpaceImpl.call_offset m_dim c - i))%N
    | None => True
    end
    /\ ((XSpaceImpl.oP m_dim < i)%N -> (XSpaceImpl.oQ m_dim < i)%N ->
        (XSpaceImpl.oD m_dim < i)%N -> XSpaceImpl.erase m_dim i = None).
Proof.
  intros m_dim i Hi HP HQ HD.
  assert (Hsub : forall o, (o < XSpaceImpl.size_t_range)%N -> (i <= o)%N ->
                           XSpaceImpl.size_sub i o
                           = (if (i =? o)%N then 0
                              else XSpaceImpl.size_t_range - (o - i))%N).
  { intros o Ho Hle. unfold XSpaceImpl.size_sub.
    rewrite (N.mod_small o) by exact Ho.
    destruct (N.eqb_spec i o) as [->|Hne].
    - replace (o + XSpaceImpl.size_t_range - o)%N with XSpaceImpl.size_t_range by lia.
      apply N.Div0.mod_same.
    - replace (i + XSpaceImpl.size_t_range - o)%N
        with (XSpaceImpl.size_t_range - (o - i))%N by lia.
      apply N.mod_small. unfold XSpaceImpl.size_t_range in *. lia. }
  split.
  - unfold XSpaceImpl.erase.
    destruct (i <=? XSpaceImpl.oP m_dim)%N eqn:EP; cbn [andb].
    + destruct (i <? XSpaceImpl.size_add (XSpaceImpl.oP m_dim) (XSpaceImpl.nP m_dim))%N.
      * apply N.leb_le in EP. cbn [XSpaceImpl.call_offset XSpaceImpl.call_index].
        split; [exact EP|now apply Hsub].
      * destruct (i <=? XSpaceImpl.oQ m_dim)%N eqn:EQ; cbn [andb].
        -- destruct (i <? XSpaceImpl.size_add (XSpaceImpl.oQ m_dim) (XSpaceImpl.nQ m_dim))%N.
           ++ apply N.leb_le in EQ. cbn [XSpaceImpl.call_offset XSpaceImpl.call_index].
              split; [exact EQ|now apply Hsub].
           ++ destruct (i <=? XSpaceImpl.oD m_dim)%N eqn:ED; cbn [andb]; [|exact I].
              destruct (i <? XSpaceImpl.size_add (XSpaceImpl.oD m_dim) (XSpaceImpl.nD m_dim))%N;
                [|exact I].
              apply N.leb_le in ED. cbn [XSpaceImpl.call_offset XSpaceImpl.call_index].
              split; [exact ED|now apply Hsub].
        -- destruct (i <=? XSpaceImpl.oD m_dim)%N eqn:ED; cbn [andb]; [|exact I].
           destruct (i <? XSpaceImpl.size_add (XSpaceImpl.oD m_dim) (XSpaceImpl.nD m_dim))%N;
             [|exact I].
           apply N.leb_le in ED. cbn [XSpaceImpl.call_offset XSpaceImpl.call_index].
           split; [exact ED|now apply Hsub].
    + destruct (i <=? XSpaceImpl.oQ m_dim)%N eqn:EQ; cbn [andb].
      * destruct (i <? XSpaceImpl.size_add (XSpaceImpl.oQ m_dim) (XSpaceImpl.nQ m_dim))%N.
        -- apply N.leb_le in EQ. cbn [XSpaceImpl.call_offset XSpaceImpl.call_index].
           split; [exact EQ|now apply Hsub].
        -- destruct (i <=? XSpaceImpl.oD m_dim)%N eqn:ED; cbn [andb]; [|exact I].
           destruct (i <? XSpaceImpl.size_add (XSpaceImpl.oD m_dim) (XSpaceImpl.nD m_dim))%N;
             [|exact I].
           apply N.leb_le in ED. cbn [XSpaceImpl.call_offset XSpaceImpl.call_index].
           split; [exact ED|now apply Hsub].
      * destruct (i <=? XSpaceImpl.oD m_dim)%N eqn:ED; cbn [andb]; [|exact I].
        destruct (i <? XSpaceImpl.size_add (XSpaceImpl.oD m_dim) (XSpaceImpl.nD m_dim))%N;
          [|exact I].
        apply N.leb_le in ED. cbn [XSpaceImpl.call_offset XSpaceImpl.call_index].
        split; [exact ED|now apply Hsub].
  - intros H1 H2 H3. unfold XSpaceImpl.erase.
    apply N.leb_gt in H1, H2, H3. now rewrite H1, H2, H3.
Qed.

Lemma XSpace_erase_first_of_block_only_witness :
  XSpaceImpl.erase (XSpaceImpl.mkDimensions 3 2 0 0 3 5) 1
  = Some (XSpaceImpl.eraseq (2 ^ 64 - 2))
  /\ (1 <= 3)%N
  /\ XSpaceImpl.erase (XSpaceImpl.mkDimensions 3 2 0 0 3 5) 6 = None.
Proof.
  destruct (XSpace_erase_first_of_block_only (XSpaceImpl.mkDimensions 3 2 0 0 3 5) 1
              ltac:(reflexivity) ltac:(reflexivity) ltac:(reflexivity) ltac:(reflexivity))
    as [[Hle _] _].
  destruct (XSpace_erase_first_of_block_only (XSpaceImpl.mkDimensions 3 2 0 0 3 5) 6
              ltac:(reflexivity) ltac:(reflexivity) ltac:(reflexivity) ltac:(reflexivity))
    as [_ H].
  split; [reflexivity|]. split; [exact Hle|].
  apply H; reflexivity.
Defined.

(* ===================================================================== *)
(** ** The C interface: P vectors from compressed rows *)
(* ===================================================================== *)

Section PvectorFacts.
Variables (offsets indices : list nat) (coefficients : list float).

Lemma find_insert (idx k : nat) (v : float) (m : SuggestP.scalar_map) :
  SuggestP.find idx (CInterface.insert k v m)
  = match SuggestP.find idx m with
    | Some x => Some x
    | None => if idx =? k then Some v else None
    end.
Proof.
  unfold CInterface.insert. destruct (SuggestP.find k m) as [x|] eqn:E.
  - destruct (SuggestP.find idx m) eqn:E2; [reflexivity|].
    destruct (Nat.eqb_spec idx k) as [->|]; [congruence|reflexivity].
  - rewrite find_assign. destruct (Nat.eqb_spec idx k) as [->|].
    + now rewrite E.
    + now destruct (SuggestP.find idx m).
Qed.

Lemma insert_pass_none (ks : list nat) : fold_left (CInterface.insert_pass indices coefficients) ks None = None.
Proof. induction ks as [|k ks IH]; [reflexivity|exact IH]. Qed.

Lemma insert_pass_spec (ks : list nat) :
  forall (m m' : SuggestP.scalar_map),
    fold_left (CInterface.insert_pass indices coefficients) ks (Some m) = Some m' ->
    (forall k, In k ks -> k < length indices /\ k < length coefficients)
    /\ forall idx,
        SuggestP.find idx m'
        = match SuggestP.find idx m with
          | Some x => Some x
          | None =>
              match List.find (fun k => nth k indices 0 =? idx) ks with
              | Some k => Some (nth k coefficients 0%float)
              | None => None
              end
          end.
Proof.
  induction ks as [|k ks IH]; intros m m' H; cbn [fold_left] in H.
  - injection H as <-. split; [intros k []|].
    intro idx. cbn [List.find]. now destruct (SuggestP.find idx m).
  - unfold CInterface.insert_pass at 2 in H.
    destruct (nth_error indices k) as [i|] eqn:Ei;
      [|now rewrite insert_pass_none in H].
    destruct (nth_error coefficients k) as [c|] eqn:Ec;
      [|now rewrite insert_pass_none in H].
    destruct (IH _ _ H) as [Hr Hf]. split.
    + intros k' [<-|Hin]; [|now apply Hr].
      split; apply nth_error_Some; congruence.
    + intro idx. rewrite Hf, find_insert. cbn [List.find].
      rewrite (nth_error_nth _ _ 0 Ei).
      destruct (SuggestP.find idx m); [reflexivity|].
      rewrite (Nat.eqb_sym i idx). destruct (idx =? i); [|reflexivity].
      now rewrite (nth_error_nth _ _ 0%float Ec).
Qed.

Lemma insert_pass_fixed (ks : list nat) (m : SuggestP.scalar_map) :
  (forall k, In k ks -> k < length indices /\ k < length coefficients
                        /\ SuggestP.find (nth k indices 0) m <> None) ->
  fold_left (CInterface.insert_pass indices coefficients) ks (Some m) = Some m.
Proof.
  induction ks as [|k ks IH]; intro H; [reflexivity|].
  cbn [fold_left]. unfold CInterface.insert_pass at 2.
  destruct (H k (or_introl eq_refl)) as (Hi & Hc & Hf).
  destruct (nth_error indices k) as [i|] eqn:Ei;
    [|apply nth_error_None in Ei; lia].
  destruct (nth_error coefficients k) as [c|] eqn:Ec;
    [|apply nth_error_None in Ec; lia].
  rewrite (nth_error_nth _ _ 0 Ei) in Hf.
  unfold CInterface.insert. destruct (SuggestP.find i m); [|now elim Hf].
  apply IH. intros k' Hin. apply H. now right.
Qed.

Lemma insert_pass_again (ks : list nat) (m m' : SuggestP.scalar_map) :
  fold_left (CInterface.insert_pass indices coefficients) ks (Some m) = Some m' ->
  fold_left (CInterface.insert_pass indices coefficients) ks (Some m') = Some m'.
Proof.
  intro H. destruct (insert_pass_spec _ _ _ H) as [Hr Hf].
  apply insert_pass_fixed. intros k Hin.
  destruct (Hr k Hin) as [Hi Hc]. repeat split; [exact Hi|exact Hc|].
  rewrite Hf. destruct (SuggestP.find (nth k indices 0) m); [discriminate|].
  destruct (List.find (fun k0 => nth k0 indices 0 =? nth k indices 0) ks) eqn:E;
    [discriminate|].
  apply (find_none _ _ E) in Hin. now rewrite Nat.eqb_refl in Hin.
Qed.

(** The doubled loop does what the single loop does. *)
Lemma doubled_loop (ks : list nat) :
  fold_left (fun (acc : option SuggestP.scalar_map) (_ : nat) =>
               match acc with
               | None => None
               | Some ppp => fold_left (CInterface.insert_pass indices coefficients) ks (Some ppp)
               end) ks (Some [])
  = fold_left (CInterface.insert_pass indices coefficients) ks (Some []).
Proof.
  assert (Hnone : forall l : list nat,
             fold_left (fun (acc : option SuggestP.scalar_map) (_ : nat) =>
                          match acc with
                          | None => None
                          | Some ppp => fold_left (CInterface.insert_pass indices coefficients) ks (Some ppp)
                          end) l None = None).
  { induction l as [|x l IH]; [reflexivity|exact IH]. }
  assert (Hfix : forall (l : list nat) (m' : SuggestP.scalar_map),
             fold_left (CInterface.insert_pass indices coefficients) ks (Some m') = Some m' ->
             fold_left (fun (acc : option SuggestP.scalar_map) (_ : nat) =>
                          match acc with
                          | None => None
                          | Some ppp => fold_left (CInterface.insert_pass indices coefficients) ks (Some ppp)
                          end) l (Some m') = Some m').
  { induction l as [|x l IH]; intros m' H; [reflexivity|].
    cbn [fold_left]. rewrite H. now apply IH. }
  assert (Hany : forall l : list nat,
             fold_left (fun (acc : option SuggestP.scalar_map) (_ : nat) =>
                          match acc with
                          | None => None
                          | Some ppp =>
                              fold_left (CInterface.insert_pass indices coefficients) ks
                                        (Some ppp)
                          end) l (Some [])
             = match l with
               | [] => Some []
               | _ :: _ => fold_left (CInterface.insert_pass indices coefficients) ks (Some [])
               end).
  { intros [|x l]; [reflexivity|]. cbn [fold_left].
    assert (Hr : forall r : option SuggestP.scalar_map,
               (forall m', r = Some m' ->
                           fold_left (CInterface.insert_pass indices coefficients) ks (Some m')
                           = Some m') ->
               fold_left (fun (acc : option SuggestP.scalar_map) (_ : nat) =>
                            match acc with
                            | None => None
                            | Some ppp =>
                                fold_left (CInterface.insert_pass indices coefficients) ks
                                          (Some ppp)
                            end) l r = r).
    { intros [m'|] Hm; [apply Hfix; now apply Hm|apply Hnone]. }
    apply Hr. intros m' E. now apply insert_pass_again with (m := []). }
  rewrite Hany. now destruct ks.
Qed.

Lemma each_vector_S (body : nat -> nat -> option SuggestP.scalar_map) (n : nat) :
  CInterface.each_vector offsets body (S n)
  = match CInterface.each_vector offsets body n with
    | None => None
    | Some Pvectors =>
        match nth_error offsets n, nth_error offsets (n + 1) with
        | Some first, Some last =>
            match body first last with
            | Some ppp => Some (Pvectors ++ [ppp])
            | None => None
            end
        | _, _ => None
        end
    end.
Proof.
  unfold CInterface.each_vector. rewrite seq_S, fold_left_app. reflexivity.
Qed.

Lemma each_vector_ext (body body' : nat -> nat -> option SuggestP.scalar_map) (n : nat) :
  (forall first last, body first last = body' first last) ->
  CInterface.each_vector offsets body n = CInterface.each_vector offsets body' n.
Proof.
  intro H. induction n as [|n IH]; [reflexivity|].
  rewrite !each_vector_S, IH.
  destruct (CInterface.each_vector offsets body' n); [|reflexivity].
  destruct (nth_error offsets n); [|reflexivity].
  destruct (nth_error offsets (n + 1)); [|reflexivity].
  now rewrite H.
Qed.

Lemma each_vector_spec (body : nat -> nat -> option SuggestP.scalar_map) (n : nat) :
  forall Pvectors,
    CInterface.each_vector offsets body n = Some Pvectors ->
    length Pvectors = n
    /\ forall p, p < n ->
                 body (nth p offsets 0) (nth (p + 1) offsets 0) = Some (nth p Pvectors []).
Proof.
  induction n as [|n IH]; intros Pvectors H.
  - injection H as <-. split; [reflexivity|]. intros p Hp. lia.
  - rewrite each_vector_S in H.
    destruct (CInterface.each_vector offsets body n) as [Pv|]; [|discriminate].
    destruct (nth_error offsets n) as [first|] eqn:Ef; [|discriminate].
    destruct (nth_error offsets (n + 1)) as [last|] eqn:El; [|discriminate].
    destruct (body first last) as [ppp|] eqn:Eb; [|discriminate].
    injection H as <-. destruct (IH Pv eq_refl) as [Hlen Hp]. split.
    + rewrite length_app. cbn [length]. lia.
    + intros p Hlt. destruct (Nat.eq_dec p n) as [->|Hne].
      * rewrite app_nth2 by lia. rewrite Hlen, Nat.sub_diag. cbn [nth].
        now rewrite (nth_error_nth _ _ 0 Ef), (nth_error_nth _ _ 0 El).
      * rewrite app_nth1 by lia. apply Hp. lia.
Qed.

End PvectorFacts.

(** X17.  The P vectors that the C interface builds from compressed rows.  The
    loop of [lib/IterativeSolver.cpp], which runs the loop over [k] inside
    another loop over the same range, builds the same vectors as the single
    loop of [IterativeSolverCMPI.cpp]; vector [p] holds the indices of its
    row, and when an index occurs more than once in the row the first of its
    coefficients is the one kept. *)
Theorem AddP_Pvectors_first_coefficient :
  forall (offsets indices : list nat) (coefficients : list float) (nP : nat),
    CInterface.Pvectors_lib offsets indices coefficients nP
    = CInterface.Pvectors_CMPI offsets indices coefficients nP
    /\ forall Pvectors,
        CInterface.Pvectors_CMPI offsets indices coefficients nP = Some Pvectors ->
        length Pvectors = nP
        /\ forall p idx,
            p < nP ->
            SuggestP.find idx (nth p Pvectors [])
            = match List.find (fun k => nth k indices 0 =? idx)
                              (seq (nth p offsets 0)
                                   (nth (p + 1) offsets 0 - nth p offsets 0)) with
              | Some k => Some (nth k coefficients 0%float)
              | None => None
              end.
Proof.
  intros offsets indices coefficients nP. split.
  - unfold CInterface.Pvectors_lib, CInterface.Pvectors_CMPI.
    apply each_vector_ext. intros first last.
    exact (doubled_loop indices coefficients (seq first (last - first))).
  - intros Pvectors H. unfold CInterface.Pvectors_CMPI in H.
    destruct (each_vector_spec _ _ _ _ H) as [Hlen Hp]. split; [exact Hlen|].
    intros p idx Hlt. specialize (Hp p Hlt).
    destruct (insert_pass_spec indices coefficients _ _ _ Hp) as [_ Hf].
    rewrite Hf. reflexivity.
Qed.

(* ===================================================================== *)
(** ** [addVector] and [endIteration] together *)
(* ===================================================================== *)

Section ConvergenceFacts.
Context {T : Type} {ops : VectorOps T}.
Variable K : Platform.

Lemma length_resize_floats (n : nat) (l : list float) :
  length (Util.resize_floats n l) = n.
Proof.
  unfold Util.resize_floats. rewrite length_app, length_firstn, repeat_length. lia.
Qed.

Lemma addVector_enter_roots (s s1 : Solver T) (cv cv1 : caller_vectors T) :
  addVector_enter s cv = Ok (s1, cv1) -> m_roots s1 = m_roots s.
Proof.
  unfold addVector_enter.
  destruct (assert _ "parameters.size() >= m_working_set.size()"); [|discriminate].
  cbn [bind].
  destruct (assert _ "parameters.size() == action.size()"); [|discriminate].
  cbn [bind]. solver_simpl.
  destruct (0 <? length (m_last_d s)).
  - destruct (assert _ "m_last_d.size() == m_working_set.size()"); [|discriminate].
    cbn [bind].
    destruct (assert _ "m_last_hd.size() == m_working_set.size()"); [|discriminate].
    cbn [bind]. intro H. injection H as <- _. reflexivity.
  - cbn [bind]. intro H. injection H as <- _. reflexivity.
Qed.

(** [addVector] leaves one error for every root. *)
Lemma addVector_leave_errors (s s' : Solver T) (cv cv' : caller_vectors T) (n : nat) :
  addVector_leave s cv = Ok (n, s', cv') -> length (m_errors s') = m_roots s.
Proof.
  unfold addVector_leave.
  destruct (length (parameters cv) <? m_roots s) eqn:Eroots; [discriminate|].
  apply Nat.ltb_ge in Eroots.
  set (s1 := set_working_set _ (set_errors _ s)).
  destruct (if m_linear s1 then doInterpolation s1 cv false else Ok cv) as [cv1|] eqn:E1;
    [|discriminate].
  cbn [bind].
  set (s2 := set_errors _ s1).
  destruct (doInterpolation s2 cv1 true) as [cv2|] eqn:E2; [|discriminate].
  cbn [bind].
  set (s3 := set_last_hd [] (set_last_d [] s2)).
  set (st := retire_loop (m_working_set s3) 0 (mkRetiring s3 (parameters cv2) (action cv2))).
  destruct (assert _ "m_last_d.size() == m_working_set.size()"); [|discriminate].
  cbn [bind].
  destruct (doInterpolation (rt_solver st) _ false) as [cv3|] eqn:E3; [|discriminate].
  cbn [bind].
  destruct (nullify (rt_solver st) cv3) as [s4 cv4] eqn:En.
  intro H. injection H as _ <- _.
  apply nullify_frame in En. destruct En as (_ & N2 & _).
  assert (Hl1 : length (parameters cv1) = length (parameters cv)
                /\ length (action cv1) = length (action cv)).
  { destruct (m_linear s1); [now apply doInterpolation_lengths in E1|].
    injection E1 as <-. auto. }
  pose proof (doInterpolation_reach _ _ _ _ E2) as [_ Hreach].
  apply doInterpolation_lengths in E2.
  change (length (m_working_set s2)) with (length (seq 0 (m_roots s))) in Hreach.
  rewrite length_seq in Hreach.
  pose proof (retire_loop_spec (seq 0 (m_roots s)) []
                (mkRetiring s3 (parameters cv2) (action cv2))) as Hloop.
  cbv zeta in Hloop. solver_simpl_in Hloop.
  specialize (Hloop eq_refl).
  cbn [app length] in Hloop. rewrite length_seq in Hloop.
  change (retire_loop (seq 0 (m_roots s)) 0
                      (mkRetiring s3 (parameters cv2) (action cv2))) with st in Hloop.
  destruct Hloop as ((_ & L2 & _) & _); [lia | lia |].
  change (length (m_errors s4) = m_roots s).
  rewrite N2, L2. unfold s3, s2. solver_simpl.
  match goal with
  | |- length (fold_left ?f ?l ?e) = _ =>
      assert (Hf : forall l' e', length (fold_left f l' e') = length e')
  end.
  { induction l' as [|kr l' IH]; intro e'; cbn [fold_left]; [reflexivity|].
    rewrite IH. destruct (nth_error (action cv1) (fst kr)); [|reflexivity].
    apply length_update_nth. }
  rewrite Hf. apply length_resize_floats.
Qed.

(** [endIteration] when the first error is a number. *)
Lemma endIteration_numbers (s : Solver T) (e0 : float) (rest : list float) :
  m_errors s = e0 :: rest -> Num.isnan e0 = false ->
  (endIteration s = true <->
   Forall (fun e => Num.isnan e = true \/ Num.lt e (m_thresh s) = true) (e0 :: rest)).
Proof.
  unfold endIteration. intros -> Hn. cbn [Util.max_element].
  destruct (max_element_from_spec rest [e0] 0 e0) as (H1 & H2 & H3 & H4);
    [cbn; lia | reflexivity | exact Hn |].
  cbn [length app] in H1, H2, H3, H4.
  set (v := nth (Util.max_element_from 0 e0 1 rest) (e0 :: rest) 0%float) in *.
  split.
  - intro Hv. constructor.
    + right. now apply le_lt_trans with v.
    + rewrite Forall_forall in *. intros x Hx.
      destruct (H4 x Hx) as [Hx' | Hx']; [now left | right].
      now apply le_lt_trans with v.
  - intro Hall. rewrite Forall_forall in Hall.
    destruct (Hall v) as [Hv | Hv]; [| congruence | exact Hv].
    destruct H3 as [-> | H3]; [now left | now right].
Qed.

(** [endIteration] when the first error is not a number. *)
Lemma endIteration_nan_first (s : Solver T) (e0 : float) (rest : list float) :
  m_errors s = e0 :: rest -> Num.isnan e0 = true -> endIteration s = false.
Proof.
  unfold endIteration. intros -> Hn. cbn [Util.max_element].
  rewrite max_element_from_nan by exact Hn. cbn [nth].
  destruct (Num.lt e0 (m_thresh s)) eqn:E; [|reflexivity].
  apply lt_not_nan in E. destruct E; congruence.
Qed.

End ConvergenceFacts.

(** X18.  [addVector] and [endIteration] agree on convergence.  After a call
    of [addVector] that went past the early return there is one error for
    every root, and at least one root.  For a linear solver, when the call
    returned 0 (no root is left in the working set), [endIteration] reports
    convergence; and when [endIteration] reports convergence although roots
    are left in the working set, the errors of those roots are not numbers.
    A non-linear solver returns the number of roots whatever the errors. *)
Theorem addVector_then_endIteration :
  forall (T : Type) (ops : VectorOps T) (K : Platform)
         (s s' : Solver T) (cv cv' : caller_vectors T) (n : nat),
    addVector K s cv = Ok (n, s', cv') ->
    m_working_set (initialise s cv) <> [] ->
    length (m_errors s') = m_roots s' /\ 0 < m_roots s'
    /\ (m_linear s' = true -> n = 0 -> endIteration s' = true)
    /\ (m_linear s' = true -> endIteration s' = true ->
        forall root, In root (m_working_set s') ->
                     Num.isnan (nth root (m_errors s') 0%float) = true)
    /\ (m_linear s' = false -> n = m_roots s').
Proof.
  intros T ops K s s' cv cv' n H Hne.
  destruct (addVector_stages K _ _ _ _ _ H Hne) as (s_in & cv_in & s_solved & b & He & Hs & Hl).
  destruct (addVector_enter_lengths _ _ _ _ He) as (E1 & _).
  pose proof (addVector_enter_roots _ _ _ _ He) as Er.
  pose proof (addVector_leave_errors _ _ _ _ _ Hl) as Hlen.
  destruct (addVector_leave_spec _ _ _ _ _ Hl) as (Hn & Hws & Hr & _).
  apply solveReducedProblem_frame in Hs. destruct Hs as (_ & _ & _ & _ & Hr2 & _).
  destruct (buildSubspace_settled K _ s_in eq_refl) as (_ & _ & _ & _ & _ & Hr3 & _).
  assert (Hpos : 0 < m_roots s').
  { rewrite Hr, Hr2, Hr3, Er. unfold initialise in *.
    destruct (m_working_set _) as [|r0 ws0] eqn:Ews in E1; [now rewrite Ews in Hne|].
    cbn [length] in E1.
    destruct (m_roots s <? 1) eqn:E0.
    - destruct (_ && _); solver_simpl; lia.
    - apply Nat.ltb_ge in E0. destruct (_ && _); solver_simpl; lia. }
  rewrite <- Hr in Hlen.
  split; [exact Hlen|]. split; [exact Hpos|].
  assert (Hconv : forall root, negb (converged s' root) = true <->
                               ~ (m_linear s' = true
                                  /\ Num.lt (nth root (m_errors s') 0%float) (m_thresh s') = true)).
  { intro root. unfold converged.
    destruct (m_linear s'), (Num.lt (nth root (m_errors s') 0%float) (m_thresh s'));
      cbn; intuition congruence. }
  split; [|split].
  - intros Hlin Hz.
    assert (Hall : forall root, root < m_roots s' ->
                                Num.lt (nth root (m_errors s') 0%float) (m_thresh s') = true).
    { intros root Hroot.
      destruct (Num.lt (nth root (m_errors s') 0%float) (m_thresh s')) eqn:E; [reflexivity|].
      assert (Hin : In root (m_working_set s')).
      { rewrite Hws. apply filter_In. split; [apply in_seq; lia|].
        apply Hconv. intros [_ Hc]. congruence. }
      rewrite Hz in Hn. symmetry in Hn. apply length_zero_iff_nil in Hn.
      now rewrite Hn in Hin. }
    destruct (m_errors s') as [|e0 rest] eqn:Eerr; [cbn [length] in Hlen; lia|].
    apply (endIteration_numbers s' e0 rest Eerr).
    + pose proof (Hall 0 Hpos) as H0. cbn [nth] in H0.
      apply lt_not_nan in H0. tauto.
    + apply Forall_forall. intros e Hin. right.
      destruct (In_nth _ _ 0%float Hin) as (i & Hi & <-).
      apply Hall. lia.
  - intros Hlin Hend root Hin.
    rewrite Hws in Hin. apply filter_In in Hin. destruct Hin as [Hseq Hc].
    apply in_seq in Hseq. apply Hconv in Hc.
    destruct (m_errors s') as [|e0 rest] eqn:Eerr; [cbn [length] in Hlen; lia|].
    destruct (Num.isnan e0) eqn:En0.
    + now rewrite (endIteration_nan_first s' e0 rest Eerr En0) in Hend.
    + apply (endIteration_numbers s' e0 rest Eerr En0) in Hend.
      rewrite Forall_forall in Hend.
      destruct (Hend (nth root (e0 :: rest) 0%float)) as [Hnan|Hlt].
      * apply nth_In. lia.
      * exact Hnan.
      * elim Hc. split; assumption.
  - intro Hlin. rewrite Hn, Hws.
    rewrite List.forallb_filter_id; [apply length_seq|].
    apply forallb_forall. intros root _. unfold converged. now rewrite Hlin.
Qed.

(** X18 on the first call of the eigensolver for diag(1, 2, 3) with three
    exact eigenvectors: the call returns 0 and [endIteration] reports
    convergence. *)
Lemma addVector_then_endIteration_witness :
  fst (fst Scenario.eigen3) = 0
  /\ endIteration (snd (fst Scenario.eigen3)) = true
  /\ length (m_errors (snd (fst Scenario.eigen3))) = 3.
Proof.
  destruct (addVector_then_endIteration DenseVector.t DenseVector_ops Scenario.K
              new_LinearEigensystem (snd (fst Scenario.eigen3))
              (Scenario.eigen_caller 3) (snd Scenario.eigen3) (fst (fst Scenario.eigen3)))
    as (H1 & _ & H3 & _).
  - vm_compute. reflexivity.
  - vm_compute. discriminate.
  - split; [reflexivity|]. split; [apply H3; reflexivity|].
    rewrite H1. reflexivity.
Defined.
